(** * Crash analysis pipeline of mcp-crashlytics-server

    A shallow embedding of [src/impact-analyzer.ts] (class [ImpactAnalyzer])
    and of the crash processor (class [CrashProcessor]), with the properties
    the specification states about them.

    Conventions of the embedding.
    - The [number]s of the impact classifier, whose division has no guard,
      are IEEE-754 binary64 values: Rocq's primitive [float], whose
      operations are the ones of a JavaScript engine, [NaN] and the
      infinities included.
    - Counters ([count++], [Set.size], a [COUNT] column, a line number) are
      integers, [Z] or [N]; they enter float arithmetic through
      [Number.of_Z], the correctly rounded conversion (exact below 2^53).
    - Rates, averages and percentages are binary64 values as well, with
      the rounding of every quotient, product and sum; [Math.round] is
      [Number.round]. The rationals ([Q]) appear in statements only, as
      the real number a binary64 value stands for ([Number.real]).
    - A [string] is a sequence of code units; a [Map] and an array are lists
      in insertion order; a [Set<string>] is a [gset string].
    - [throw], [try] and [catch] are an error monad, [Res]. *)

From Stdlib Require Import ZArith QArith Qround Qabs Qpower Floats Ascii String List.
From Stdlib Require Import DecimalString Permutation Sorted Lia Lqa Bool.
From stdpp Require Import base decidable option list strings gmap.

Local Open Scope string_scope.
Local Open Scope Z_scope.

(** ** JavaScript numbers, strings and built-ins *)

Module Number.

(** [Number(z)] for an integer [z]: the nearest binary64 value. *)
Definition of_Z (z : Z) : float :=
  SF2Prim (binary_normalize prec emax z 0 false).

(** [x > y] and [x >= y]; both are [false] when an operand is [NaN]. *)
Definition gt (x y : float) : bool := PrimFloat.ltb y x.
Definition ge (x y : float) : bool := PrimFloat.leb y x.

(** [String(n)] for a natural number below 10^21: its decimal digits. *)
Definition toString (n : N) : string := NilZero.string_of_uint (N.to_uint n).

(** The power of two [2^e], and the real number a binary64 value stands
    for; [NaN] and the infinities, which stand for none, are given 0. *)
Definition pow2 (e : Z) : Q := Qpower 2 e.

Definition SFreal (x : spec_float) : Q :=
  match x with
  | S754_finite s m e => (inject_Z (cond_Zopp s (Zpos m)) * pow2 e)%Q
  | _ => 0%Q
  end.

Definition real (x : float) : Q := SFreal (Prim2SF x).

(** [Number.isFinite(x)] *)
Definition isFinite (x : float) : bool :=
  match Prim2SF x with
  | S754_zero _ | S754_finite _ _ _ => true
  | _ => false
  end.

(** [Math.round(x)]: [x] itself when it is [NaN], an infinity or a zero;
    otherwise the integer nearest to [x], a tie going up, which is [-0]
    for [-0.5 <= x < 0]. The integer is computed from the exact value of
    [x], not by a binary64 addition of 0.5. *)
Definition round (x : float) : float :=
  match Prim2SF x with
  | S754_finite s m e =>
      let z := Qfloor (SFreal (S754_finite s m e) + (1 # 2)) in
      if z =? 0 then (if s then PrimFloat.neg_zero else PrimFloat.zero) else of_Z z
  | _ => x
  end.

(** [x || d] for a number [x] that may be missing ([null], [undefined]):
    0, -0 and [NaN] are falsy too. *)
Definition or (x : option float) (d : float) : float :=
  match x with
  | Some v => if PrimFloat.is_zero v || PrimFloat.is_nan v then d else v
  | None => d
  end.

Fixpoint zeros (n : nat) : string :=
  match n with
  | O => ""
  | S n' => "0" +:+ zeros n'
  end.

(** The digits of [n / 10^digits], with [digits] of them after the
    point. *)
Definition fixedDigits (n : Z) (digits : nat) : string :=
  let scale := 10 ^ Z.of_nat digits in
  let whole := toString (Z.to_N (n / scale)) in
  let frac := toString (Z.to_N (n mod scale)) in
  whole
  +:+ match digits with
      | O => ""
      | _ => "." +:+ zeros (digits - String.length frac) +:+ frac
      end.

(** [Number::toString(x)] for a binary64 [x >= 10^21], whose value is the
    integer [X]: exponent notation, over the decimal [s * 10^(n-k)] of the
    fewest digits [k] that converts back to [x], and among those the one
    nearest to [X] (the even one on a tie).

    The candidates with [k] digits are the two multiples of [10^(D-k)]
    around [X], where [D] is the number of digits of [X], and the power of
    ten above [X]; each is [(n, s)]. At most 17 digits are needed. *)
Definition candidates (X k : Z) : list (Z * Z) :=
  let D := Z.of_nat (String.length (toString (Z.to_N X))) in
  let u := 10 ^ (D - k) in
  [(D, X / u); (D, X / u + 1); (D + 1, 10 ^ (k - 1))].

Definition readsBack (x : float) (k : Z) (c : Z * Z) : bool :=
  let '(n, s) := c in
  (10 ^ (k - 1) <=? s) && (s <? 10 ^ k)
  && PrimFloat.eqb (of_Z (s * 10 ^ (n - k))) x.

Definition nearer (X k : Z) (c1 c2 : Z * Z) : Z * Z :=
  let dist c := Z.abs (snd c * 10 ^ (fst c - k) - X) in
  if dist c1 <? dist c2 then c1
  else if dist c2 <? dist c1 then c2
  else if Z.even (snd c1) then c1 else c2.

Definition best (X k : Z) (l : list (Z * Z)) : option (Z * Z) :=
  match l with
  | [] => None
  | c :: l' => Some (fold_left (nearer X k) l' c)
  end.

Fixpoint shortest (fuel : nat) (x : float) (X k : Z) : option (Z * Z * Z) :=
  match fuel with
  | O => None
  | S fuel' =>
      match best X k (List.filter (readsBack x k) (candidates X k)) with
      | Some (n, s) => Some (n, k, s)
      | None => shortest fuel' x X (k + 1)
      end
  end.

Definition toStringLarge (x : float) : string :=
  let X := Qfloor (real x) in
  match shortest 17 x X 1 with
  | Some (n, k, s) =>
      match toString (Z.to_N s) with
      | String d rest =>
          String d (if k =? 1 then "" else "." +:+ rest)
          +:+ "e+" +:+ toString (Z.to_N (n - 1))
      | EmptyString => ""
      end
  | None => ""
  end.

(** [x.toFixed(digits)]: the text of [NaN] and of the infinities; the
    exponent notation of [Number::toString] from 10^21 on; otherwise the
    decimal with [digits] digits after the point that is nearest to the
    exact value of [x], a tie going away from zero. The code calls it with
    [digits] 0 and 1. *)
Definition toFixed (x : float) (digits : nat) : string :=
  match Prim2SF x with
  | S754_nan => "NaN"
  | S754_infinity s => if s then "-Infinity" else "Infinity"
  | _ =>
      let v := real x in
      let sign := if Qle_bool 0 v then "" else "-" in
      let a := Qabs v in
      if Qle_bool (inject_Z (10 ^ 21)) a
      then sign +:+ toStringLarge (PrimFloat.abs x)
      else
        sign
        +:+ fixedDigits (Qfloor (a * inject_Z (10 ^ Z.of_nat digits) + (1 # 2)))
              digits
  end.

End Number.

Declare Scope js_scope.
Delimit Scope js_scope with js.
Notation "x >? y" := (Number.gt x y) (at level 70, no associativity) : js_scope.
Notation "x >=? y" := (Number.ge x y) (at level 70, no associativity) : js_scope.
Notation "x / y" := (PrimFloat.div x y) : js_scope.
Notation "x * y" := (PrimFloat.mul x y) : js_scope.

Module JSString.

(** A string is truthy when it is not empty. *)
Definition truthy (s : string) : bool := negb (String.eqb s "").

(** [s || d] *)
Definition or (s d : string) : string := if truthy s then s else d.

(** [o?.field || d] and [o?.field] as a condition, for a field read
    through optional chaining: [None] is [undefined]. *)
Definition truthyOpt (o : option string) : bool :=
  match o with Some s => truthy s | None => false end.

Definition orOpt (o : option string) (d : string) : string :=
  match o with Some s => or s d | None => d end.

(** [s.includes(sub)] *)
Fixpoint includes (s sub : string) : bool :=
  String.prefix sub s
  || match s with
     | EmptyString => false
     | String _ s' => includes s' sub
     end.

(** [parts.join(sep)] *)
Fixpoint join (sep : string) (parts : list string) : string :=
  match parts with
  | [] => ""
  | [p] => p
  | p :: rest => p +:+ sep +:+ join sep rest
  end.

(** [s.split(sep)] for a separator of one code unit. *)
Fixpoint split (sep : ascii) (s : string) : list string :=
  match s with
  | EmptyString => [""]
  | String c s' =>
      if Ascii.eqb c sep then "" :: split sep s'
      else match split sep s' with
           | [] => [String c ""]
           | p :: rest => String c p :: rest
           end
  end.

(** [parts.pop()]: the last element, [undefined] on an empty array. *)
Definition pop (parts : list string) : option string := last parts.

(** The double quote, as a one-character string. *)
Definition dquote : string := String "034" "".

(** [s.toLowerCase()] on code units below 256: the letters A to Z and
    the capital letters of Latin-1 (0xC0 to 0xDE, without the
    multiplication sign 0xD7) move up by 32. *)
Definition lowerUnit (c : ascii) : ascii :=
  let n := N_of_ascii c in
  if ((65 <=? n) && (n <=? 90)
      || (192 <=? n) && (n <=? 222) && negb (n =? 215))%N
  then ascii_of_N (n + 32)
  else c.

Fixpoint toLowerCase (s : string) : string :=
  match s with
  | EmptyString => EmptyString
  | String c s' => String (lowerUnit c) (toLowerCase s')
  end.

(** [s.startsWith(p)] *)
Definition startsWith (s p : string) : bool := String.prefix p s.

(** [s.slice(0, -1)]: [s] without its last code unit. *)
Fixpoint dropLast (s : string) : string :=
  match s with
  | EmptyString => EmptyString
  | String c EmptyString => EmptyString
  | String c s' => String c (dropLast s')
  end.

End JSString.

(** [Array.prototype.sort(compare)]: the standard requires a stable sort,
    and with a consistent comparator the result is the one sorted
    arrangement that keeps the order of elements comparing equal; a
    stable insertion sort computes it. [compare a b <= 0] keeps [a]
    before [b]. *)
Module JSArray.

Section Sort.
Context {A : Type} (compare : A -> A -> Z).

Fixpoint insert (x : A) (l : list A) : list A :=
  match l with
  | [] => [x]
  | y :: l' => if compare x y <=? 0 then x :: l else y :: insert x l'
  end.

Definition sort (l : list A) : list A := foldr insert [] l.

End Sort.

(** [l.push(x)] *)
Definition push {A : Type} (l : list A) (x : A) : list A := app l [x].

(** [l.slice(0, n)] *)
Definition slice0 {A : Type} (n : nat) (l : list A) : list A := firstn n l.

(** [l.slice(start, end)] with the relative indices of the standard: a
    negative index counts from the end, and both are clamped to the
    array; [None] is an [end] left out. *)
Definition slice {A : Type} (start : Z) (stop : option Z) (l : list A) : list A :=
  let len := Z.of_nat (length l) in
  let clamp i := if i <? 0 then Z.max (len + i) 0 else Z.min i len in
  let k := clamp start in
  let final := match stop with Some e => clamp e | None => len end in
  firstn (Z.to_nat (Z.max (final - k) 0)) (skipn (Z.to_nat k) l).

End JSArray.

(** [Map<string, V>]: the entries in insertion order. [set] on a key
    that is present replaces the value where it stands. *)
Module JSMap.

Section Ops.
Context {V : Type}.

Definition t : Type := list (string * V).

Fixpoint get (key : string) (m : t) : option V :=
  match m with
  | [] => None
  | (k, v) :: m' => if String.eqb k key then Some v else get key m'
  end.

Definition has (key : string) (m : t) : bool := bool_decide (is_Some (get key m)).

Fixpoint set (key : string) (v : V) (m : t) : t :=
  match m with
  | [] => [(key, v)]
  | (k, v') :: m' =>
      if String.eqb k key then (k, v) :: m' else (k, v') :: set key v m'
  end.

Definition keys (m : t) : list string := map fst m.
Definition values (m : t) : list V := map snd m.
Definition entries (m : t) : list (string * V) := m.

End Ops.

Arguments t : clear implicits.

End JSMap.

(** Exceptions: a computation returns a value or throws. *)
Inductive Res (A : Type) : Type :=
| Ok (a : A)
| Throw (e : string).

Arguments Ok {A} a.
Arguments Throw {A} e.

Definition bind {A B : Type} (r : Res A) (k : A -> Res B) : Res B :=
  match r with
  | Ok a => k a
  | Throw e => Throw e
  end.

Definition try_catch {A : Type} (body : Res A) (handler : string -> Res A) : Res A :=
  match body with
  | Ok a => Ok a
  | Throw e => handler e
  end.

Notation "'let*' x ':=' r 'in' k" := (bind r (fun x => k))
  (at level 10, x name, r at level 100, k at level 200).

(** The values [JSON.parse] returns. *)
#[local] Unset Elimination Schemes.
Inductive JSON : Type :=
| JNull
| JBool (b : bool)
| JNum (x : float)
| JStr (s : string)
| JArr (items : list JSON)
| JObj (fields : list (string * JSON)).
#[local] Set Elimination Schemes.

(** ** types.ts *)

Inductive ImpactLevel : Set := high | medium | low.

#[global] Instance ImpactLevel_eq_dec : EqDecision ImpactLevel.
Proof. solve_decision. Defined.

Module CrashSummary.
Record t : Set := mk {
  id : string;
  timestamp : string;
  impact : ImpactLevel;
  affected_users : Z;
  occurrences : Z;
  app_version : string;
  platform : string;
  crash_message : string;
  is_fatal : bool;
  title : string
}.
End CrashSummary.

Module StackFrame.
Record t : Set := mk {
  method : string;
  class : string;
  file : string;
  line : N;
  column : option N;
  library : option string
}.
End StackFrame.

Module StackTrace.
Record t : Set := mk {
  exception_type : string;
  message : string;
  frames : list StackFrame.t
}.
End StackTrace.

Module DeviceInfo.
Record t : Set := mk {
  model : string;
  os_version : string;
  memory_available : string;
  storage_available : string;
  orientation : string;
  battery_level : option Z
}.
End DeviceInfo.

Module CrashContext.
Record t : Type := mk {
  app_version : string;
  os_version : string;
  device : string;
  memory_available : string;
  breadcrumbs : JSON;
  custom_keys : JSON;
  session_id : string;
  user_id : string
}.
End CrashContext.

Module CrashDetails.
Record t : Type := mk {
  crash_summary : CrashSummary.t;
  stack_trace : StackTrace.t;
  context : CrashContext.t;
  device_info : DeviceInfo.t;
  suggested_fix_context : string
}.
End CrashDetails.

Module CrashTrend.
Record t : Set := mk {
  date : string;
  crash_count : Z;
  affected_users : Z;
  crash_free_rate : float
}.
End CrashTrend.

Module DeviceStat.
Record t : Set := mk {
  device : string;
  crash_count : N;
  percentage : float
}.
End DeviceStat.

Module TrendAnalysis.
Record t : Set := mk {
  time_range : string;
  trends : list CrashTrend.t;
  top_crashes : list CrashSummary.t;
  most_affected_devices : list DeviceStat.t;
  crash_free_percentage : float
}.
End TrendAnalysis.

Module BigQueryCrashRow.
Record t : Set := mk {
  crash_id : string;
  timestamp : string;
  event_name : string;
  platform : string;
  app_version : string;
  bundle_id : string;
  exception_type : string;
  exception_message : string;
  stack_trace : string;
  is_fatal : bool;
  device_model : string;
  os_version : string;
  memory_available : Z;
  storage_available : Z;
  user_id : string;
  session_id : string;
  custom_keys : string;
  breadcrumbs : string
}.
End BigQueryCrashRow.

(** The rows of the two statistics queries, typed [any] in the source: a
    column may be missing ([None]). [crash_count] is a [COUNT] column. *)
Module CrashFreeRow.
Record t : Set := mk {
  date : string;
  crashed_users : option Z;
  crash_free_rate : option float
}.
End CrashFreeRow.

Module StatRow.
Record t : Set := mk {
  group_key : option string;
  crash_count : option N
}.
End StatRow.

(** ** impact-analyzer.ts *)

Module ImpactAnalyzer.

Record t : Set := { totalUsers : float }.

(** [constructor(totalUsers: number = 10000)] *)
Definition new (totalUsers : option float) : t :=
  {| totalUsers := default (Number.of_Z 10000) totalUsers |}.

Definition calculateImpactLevel (this : t)
    (affectedUsers occurrences : float) (isFatal : bool) : ImpactLevel :=
  let userPercentage := ((affectedUsers / totalUsers this) * 100)%js%float in
  if isFatal then
    if ((affectedUsers >? 100) || (userPercentage >? 5))%js%float then high
    else if ((affectedUsers >=? 10) || (userPercentage >=? 1))%js%float then medium
    else low
  else
    if ((affectedUsers >? 500) || (userPercentage >? 10)
        || (occurrences >? 1000))%js%float then high
    else if ((affectedUsers >=? 50) || (userPercentage >=? 2)
             || (occurrences >=? 100))%js%float then medium
    else low.

Definition filterByImpact (crashes : list CrashSummary.t)
    (impactFilter : ImpactLevel) : list CrashSummary.t :=
  List.filter (fun crash => bool_decide (CrashSummary.impact crash = impactFilter))
    crashes.

(** [const impactWeight = { high: 3, medium: 2, low: 1 }] *)
Definition impactWeight (level : ImpactLevel) : Z :=
  match level with high => 3 | medium => 2 | low => 1 end.

(** The comparator handed to [crashes.sort]. *)
Definition compareImpactAndFrequency (a b : CrashSummary.t) : Z :=
  let impactDiff :=
    impactWeight (CrashSummary.impact b) - impactWeight (CrashSummary.impact a) in
  if negb (impactDiff =? 0) then impactDiff
  else CrashSummary.occurrences b - CrashSummary.occurrences a.

Definition sortByImpactAndFrequency (crashes : list CrashSummary.t)
    : list CrashSummary.t :=
  JSArray.sort compareImpactAndFrequency crashes.

Definition commonExceptions : list string :=
  [ "NullPointerException";
    "IndexOutOfBoundsException";
    "IllegalArgumentException";
    "ClassCastException";
    "ConcurrentModificationException";
    "OutOfMemoryError";
    "StackOverflowError" ].

Definition isCommonException (exceptionType : string) : bool :=
  existsb (fun type => JSString.includes exceptionType type) commonExceptions.

(** The [advice] record, in the order of its keys. *)
Definition advice : list (string * string) :=
  [ ("NullPointerException",
     "Check for null values before accessing object methods or properties");
    ("IndexOutOfBoundsException",
     "Verify array/list bounds before accessing elements");
    ("IllegalArgumentException",
     "Validate method parameters before use");
    ("ClassCastException",
     "Verify object types before casting");
    ("ConcurrentModificationException",
     "Use thread-safe collections or synchronization when modifying collections across threads");
    ("OutOfMemoryError",
     "Review memory usage, optimize data structures, or increase heap size");
    ("StackOverflowError",
     "Check for infinite recursion or deeply nested method calls") ].

Definition genericAdvice : string :=
  "Review the stack trace to identify the root cause".

(** The loop of [getCommonExceptionAdvice] over [Object.entries]. *)
Fixpoint firstAdvice (entries : list (string * string)) (exceptionType : string)
    : option string :=
  match entries with
  | [] => None
  | (key, value) :: rest =>
      if JSString.includes exceptionType key then Some value
      else firstAdvice rest exceptionType
  end.

Definition getCommonExceptionAdvice (exceptionType : string) : string :=
  default genericAdvice (firstAdvice advice exceptionType).

(** The [context] array of [generateFixSuggestionContext] just before it
    is joined; [push] appends. *)
Definition fixSuggestionSentences (exceptionType : string)
    (stackFrames : list StackFrame.t) (crashMessage appVersion : string)
    : list string :=
  let topFrame := head stackFrames in
  let context : list string := [] in
  let context := JSArray.push context
    ("The crash occurs in "
     +:+ JSString.orOpt (StackFrame.class <$> topFrame) "unknown class") in
  let context :=
    match topFrame with
    | Some frame =>
        if JSString.truthy (StackFrame.method frame)
        then JSArray.push context ("in the " +:+ StackFrame.method frame +:+ " method")
        else context
    | None => context
    end in
  let context :=
    match topFrame with
    | Some frame =>
        if JSString.truthy (StackFrame.file frame)
           && negb (StackFrame.line frame =? 0)%N
        then JSArray.push context ("at " +:+ StackFrame.file frame +:+ ":"
                           +:+ Number.toString (StackFrame.line frame))
        else context
    | None => context
    end in
  let context := JSArray.push context ("when a " +:+ exceptionType +:+ " is thrown") in
  let context :=
    if JSString.truthy crashMessage
    then JSArray.push context ("with the message: " +:+ JSString.dquote +:+ crashMessage
                       +:+ JSString.dquote)
    else context in
  let context :=
    if isCommonException exceptionType
    then JSArray.push context (getCommonExceptionAdvice exceptionType)
    else context in
  let context :=
    if JSString.truthy appVersion
    then JSArray.push context ("This occurs in app version " +:+ appVersion)
    else context in
  context.

Definition generateFixSuggestionContext (exceptionType : string)
    (stackFrames : list StackFrame.t) (crashMessage appVersion : string)
    : string :=
  JSString.join ". "
    (fixSuggestionSentences exceptionType stackFrames crashMessage appVersion)
  +:+ ".".

(** [calculateCrashFreeRate]: [totalUsers === 0] holds for 0 and -0. *)
Definition calculateCrashFreeRate (totalUsers crashedUsers : float) : float :=
  if (totalUsers =? 0)%float then 100%float
  else ((totalUsers - crashedUsers) / totalUsers * 100)%float.

(** The argument and the result of [identifyTrends]. *)
Module CrashCount.
Record t : Set := mk { date : string; count : float }.
End CrashCount.

Inductive Trend : Set := increasing | decreasing | stable.

Module TrendChange.
Record t : Set := mk { trend : Trend; changeRate : float }.
End TrendChange.

(** [items.reduce((sum, item) => sum + item.count, 0)] *)
Definition sumCounts (items : list CrashCount.t) : float :=
  fold_left (fun sum item => (sum + CrashCount.count item)%float) items 0%float.

(** [identifyTrends]. A comparison with [NaN] is false, so a change rate
    that is [NaN] falls through to [decreasing]. *)
Definition identifyTrends (crashCounts : list CrashCount.t) : TrendChange.t :=
  if (length crashCounts <? 2)%nat
  then {| TrendChange.trend := stable; TrendChange.changeRate := 0%float |}
  else
    let recent := JSArray.slice (-3) None crashCounts in
    let older := JSArray.slice (-6) (Some (-3)) crashCounts in
    let recentAvg :=
      (sumCounts recent / Number.of_Z (Z.of_nat (length recent)))%float in
    let olderAvg :=
      if (0 <? length older)%nat
      then (sumCounts older / Number.of_Z (Z.of_nat (length older)))%float
      else recentAvg in
    let changeRate :=
      if (olderAvg >? 0)%js%float
      then ((recentAvg - olderAvg) / olderAvg * 100)%float
      else 0%float in
    if (PrimFloat.abs changeRate <? 10)%float
    then {| TrendChange.trend := stable; TrendChange.changeRate := changeRate |}
    else if (changeRate >? 0)%js%float
    then {| TrendChange.trend := increasing; TrendChange.changeRate := changeRate |}
    else {| TrendChange.trend := decreasing; TrendChange.changeRate := changeRate |}.

End ImpactAnalyzer.

(** ** The crash processor *)

Module CrashProcessor.

Record t : Set := { impactAnalyzer : ImpactAnalyzer.t }.

(** [constructor(totalUsers: number = 10000)] *)
Definition new (totalUsers : option float) : t :=
  {| impactAnalyzer :=
       ImpactAnalyzer.new (Some (default (Number.of_Z 10000) totalUsers)) |}.

(** The values of [crashMap]: [{ row, count, users }]. *)
Module Group.
Record t : Type := mk {
  row : BigQueryCrashRow.t;
  count : Z;
  users : gset string
}.
End Group.

Definition generateCrashTitle (exceptionType message : string) : string :=
  let shortType :=
    JSString.orOpt (JSString.pop (JSString.split "." exceptionType)) exceptionType in
  let shortMessage :=
    if JSString.truthy message
    then (if (50 <? String.length message)%nat
          then String.substring 0 47 message +:+ "..."
          else message)
    else "" in
  if JSString.truthy shortMessage
  then shortType +:+ ": " +:+ shortMessage
  else shortType.

(** The template literal that keys [crashMap]. *)
Definition groupKey (row : BigQueryCrashRow.t) : string :=
  BigQueryCrashRow.exception_type row +:+ "-"
  +:+ BigQueryCrashRow.exception_message row +:+ "-"
  +:+ BigQueryCrashRow.app_version row.

(** The body of [rows.forEach]. [crashMap.has(key)] followed by
    [crashMap.get(key)!] is the match on [get]; the entry found under the
    key is an object the code mutates, so it is updated where it stands
    in the map. *)
Definition accumulate (crashMap : JSMap.t Group.t) (row : BigQueryCrashRow.t)
    : JSMap.t Group.t :=
  let key := groupKey row in
  match JSMap.get key crashMap with
  | Some existing =>
      let users :=
        if JSString.truthy (BigQueryCrashRow.user_id row)
        then {[ BigQueryCrashRow.user_id row ]} ∪ Group.users existing
        else Group.users existing in
      JSMap.set key (Group.mk (Group.row existing) (Group.count existing + 1) users)
        crashMap
  | None =>
      let users : gset string :=
        if JSString.truthy (BigQueryCrashRow.user_id row)
        then {[ BigQueryCrashRow.user_id row ]}
        else ∅ in
      JSMap.set key (Group.mk row 1 users) crashMap
  end.

Definition groupRows (rows : list BigQueryCrashRow.t) : JSMap.t Group.t :=
  fold_left accumulate rows [].

Definition summarize (this : t) (group : Group.t) : CrashSummary.t :=
  let row := Group.row group in
  let affectedUsers := Z.of_nat (size (Group.users group)) in
  let impact :=
    ImpactAnalyzer.calculateImpactLevel (impactAnalyzer this)
      (Number.of_Z affectedUsers) (Number.of_Z (Group.count group))
      (BigQueryCrashRow.is_fatal row) in
  {| CrashSummary.id := BigQueryCrashRow.crash_id row;
     CrashSummary.timestamp := BigQueryCrashRow.timestamp row;
     CrashSummary.impact := impact;
     CrashSummary.affected_users := affectedUsers;
     CrashSummary.occurrences := Group.count group;
     CrashSummary.app_version := BigQueryCrashRow.app_version row;
     CrashSummary.platform := BigQueryCrashRow.platform row;
     CrashSummary.crash_message :=
       JSString.or (BigQueryCrashRow.exception_message row) "Unknown error";
     CrashSummary.is_fatal := BigQueryCrashRow.is_fatal row;
     CrashSummary.title :=
       generateCrashTitle (BigQueryCrashRow.exception_type row)
         (BigQueryCrashRow.exception_message row) |}.

Definition processCrashRows (this : t) (rows : list BigQueryCrashRow.t)
    : list CrashSummary.t :=
  let crashMap := groupRows rows in
  let summaries := map (summarize this) (JSMap.values crashMap) in
  ImpactAnalyzer.sortByImpactAndFrequency summaries.

(** [formatMemory]: [bytes] is a [bigint], which [Number(bytes)] rounds
    to binary64; [!bytes] holds for [0n]. *)
Definition formatMemory (bytes : Z) : string :=
  if bytes =? 0 then "Unknown"
  else
    let numBytes := Number.of_Z bytes in
    let gb := (numBytes / (1024 * 1024 * 1024))%float in
    if (gb >=? 1)%js%float
    then Number.toFixed gb 1 +:+ "GB"
    else
      let mb := (numBytes / (1024 * 1024))%float in
      Number.toFixed mb 0 +:+ "MB".

Definition extractDeviceInfo (row : BigQueryCrashRow.t) : DeviceInfo.t :=
  {| DeviceInfo.model := JSString.or (BigQueryCrashRow.device_model row) "Unknown";
     DeviceInfo.os_version := JSString.or (BigQueryCrashRow.os_version row) "Unknown";
     DeviceInfo.memory_available :=
       formatMemory (BigQueryCrashRow.memory_available row);
     DeviceInfo.storage_available :=
       formatMemory (BigQueryCrashRow.storage_available row);
     DeviceInfo.orientation := "Unknown";
     DeviceInfo.battery_level := None |}.

Definition libraryPrefixes : list string :=
  [ "android."; "androidx."; "com.google."; "java."; "kotlin."; "swift.";
    "foundation."; "uikit." ].

(** The loop of [detectLibrary] over the prefixes. *)
Fixpoint firstLibrary (prefixes : list string) (className : string)
    : option string :=
  match prefixes with
  | [] => None
  | prefix :: rest =>
      if JSString.startsWith (JSString.toLowerCase className)
           (JSString.toLowerCase prefix)
      then Some (JSString.dropLast prefix)
      else firstLibrary rest className
  end.

Definition detectLibrary (className : string) : option string :=
  firstLibrary libraryPrefixes className.

Section Details.

(** [JSON.parse], which throws on text that is not JSON, and the
    regular-expression parser of stack traces, which returns a
    [StackTrace] for every text. *)
Variable JSON_parse : string -> Res JSON.
Variable parseStackTrace : string -> StackTrace.t.

Definition extractCrashContext (row : BigQueryCrashRow.t) : Res CrashContext.t :=
  let breadcrumbs : JSON := JArr [] in
  let customKeys : JSON := JObj [] in
  let* breadcrumbs :=
    try_catch
      (if JSString.truthy (BigQueryCrashRow.breadcrumbs row)
       then JSON_parse (BigQueryCrashRow.breadcrumbs row)
       else Ok breadcrumbs)
      (fun e =>
         Ok (if JSString.truthy (BigQueryCrashRow.breadcrumbs row)
             then JArr [JStr (BigQueryCrashRow.breadcrumbs row)]
             else JArr [])) in
  let* customKeys :=
    try_catch
      (if JSString.truthy (BigQueryCrashRow.custom_keys row)
       then JSON_parse (BigQueryCrashRow.custom_keys row)
       else Ok customKeys)
      (fun e => Ok (JObj [])) in
  Ok {| CrashContext.app_version :=
          JSString.or (BigQueryCrashRow.app_version row) "Unknown";
        CrashContext.os_version :=
          JSString.or (BigQueryCrashRow.os_version row) "Unknown";
        CrashContext.device :=
          JSString.or (BigQueryCrashRow.device_model row) "Unknown";
        CrashContext.memory_available :=
          formatMemory (BigQueryCrashRow.memory_available row);
        CrashContext.breadcrumbs := breadcrumbs;
        CrashContext.custom_keys := customKeys;
        CrashContext.session_id :=
          JSString.or (BigQueryCrashRow.session_id row) "Unknown";
        CrashContext.user_id := BigQueryCrashRow.user_id row |}.

Definition processCrashDetails (this : t) (row : BigQueryCrashRow.t)
    : Res CrashDetails.t :=
  let stackTrace := parseStackTrace (BigQueryCrashRow.stack_trace row) in
  let deviceInfo := extractDeviceInfo row in
  let* context := extractCrashContext row in
  let affectedUsers := 1%float in
  let impact :=
    ImpactAnalyzer.calculateImpactLevel (impactAnalyzer this)
      affectedUsers 1%float (BigQueryCrashRow.is_fatal row) in
  let crashSummary :=
    {| CrashSummary.id := BigQueryCrashRow.crash_id row;
       CrashSummary.timestamp := BigQueryCrashRow.timestamp row;
       CrashSummary.impact := impact;
       CrashSummary.affected_users := 1;
       CrashSummary.occurrences := 1;
       CrashSummary.app_version := BigQueryCrashRow.app_version row;
       CrashSummary.platform := BigQueryCrashRow.platform row;
       CrashSummary.crash_message :=
         JSString.or (BigQueryCrashRow.exception_message row) "Unknown error";
       CrashSummary.is_fatal := BigQueryCrashRow.is_fatal row;
       CrashSummary.title :=
         generateCrashTitle (BigQueryCrashRow.exception_type row)
           (BigQueryCrashRow.exception_message row) |} in
  let suggestedFixContext :=
    ImpactAnalyzer.generateFixSuggestionContext
      (BigQueryCrashRow.exception_type row)
      (StackTrace.frames stackTrace)
      (BigQueryCrashRow.exception_message row)
      (BigQueryCrashRow.app_version row) in
  Ok {| CrashDetails.crash_summary := crashSummary;
        CrashDetails.stack_trace := stackTrace;
        CrashDetails.context := context;
        CrashDetails.device_info := deviceInfo;
        CrashDetails.suggested_fix_context := suggestedFixContext |}.

End Details.

(** The body of [crashStats.forEach]: the state is [deviceMap] and
    [totalCrashes]. *)
Definition countDevice (state : JSMap.t N * N) (stat : StatRow.t)
    : JSMap.t N * N :=
  let '(deviceMap, totalCrashes) := state in
  let device := JSString.orOpt (StatRow.group_key stat) "Unknown" in
  let count := default 0%N (StatRow.crash_count stat) in
  (JSMap.set device (default 0%N (JSMap.get device deviceMap) + count)%N deviceMap,
   (totalCrashes + count)%N).

(** [Math.round((crash_count / totalCrashes) * 10000) / 100], behind its
    guard [totalCrashes > 0]: two counters enter binary64 arithmetic, and
    the quotient, the product and the last quotient are each rounded. *)
Definition percentageOf (crash_count totalCrashes : N) : float :=
  if (0 <? totalCrashes)%N
  then (Number.round
          (Number.of_Z (Z.of_N crash_count) / Number.of_Z (Z.of_N totalCrashes)
           * 10000)
        / 100)%float
  else 0%float.

Definition compareDeviceStats (a b : DeviceStat.t) : Z :=
  Z.of_N (DeviceStat.crash_count b) - Z.of_N (DeviceStat.crash_count a).

Definition aggregateDeviceStats (crashStats : list StatRow.t) : list DeviceStat.t :=
  let '(deviceMap, totalCrashes) := fold_left countDevice crashStats ([], 0%N) in
  JSArray.slice0 10
    (JSArray.sort compareDeviceStats
       (map (fun '(device, crash_count) =>
               {| DeviceStat.device := device;
                  DeviceStat.crash_count := crash_count;
                  DeviceStat.percentage := percentageOf crash_count totalCrashes |})
            (JSMap.entries deviceMap))).

Definition processTrendAnalysis (crashStats : list StatRow.t)
    (crashFreeCounts : list CrashFreeRow.t) (topCrashes : list CrashSummary.t)
    (timeRange : string) : TrendAnalysis.t :=
  let trends :=
    map (fun row =>
           {| CrashTrend.date := CrashFreeRow.date row;
              CrashTrend.crash_count := default 0 (CrashFreeRow.crashed_users row);
              CrashTrend.affected_users := default 0 (CrashFreeRow.crashed_users row);
              CrashTrend.crash_free_rate :=
                Number.or (CrashFreeRow.crash_free_rate row) 100%float |})
        crashFreeCounts in
  let overallCrashFreeRate :=
    if (0 <? length crashFreeCounts)%nat
    then (fold_left
            (fun sum row =>
               sum + Number.or (CrashFreeRow.crash_free_rate row) 100)
            crashFreeCounts 0
          / Number.of_Z (Z.of_nat (length crashFreeCounts)))%float
    else 100%float in
  let deviceStats := aggregateDeviceStats crashStats in
  {| TrendAnalysis.time_range := timeRange;
     TrendAnalysis.trends := trends;
     TrendAnalysis.top_crashes := JSArray.slice0 10 topCrashes;
     TrendAnalysis.most_affected_devices := deviceStats;
     TrendAnalysis.crash_free_percentage :=
       (Number.round (overallCrashFreeRate * 100) / 100)%float |}.

End CrashProcessor.

(** ** Definitions the statements use *)

Module Spec.

(** The ladders of the classifier with every percentage test taken out:
    what the absolute thresholds on [affectedUsers] and [occurrences]
    decide alone. *)
Definition absoluteLevel (affectedUsers occurrences : float) (isFatal : bool)
    : ImpactLevel :=
  if isFatal then
    if (affectedUsers >? 100)%js%float then high
    else if (affectedUsers >=? 10)%js%float then medium
    else low
  else
    if ((affectedUsers >? 500) || (occurrences >? 1000))%js%float then high
    else if ((affectedUsers >=? 50) || (occurrences >=? 100))%js%float then medium
    else low.

(** The percentage as the specification defines it: 0 when the baseline
    is zero or negative. *)
Definition guardedPercentage (totalUsers affectedUsers : float) : float :=
  if (totalUsers <=? 0)%float then 0%float
  else ((affectedUsers / totalUsers) * 100)%js%float.

(** The classifier of the specification, over the guarded percentage. *)
Definition guardedImpactLevel (totalUsers affectedUsers occurrences : float)
    (isFatal : bool) : ImpactLevel :=
  let pct := guardedPercentage totalUsers affectedUsers in
  if isFatal then
    if ((affectedUsers >? 100) || (pct >? 5))%js%float then high
    else if ((affectedUsers >=? 10) || (pct >=? 1))%js%float then medium
    else low
  else
    if ((affectedUsers >? 500) || (pct >? 10)
        || (occurrences >? 1000))%js%float then high
    else if ((affectedUsers >=? 50) || (pct >=? 2)
             || (occurrences >=? 100))%js%float then medium
    else low.

(** A binary64 value that is a zero, negative or [NaN]: it passes no
    test against a positive threshold. *)
Definition inert (x : spec_float) : Prop :=
  match x with
  | S754_zero _ | S754_nan => True
  | S754_infinity s | S754_finite s _ _ => s = true
  end.

(** [high] comes before [medium], and [medium] before [low]. *)
Definition outranks (x y : ImpactLevel) : Prop :=
  match x, y with
  | high, medium | high, low | medium, low => True
  | _, _ => False
  end.

(** The ranking of [sortByImpactAndFrequency]: a higher impact first, and
    on equal impact the larger occurrence count first. *)
Definition ranksBefore (a b : CrashSummary.t) : Prop :=
  outranks (CrashSummary.impact a) (CrashSummary.impact b)
  \/ (CrashSummary.impact a = CrashSummary.impact b
      /\ CrashSummary.occurrences b <= CrashSummary.occurrences a).

(** Summaries of one impact level and one occurrence count. *)
Definition sameRank (level : ImpactLevel) (n : Z) (c : CrashSummary.t) : bool :=
  bool_decide (CrashSummary.impact c = level)
  && (CrashSummary.occurrences c =? n).

(** The triple the specification groups by. *)
Definition triple (row : BigQueryCrashRow.t) : string * string * string :=
  (BigQueryCrashRow.exception_type row,
   BigQueryCrashRow.exception_message row,
   BigQueryCrashRow.app_version row).

(** [s] holds no hyphen, the separator of the group key. *)
Fixpoint hyphenFree (s : string) : bool :=
  match s with
  | EmptyString => true
  | String c s' => negb (Ascii.eqb c "-") && hyphenFree s'
  end.

(** The grouping loop with a ghost component: beside each group, the
    rows accumulated into it so far, in the order of their arrival. The
    code never reads it; [erase] forgets it. *)
Definition GhostMap : Type := JSMap.t (CrashProcessor.Group.t * list BigQueryCrashRow.t).

Definition accumulateGhost (crashMap : GhostMap) (row : BigQueryCrashRow.t)
    : GhostMap :=
  let key := CrashProcessor.groupKey row in
  match JSMap.get key crashMap with
  | Some (existing, members) =>
      let users :=
        if JSString.truthy (BigQueryCrashRow.user_id row)
        then {[ BigQueryCrashRow.user_id row ]} ∪ CrashProcessor.Group.users existing
        else CrashProcessor.Group.users existing in
      JSMap.set key
        (CrashProcessor.Group.mk (CrashProcessor.Group.row existing)
           (CrashProcessor.Group.count existing + 1) users,
         members ++ [row])%list
        crashMap
  | None =>
      let users : gset string :=
        if JSString.truthy (BigQueryCrashRow.user_id row)
        then {[ BigQueryCrashRow.user_id row ]}
        else ∅ in
      JSMap.set key (CrashProcessor.Group.mk row 1 users, [row]) crashMap
  end.

Definition groupRowsGhost (rows : list BigQueryCrashRow.t) : GhostMap :=
  fold_left accumulateGhost rows [].

Definition erase (crashMap : GhostMap) : JSMap.t CrashProcessor.Group.t :=
  map (fun entry => (fst entry, fst (snd entry))) crashMap.

(** Two rows are accumulated into the same group of [crashMap]. *)
Definition sameGroup (crashMap : GhostMap) (r1 r2 : BigQueryCrashRow.t) : Prop :=
  exists key group members,
    In (key, (group, members)) crashMap /\ In r1 members /\ In r2 members.

(** The grand total of a statistics table, and the count of one label. *)
Definition deviceLabel (stat : StatRow.t) : string :=
  JSString.orOpt (StatRow.group_key stat) "Unknown".

Definition grandTotal (crashStats : list StatRow.t) : N :=
  fold_right (fun stat acc => (default 0 (StatRow.crash_count stat) + acc)%N) 0%N
    crashStats.

Definition labelTotal (label : string) (crashStats : list StatRow.t) : N :=
  grandTotal (List.filter (fun stat => String.eqb (deviceLabel stat) label) crashStats).

Definition sumQ (l : list Q) : Q := fold_right Qplus 0%Q l.

(** What a rounding returns for a real [x]: a zero or a finite value of
    the sign [s], whose exponent is at most [E] and which is within
    [2 * 2^E] of [x]. *)
Definition rounds_to (r : spec_float) (s : bool) (x : Q) (E : Z) : Prop :=
  match r with
  | S754_zero s' => s' = s /\ (x <= 2 * Number.pow2 E)%Q
  | S754_finite s' m e =>
      s' = s /\ e <= E
      /\ (Qabs (inject_Z (Zpos m) * Number.pow2 e - x) <= 2 * Number.pow2 E)%Q
  | _ => False
  end.

(** A binary64 value that is a zero or positive and finite, within [err]
    of the real [x]. *)
Definition near (r : spec_float) (x err : Q) : Prop :=
  match r with
  | S754_zero s | S754_finite s _ _ =>
      s = false /\ (Qabs (Number.SFreal r - x) <= err)%Q
  | _ => False
  end.

(** [p] is the percentage of [part] in [total] rounded to two decimals.
    It is the binary64 number [h / 100] for a whole number [h] of
    hundredths; [h] is an integer nearest to the exact [10000 * part /
    total] (up to 10^-9, the rounding of the quotient and of the product,
    which decides the ties); and the real value of [p] is [h / 100] up to
    10^-12, the rounding of the last quotient. *)
Definition isPercentage (p : float) (part total : N) : Prop :=
  exists hundredths : Z,
    p = (Number.of_Z hundredths / 100)%float
    /\ Number.isFinite p = true
    /\ (Qabs (inject_Z hundredths
              - inject_Z 10000 * inject_Z (Z.of_N part) / inject_Z (Z.of_N total))
        <= (1 # 2) + (1 # 1000000000))%Q
    /\ (Qabs (Number.real p - inject_Z hundredths / inject_Z 100)
        <= 1 # 1000000000000)%Q.

End Spec.

(** ** Invariants of the loops *)

(** [crashMap]: a group holds no more users than it has counted rows. *)
Definition usersWithinCount (entry : string * CrashProcessor.Group.t) : Prop :=
  Z.of_nat (size (CrashProcessor.Group.users (snd entry)))
  <= CrashProcessor.Group.count (snd entry).

(** The ghost map after [rows]: the keys are distinct, the members of a
    group are the rows whose key is the group's, and every row has its
    group. *)
Definition membersByKey (rows : list BigQueryCrashRow.t) (crashMap : Spec.GhostMap)
    : Prop :=
  NoDup (JSMap.keys crashMap)
  /\ (forall key group members,
        In (key, (group, members)) crashMap ->
        members
        = List.filter (fun r => String.eqb (CrashProcessor.groupKey r) key) rows)
  /\ (forall r, In r rows -> In (CrashProcessor.groupKey r) (JSMap.keys crashMap)).

Definition sumN (l : list N) : N := fold_right N.add 0%N l.

(** [deviceMap] and [totalCrashes] after [rows]. *)
Definition deviceTotals (rows : list StatRow.t) (state : JSMap.t N * N) : Prop :=
  snd state = Spec.grandTotal rows
  /\ sumN (JSMap.values (fst state)) = snd state
  /\ NoDup (JSMap.keys (fst state))
  /\ (forall label count, In (label, count) (fst state) ->
        count = Spec.labelTotal label rows)
  /\ (forall stat, In stat rows -> In (Spec.deviceLabel stat) (JSMap.keys (fst state))).

(** The arrow function mapped over [deviceMap.entries()]. *)
Definition statOf (totalCrashes : N) (entry : string * N) : DeviceStat.t :=
  let '(device, crash_count) := entry in
  {| DeviceStat.device := device;
     DeviceStat.crash_count := crash_count;
     DeviceStat.percentage := CrashProcessor.percentageOf crash_count totalCrashes |}.

(** The first code unit of a sentence that is no advice: the fixed
    openings are "The crash occurs in", "in the", "at", "when a",
    "with the message" and "This occurs in". *)
Definition plainSentence (s : string) : Prop :=
  match s with
  | String c _ => c = "T"%char \/ c = "i"%char \/ c = "a"%char \/ c = "w"%char
  | EmptyString => False
  end.

(** A crash row with the given exception type, message, app version and
    user id, for the examples. *)
Definition rowOf (type message version user : string) : BigQueryCrashRow.t :=
  BigQueryCrashRow.mk "c" "t" "crash" "android" version "app" type message ""
    true "" "" 0 0 user "" "" "".

(** ** Definitions of the further statements *)

(** The rows of one group key, in their order. *)
Definition rowsOfKey (key : string) (rows : list BigQueryCrashRow.t)
    : list BigQueryCrashRow.t :=
  List.filter (fun r => String.eqb (CrashProcessor.groupKey r) key) rows.

(** The user ids of some rows, the empty ones left out. *)
Definition userIds (rows : list BigQueryCrashRow.t) : gset string :=
  list_to_set (List.filter JSString.truthy (map BigQueryCrashRow.user_id rows)).

(** [crashMap] after [rows]: one group for each key, which holds the
    first row of the key, the number of its rows and their user ids. *)
Definition groupsOfRows (rows : list BigQueryCrashRow.t)
    (crashMap : JSMap.t CrashProcessor.Group.t) : Prop :=
  NoDup (JSMap.keys crashMap)
  /\ (forall key group,
        In (key, group) crashMap ->
        exists first rest,
          rowsOfKey key rows = first :: rest
          /\ CrashProcessor.Group.row group = first
          /\ CrashProcessor.Group.count group = Z.of_nat (length (first :: rest))
          /\ CrashProcessor.Group.users group = userIds (first :: rest))
  /\ (forall r, In r rows -> In (CrashProcessor.groupKey r) (JSMap.keys crashMap)).

Definition sumZ (l : list Z) : Z := fold_right Z.add 0 l.

(** A string does not hold the code unit [c]. *)
Fixpoint unitFree (c : ascii) (s : string) : bool :=
  match s with
  | EmptyString => true
  | String d s' => negb (Ascii.eqb d c) && unitFree c s'
  end.

(** A summary of the given impact and occurrence count, and a day's
    crash count, for the examples. *)
Definition summaryOf (level : ImpactLevel) (n : Z) : CrashSummary.t :=
  CrashSummary.mk "c" "t" level n n "1.0" "android" "m" true "T".

Definition countOf (n : Z) : ImpactAnalyzer.CrashCount.t :=
  ImpactAnalyzer.CrashCount.mk "2024-05-01" (Number.of_Z n).

(** * Properties *)

Import ImpactAnalyzer CrashProcessor.

(** ** The examples of the specification, evaluated *)

Example formatMemory_examples :
  formatMemory 1073741824 = "1.0GB"
  /\ formatMemory 524288000 = "500MB"
  /\ formatMemory 0 = "Unknown".
Proof. repeat split; reflexivity. Qed.

(** Beyond 2^53 [Number(bytes)] rounds, and from 10^21 GiB on [toFixed]
    prints an exponent. *)
Example formatMemory_large :
  formatMemory (2 ^ 53 + 1) = "8388608.0GB"
  /\ formatMemory (10 ^ 31) = "9.313225746154785e+21GB"
  /\ formatMemory (2 ^ 1024) = "InfinityGB".
Proof. repeat split; vm_compute; reflexivity. Qed.

Example generateCrashTitle_example :
  generateCrashTitle "com.example.FooException"
    "012345678901234567890123456789012345678901234567890123456789"
  = "FooException: 01234567890123456789012345678901234567890123456...".
Proof. reflexivity. Qed.

Example two_users_one_group :
  map (fun summary =>
         (CrashSummary.occurrences summary, CrashSummary.affected_users summary))
    (processCrashRows (CrashProcessor.new None)
       [rowOf "NullPointerException" "x" "1.0" "u1";
        rowOf "NullPointerException" "x" "1.0" "u2"])
  = [(2, 2)].
Proof. reflexivity. Qed.

Example fatal_150_users_is_high :
  calculateImpactLevel (ImpactAnalyzer.new None)
    (Number.of_Z 150) (Number.of_Z 150) true = high.
Proof. reflexivity. Qed.

(** [Math.round] on binary64 values: a tie goes up, also below zero. *)
Example round_examples :
  Number.round 2.5 = 3%float /\ Number.round (-2.5) = (-2)%float
  /\ Number.round (-0.5) = PrimFloat.neg_zero
  /\ Number.round 0.5 = 1%float.
Proof. repeat split; reflexivity. Qed.

(** 57 crashes of 800: in binary64 the quotient times 10000 is
    712.4999999999999, not 712.5, and the percentage is 7.12. *)
Example percentageOf_57_of_800 :
  percentageOf 57 800 = (Number.of_Z 712 / 100)%float
  /\ percentageOf 1 3 = (Number.of_Z 3333 / 100)%float.
Proof. split; reflexivity. Qed.

(** One day with the rate 99.52499999999999: times 100 it is 9952.5 in
    binary64, and the report says 99.53. *)
Example crash_free_percentage_rounds :
  TrendAnalysis.crash_free_percentage
    (processTrendAnalysis []
       [CrashFreeRow.mk "2024-05-01" (Some 1) (Some 0x1.8e19999999999p+6%float)]
       [] "7d")
  = (Number.of_Z 9953 / 100)%float.
Proof. reflexivity. Qed.

Section ClassifierFacts.
Local Open Scope float_scope.

Lemma Prim2SF_0 : Prim2SF 0 = S754_zero false.
Proof. reflexivity. Qed.

Lemma round_aux_sign (s : bool) (m e : Z) (l : location) :
  match binary_round_aux prec emax s m e l with
  | S754_zero s' | S754_infinity s' | S754_finite s' _ _ => s' = s
  | S754_nan => True
  end.
Proof.
  unfold binary_round_aux.
  destruct (shr_fexp prec emax m e l) as [mrs e'].
  destruct (shr_fexp prec emax _ e' loc_Exact) as [mrs' e''].
  destruct (shr_m mrs'); [reflexivity| |exact I].
  destruct (e'' <=? emax - prec)%Z; reflexivity.
Qed.

Lemma inert_round_aux (m e : Z) (l : location) :
  Spec.inert (binary_round_aux prec emax true m e l).
Proof.
  pose proof (round_aux_sign true m e l) as H.
  destruct (binary_round_aux prec emax true m e l); simpl; auto.
Qed.

Lemma inert_div (a t : float) :
  (t <=? 0) = true -> (0 <=? a) = true ->
  (t <? 0) = true \/ (a =? 0) = true ->
  Spec.inert (Prim2SF (a / t)).
Proof.
  rewrite !leb_spec, ltb_spec, FloatAxioms.eqb_spec, div_spec, Prim2SF_0.
  unfold SF64div, SFdiv, SFleb, SFltb, SFeqb, SFcompare.
  destruct (Prim2SF a) as [[]|[]| |[] ma ea], (Prim2SF t) as [[]|[]| |[] mt et];
    simpl; intros Ht Ha Hor; try discriminate; try exact I; try reflexivity;
    try (destruct Hor; discriminate).
  all: destruct (SFdiv_core_binary prec emax _ _ _ _) as [[mz ez] lz];
       apply inert_round_aux.
Qed.

Lemma inert_mul_100 (x : float) :
  Spec.inert (Prim2SF x) -> Spec.inert (Prim2SF (x * 100)).
Proof.
  rewrite mul_spec.
  change (Prim2SF 100) with (S754_finite false 7036874417766400 (-46)).
  unfold SF64mul, SFmul.
  destruct (Prim2SF x) as [s|s| |s m e]; simpl; intros H; subst; auto.
  apply inert_round_aux.
Qed.

Lemma inert_gt (x c : float) (m : positive) (e : Z) :
  Prim2SF c = S754_finite false m e -> Spec.inert (Prim2SF x) ->
  Number.gt x c = false /\ Number.ge x c = false.
Proof.
  unfold Number.gt, Number.ge. rewrite ltb_spec, leb_spec. intros -> H.
  unfold SFltb, SFleb, SFcompare.
  destruct (Prim2SF x) as [s|s| |s m' e']; simpl in *; subst; auto.
Qed.
End ClassifierFacts.

Section ClassifierTheorems.
Local Open Scope float_scope.
Local Open Scope js_scope.

Lemma guarded_is_absolute (t a o : float) (f : bool) :
  (t <=? 0) = true -> Spec.guardedImpactLevel t a o f = Spec.absoluteLevel a o f.
Proof.
  intros Ht. unfold Spec.guardedImpactLevel, Spec.guardedPercentage, Spec.absoluteLevel.
  rewrite Ht.
  change (0 >? 5) with false. change (0 >=? 1) with false.
  change (0 >? 10) with false. change (0 >=? 2) with false.
  now rewrite !orb_false_r.
Qed.

(** C2. With a positive baseline [totalUsers] and
    [pct = affectedUsers / totalUsers * 100], [calculateImpactLevel]
    returns, for a fatal crash, [high] exactly when [affectedUsers > 100]
    or [pct > 5], otherwise [medium] exactly when [affectedUsers >= 10] or
    [pct >= 1], otherwise [low]; for a non-fatal crash, [high] exactly when
    [affectedUsers > 500] or [pct > 10] or [occurrences > 1000], otherwise
    [medium] exactly when [affectedUsers >= 50] or [pct >= 2] or
    [occurrences >= 100], otherwise [low]. *)
Theorem calculateImpactLevel_ladders (this : ImpactAnalyzer.t)
    (affectedUsers occurrences : float) (isFatal : bool) :
  (0 <? totalUsers this) = true ->
  let pct := (affectedUsers / totalUsers this) * 100 in
  let level := calculateImpactLevel this affectedUsers occurrences isFatal in
  let gt x c := (x >? c) = true in
  let ge x c := (x >=? c) = true in
  if isFatal then
    (level = high <-> gt affectedUsers 100 \/ gt pct 5)
    /\ (level = medium <->
        ~ (gt affectedUsers 100 \/ gt pct 5)
        /\ (ge affectedUsers 10 \/ ge pct 1))
    /\ (level = low <->
        ~ (gt affectedUsers 100 \/ gt pct 5)
        /\ ~ (ge affectedUsers 10 \/ ge pct 1))
  else
    (level = high <->
       gt affectedUsers 500 \/ gt pct 10 \/ gt occurrences 1000)
    /\ (level = medium <->
        ~ (gt affectedUsers 500 \/ gt pct 10 \/ gt occurrences 1000)
        /\ (ge affectedUsers 50 \/ ge pct 2 \/ ge occurrences 100))
    /\ (level = low <->
        ~ (gt affectedUsers 500 \/ gt pct 10 \/ gt occurrences 1000)
        /\ ~ (ge affectedUsers 50 \/ ge pct 2 \/ ge occurrences 100)).
Proof.
  intros _ pct level gt ge. subst level gt ge. unfold calculateImpactLevel.
  fold pct. destruct isFatal.
  - destruct (affectedUsers >? 100), (pct >? 5),
      (affectedUsers >=? 10), (pct >=? 1); simpl;
      intuition (discriminate || congruence).
  - destruct (affectedUsers >? 500), (pct >? 10), (occurrences >? 1000),
      (affectedUsers >=? 50), (pct >=? 2), (occurrences >=? 100); simpl;
      intuition (discriminate || congruence).
Qed.

(** C2, witness: 150 affected users of a fatal crash against the default
    baseline of 10000. *)
Lemma calculateImpactLevel_ladders_witness :
  calculateImpactLevel (ImpactAnalyzer.new None) 150 150 true = high.
Proof.
  pose proof (calculateImpactLevel_ladders (ImpactAnalyzer.new None) 150 150 true
                eq_refl) as H.
  simpl in H. apply H. left. reflexivity.
Defined.

(** C3, counterexample. With the baseline 0, one affected user and one
    occurrence of a fatal crash, the percentage is [1 / 0 * 100], positive
    infinity, and the level is [high]; the absolute thresholds alone, and
    the classifier over the guarded percentage, give [low]. *)
Lemma zero_baseline_not_guarded :
  calculateImpactLevel (ImpactAnalyzer.new (Some 0)) 1 1 true = high
  /\ Spec.absoluteLevel 1 1 true = low
  /\ Spec.guardedImpactLevel 0 1 1 true = low.
Proof. repeat split; reflexivity. Qed.

(** C3, amended. The division has no guard. With a baseline that is
    zero or negative and a count of affected users that is not negative,
    the classifier returns a level in every case: [high] when the baseline
    is 0 and some user is affected (the percentage is then positive
    infinity), and the level of the absolute thresholds alone when the
    baseline is negative or no user is affected (the percentage is then
    negative, a zero or [NaN], and passes no test). *)
Theorem calculateImpactLevel_nonpositive_baseline (this : ImpactAnalyzer.t)
    (affectedUsers occurrences : float) (isFatal : bool) :
  (totalUsers this <=? 0) = true -> (0 <=? affectedUsers) = true ->
  let level := calculateImpactLevel this affectedUsers occurrences isFatal in
  (totalUsers this = 0 -> (0 <? affectedUsers) = true -> level = high)
  /\ ((totalUsers this <? 0) = true \/ (affectedUsers =? 0) = true ->
      level = Spec.absoluteLevel affectedUsers occurrences isFatal).
Proof.
  intros Ht Ha level. subst level. unfold calculateImpactLevel. split.
  - intros Hz Hpos. rewrite Hz.
    assert (Hinf : Prim2SF ((affectedUsers / 0) * 100) = S754_infinity false).
    { rewrite mul_spec, div_spec.
      rewrite ltb_spec in Hpos. change (Prim2SF 0) with (S754_zero false) in *.
      change (Prim2SF 100) with (S754_finite false 7036874417766400 (-46)).
      unfold SFltb, SFcompare in Hpos.
      destruct (Prim2SF affectedUsers) as [s|[]| |[] m e]; simpl in *;
        try discriminate; reflexivity. }
    assert (H5 : ((affectedUsers / 0) * 100 >? 5) = true).
    { unfold Number.gt. rewrite ltb_spec, Hinf. reflexivity. }
    assert (H10 : ((affectedUsers / 0) * 100 >? 10) = true).
    { unfold Number.gt. rewrite ltb_spec, Hinf. reflexivity. }
    rewrite H5, H10. destruct isFatal; now rewrite ?orb_true_r.
  - intros Hor.
    pose proof (inert_mul_100 _ (inert_div _ _ Ht Ha Hor)) as Hin.
    unfold Spec.absoluteLevel.
    destruct (inert_gt _ 5 _ _ eq_refl Hin) as [-> _].
    destruct (inert_gt _ 1 _ _ eq_refl Hin) as [_ ->].
    destruct (inert_gt _ 10 _ _ eq_refl Hin) as [-> _].
    destruct (inert_gt _ 2 _ _ eq_refl Hin) as [_ ->].
    now rewrite !orb_false_r.
Qed.

(** C3, witness: three users of a non-fatal crash, against the baselines
    0 and -10000. *)
Lemma calculateImpactLevel_nonpositive_baseline_witness :
  calculateImpactLevel (ImpactAnalyzer.new (Some 0)) 3 1 false = high
  /\ calculateImpactLevel (ImpactAnalyzer.new (Some (-10000))) 3 1 false
     = Spec.absoluteLevel 3 1 false.
Proof.
  split.
  - apply (calculateImpactLevel_nonpositive_baseline
             (ImpactAnalyzer.new (Some 0)) 3 1 false eq_refl eq_refl);
      reflexivity.
  - apply (calculateImpactLevel_nonpositive_baseline
             (ImpactAnalyzer.new (Some (-10000))) 3 1 false eq_refl eq_refl).
    left. reflexivity.
Defined.
End ClassifierTheorems.

Section SortFacts.
Context {A : Type} (compare : A -> A -> Z).

Lemma insert_Permutation (x : A) (l : list A) :
  Permutation (JSArray.insert compare x l) (x :: l).
Proof.
  induction l as [|y l IH]; simpl; [reflexivity|].
  destruct (compare x y <=? 0); [reflexivity|].
  rewrite IH. apply perm_swap.
Qed.

Lemma sort_Permutation (l : list A) : Permutation (JSArray.sort compare l) l.
Proof.
  induction l as [|x l IH]; simpl; [reflexivity|].
  unfold JSArray.sort in *. simpl. rewrite insert_Permutation. now constructor.
Qed.

Lemma insert_filter (P : A -> bool) (x : A) (l : list A) :
  (forall y, P x = true -> P y = true -> compare x y <= 0) ->
  List.filter P (JSArray.insert compare x l)
  = if P x then x :: List.filter P l else List.filter P l.
Proof.
  intros Hties. induction l as [|y l IH]; simpl; [reflexivity|].
  destruct (compare x y <=? 0) eqn:Hc; simpl; [reflexivity|].
  rewrite IH. destruct (P x) eqn:Hx, (P y) eqn:Hy; try reflexivity.
  specialize (Hties y eq_refl Hy). lia.
Qed.

Lemma sort_filter (P : A -> bool) (l : list A) :
  (forall x y, P x = true -> P y = true -> compare x y <= 0) ->
  List.filter P (JSArray.sort compare l) = List.filter P l.
Proof.
  intros Hties. induction l as [|x l IH]; [reflexivity|].
  change (JSArray.sort compare (x :: l))
    with (JSArray.insert compare x (JSArray.sort compare l)).
  rewrite insert_filter by (intros y; apply Hties).
  simpl. now rewrite IH.
Qed.

Hypothesis compare_total : forall x y, 0 < compare x y -> compare y x <= 0.
Hypothesis compare_trans :
  forall x y z, compare x y <= 0 -> compare y z <= 0 -> compare x z <= 0.

Lemma insert_sorted (x : A) (l : list A) :
  StronglySorted (fun a b => compare a b <= 0) l ->
  StronglySorted (fun a b => compare a b <= 0) (JSArray.insert compare x l).
Proof.
  induction 1 as [|y l Hs IH Hy]; simpl.
  - repeat constructor.
  - destruct (compare x y <=? 0) eqn:Hc.
    + apply Z.leb_le in Hc. constructor; [now constructor|].
      constructor; [exact Hc|].
      eapply List.Forall_impl; [|exact Hy]. intros z Hz. simpl in Hz. eauto.
    + apply Z.leb_gt in Hc. constructor; [exact IH|].
      eapply Permutation_Forall; [symmetry; apply insert_Permutation|].
      constructor; [now apply compare_total | exact Hy].
Qed.

Lemma sort_sorted (l : list A) :
  StronglySorted (fun a b => compare a b <= 0) (JSArray.sort compare l).
Proof.
  induction l as [|x l IH]; [constructor|].
  change (JSArray.sort compare (x :: l))
    with (JSArray.insert compare x (JSArray.sort compare l)).
  now apply insert_sorted.
Qed.

End SortFacts.

Lemma StronglySorted_impl {A : Type} (R S : A -> A -> Prop) (l : list A) :
  (forall a b, R a b -> S a b) -> StronglySorted R l -> StronglySorted S l.
Proof.
  intros HRS. induction 1 as [|x l Hs IH Hx]; constructor; auto.
  eapply List.Forall_impl; [|exact Hx]. auto.
Qed.

Lemma compare_le_ranksBefore (a b : CrashSummary.t) :
  compareImpactAndFrequency a b <= 0 <-> Spec.ranksBefore a b.
Proof.
  unfold compareImpactAndFrequency, Spec.ranksBefore, Spec.outranks.
  destruct (CrashSummary.impact a), (CrashSummary.impact b); simpl;
    intuition (lia || congruence).
Qed.

(** C8. [sortByImpactAndFrequency] returns a permutation of its input
    in which a summary of higher impact comes first and, on equal impact,
    the one with more occurrences; the summaries of one impact level and
    one occurrence count keep the order they had in the input. *)
Theorem sortByImpactAndFrequency_stable (crashes : list CrashSummary.t) :
  let ranked := sortByImpactAndFrequency crashes in
  Permutation ranked crashes
  /\ StronglySorted Spec.ranksBefore ranked
  /\ forall (level : ImpactLevel) (n : Z),
       List.filter (Spec.sameRank level n) ranked
       = List.filter (Spec.sameRank level n) crashes.
Proof.
  unfold sortByImpactAndFrequency. repeat split.
  - apply sort_Permutation.
  - eapply StronglySorted_impl; [intros a b; apply compare_le_ranksBefore|].
    apply sort_sorted.
    + intros x y. unfold compareImpactAndFrequency.
      destruct (CrashSummary.impact x), (CrashSummary.impact y); simpl; lia.
    + intros x y z. unfold compareImpactAndFrequency.
      destruct (CrashSummary.impact x), (CrashSummary.impact y),
        (CrashSummary.impact z); simpl; lia.
  - intros level n. apply sort_filter. intros x y Hx Hy.
    unfold Spec.sameRank in *.
    apply andb_true_iff in Hx as [Hx1 Hx2], Hy as [Hy1 Hy2].
    apply bool_decide_eq_true in Hx1, Hy1. apply Z.eqb_eq in Hx2, Hy2.
    unfold compareImpactAndFrequency. rewrite Hx1, Hy1, Hx2, Hy2.
    rewrite Z.sub_diag. simpl. lia.
Qed.

Section MapFacts.
Context {V : Type}.
Implicit Types (m : JSMap.t V) (k key : string) (v : V).

Lemma get_In key m v : JSMap.get key m = Some v -> In (key, v) m.
Proof.
  induction m as [|[k v'] m IH]; simpl; [discriminate|].
  destruct (String.eqb k key) eqn:E.
  - apply String.eqb_eq in E. intros [= ->]. left. now subst.
  - intros H. right. auto.
Qed.

Lemma get_None key m : JSMap.get key m = None <-> ~ In key (JSMap.keys m).
Proof.
  induction m as [|[k v'] m IH]; simpl; [tauto|].
  destruct (String.eqb k key) eqn:E.
  - apply String.eqb_eq in E. split; [discriminate|]. intros H. destruct H. now left.
  - apply String.eqb_neq in E. rewrite IH. tauto.
Qed.

Lemma keys_set key v m :
  JSMap.keys (JSMap.set key v m)
  = match JSMap.get key m with
    | Some _ => JSMap.keys m
    | None => (JSMap.keys m ++ [key])%list
    end.
Proof.
  unfold JSMap.keys. induction m as [|[k v'] m IH]; simpl; [reflexivity|].
  destruct (String.eqb k key) eqn:E; simpl; [reflexivity|].
  rewrite IH. now destruct (JSMap.get key m).
Qed.

Lemma NoDup_keys_set key v m :
  NoDup (JSMap.keys m) -> NoDup (JSMap.keys (JSMap.set key v m)).
Proof.
  intros Hnd. rewrite keys_set. destruct (JSMap.get key m) eqn:E; [exact Hnd|].
  apply get_None in E. apply NoDup_app. repeat split; auto.
  - intros x Hx Hin. apply list_elem_of_In in Hx, Hin. simpl in Hin.
    destruct Hin as [<-|[]]. contradiction.
  - apply NoDup_singleton.
Qed.

Lemma In_set key v m k v0 :
  NoDup (JSMap.keys m) ->
  In (k, v0) (JSMap.set key v m)
  <-> (k = key /\ v0 = v) \/ (k <> key /\ In (k, v0) m).
Proof.
  induction m as [|[k' v'] m IH]; simpl; intros Hnd.
  - split.
    + intros [[= <- <-]|[]]. now left.
    + intros [[-> ->]|[_ []]]. now left.
  - apply NoDup_cons in Hnd as [Hk' Hnd]. rewrite list_elem_of_In in Hk'.
    destruct (String.eqb k' key) eqn:E; simpl.
    + apply String.eqb_eq in E. subst k'. split.
      * intros [[= <- <-]|Hin]; [now left|].
        right. split; [|now right]. intros ->.
        apply Hk'. apply (in_map fst) in Hin. exact Hin.
      * intros [[-> ->]|[Hne [[= Hk _]|Hin]]]; [now left| |now right].
        now destruct Hne.
    + apply String.eqb_neq in E. rewrite (IH Hnd). split.
      * intros [[= <- <-]|[[-> ->]|[Hne Hin]]]; auto.
      * intros [[-> ->]|[Hne [[= <- <-]|Hin]]]; auto.
Qed.

Lemma Forall_set (P : string * V -> Prop) key v m :
  Forall P m -> P (key, v) -> Forall P (JSMap.set key v m).
Proof.
  intros Hm Hv. induction Hm as [|[k v'] m Hx Hm IH]; simpl.
  - now constructor.
  - destruct (String.eqb k key) eqn:E.
    + apply String.eqb_eq in E. subst. now constructor.
    + now constructor.
Qed.

End MapFacts.

Lemma fold_left_invariant {S R : Type} (step : S -> R -> S) (Inv : S -> Prop)
    (rows : list R) (s : S) :
  Inv s -> (forall s r, Inv s -> Inv (step s r)) -> Inv (fold_left step rows s).
Proof.
  intros Hs Hstep. revert s Hs. induction rows as [|r rows IH]; simpl; auto.
Qed.

Lemma size_add (u : string) (X : gset string) : (size ({[ u ]} ∪ X) <= S (size X))%nat.
Proof.
  rewrite size_union_alt, size_singleton.
  assert (Hsub : X ∖ {[ u ]} ⊆ X).
  { apply subseteq_difference_l. reflexivity. }
  apply subseteq_size in Hsub. lia.
Qed.

Lemma accumulate_usersWithinCount (crashMap : JSMap.t Group.t) (row : BigQueryCrashRow.t) :
  Forall usersWithinCount crashMap ->
  Forall usersWithinCount (accumulate crashMap row).
Proof.
  intros Hm. unfold accumulate.
  destruct (JSMap.get (groupKey row) crashMap) as [existing|] eqn:E.
  - apply Forall_set; [exact Hm|].
    apply get_In in E. rewrite Forall_forall in Hm.
    apply list_elem_of_In in E.
    specialize (Hm _ E). unfold usersWithinCount in *. simpl in *.
    destruct (JSString.truthy _); [|lia].
    pose proof (size_add (BigQueryCrashRow.user_id row) (Group.users existing)). lia.
  - apply Forall_set; [exact Hm|]. unfold usersWithinCount. simpl.
    destruct (JSString.truthy _).
    + rewrite size_singleton. lia.
    + rewrite size_empty. lia.
Qed.

(** C1. Every summary [processCrashRows] produces has
    [affected_users <= occurrences], whatever the rows. *)
Theorem processCrashRows_users_le_occurrences (this : CrashProcessor.t)
    (rows : list BigQueryCrashRow.t) :
  Forall (fun summary =>
            CrashSummary.affected_users summary <= CrashSummary.occurrences summary)
    (processCrashRows this rows).
Proof.
  unfold processCrashRows, ImpactAnalyzer.sortByImpactAndFrequency.
  eapply Permutation_Forall; [symmetry; apply sort_Permutation|].
  unfold JSMap.values. rewrite map_map. apply Forall_map.
  assert (H : Forall usersWithinCount (groupRows rows)).
  { unfold groupRows.
    apply (fold_left_invariant accumulate (Forall usersWithinCount)); [constructor|].
    intros s r. apply accumulate_usersWithinCount. }
  eapply List.Forall_impl; [|exact H].
  intros [key group] Hg. exact Hg.
Qed.

Lemma get_erase (key : string) (crashMap : Spec.GhostMap) :
  JSMap.get key (Spec.erase crashMap) = fst <$> JSMap.get key crashMap.
Proof.
  induction crashMap as [|[k [g ms]] m IH]; simpl; [reflexivity|].
  destruct (String.eqb k key); [reflexivity | exact IH].
Qed.

Lemma set_erase (key : string) (group : Group.t) (members : list BigQueryCrashRow.t)
    (crashMap : Spec.GhostMap) :
  Spec.erase (JSMap.set key (group, members) crashMap)
  = JSMap.set key group (Spec.erase crashMap).
Proof.
  induction crashMap as [|[k [g ms]] m IH]; simpl; [reflexivity|].
  destruct (String.eqb k key); simpl; [reflexivity|]. now rewrite <- IH.
Qed.

Lemma erase_accumulateGhost (crashMap : Spec.GhostMap) (row : BigQueryCrashRow.t) :
  Spec.erase (Spec.accumulateGhost crashMap row) = accumulate (Spec.erase crashMap) row.
Proof.
  unfold Spec.accumulateGhost, accumulate. rewrite get_erase.
  destruct (JSMap.get (groupKey row) crashMap) as [[existing members]|]; simpl;
    apply set_erase.
Qed.

Lemma erase_groupRowsGhost (rows : list BigQueryCrashRow.t) :
  Spec.erase (Spec.groupRowsGhost rows) = groupRows rows.
Proof.
  unfold Spec.groupRowsGhost, groupRows.
  change (@nil (string * Group.t)) with (Spec.erase []).
  generalize (@nil (string * (Group.t * list BigQueryCrashRow.t))).
  induction rows as [|r rows IH]; intros m; simpl; [reflexivity|].
  now rewrite IH, erase_accumulateGhost.
Qed.

Lemma filter_snoc {A : Type} (P : A -> bool) (l : list A) (x : A) :
  List.filter P (l ++ [x]) = (List.filter P l ++ if P x then [x] else [])%list.
Proof. rewrite List.filter_app. reflexivity. Qed.

Lemma filter_none {A : Type} (P : A -> bool) (l : list A) :
  (forall x, In x l -> P x = false) -> List.filter P l = [].
Proof.
  induction l as [|x l IH]; simpl; intros H; [reflexivity|].
  rewrite (H x) by now left. apply IH. intros y Hy. apply H. now right.
Qed.

Lemma membersByKey_step (rows : list BigQueryCrashRow.t) (crashMap : Spec.GhostMap)
    (row : BigQueryCrashRow.t) :
  membersByKey rows crashMap ->
  membersByKey (rows ++ [row]) (Spec.accumulateGhost crashMap row).
Proof.
  intros (Hnd & Hmem & Hcov). unfold Spec.accumulateGhost.
  destruct (JSMap.get (groupKey row) crashMap) as [[existing members]|] eqn:E.
  - split; [now apply NoDup_keys_set|]. split.
    + intros key group ms Hin. apply In_set in Hin; [|exact Hnd].
      rewrite filter_snoc. destruct Hin as [[-> [= -> ->]]|[Hne Hin]].
      * rewrite String.eqb_refl. f_equal. apply (Hmem _ _ _ (get_In _ _ _ E)).
      * apply not_eq_sym, String.eqb_neq in Hne. rewrite Hne, app_nil_r. eauto.
    + intros r Hr. rewrite keys_set, E. apply in_app_or in Hr as [Hr|[<-|[]]]; auto.
      apply get_In in E. apply (in_map fst) in E. exact E.
  - pose proof E as Hnone. apply get_None in Hnone.
    split; [now apply NoDup_keys_set|]. split.
    + intros key group ms Hin. apply In_set in Hin; [|exact Hnd].
      rewrite filter_snoc. destruct Hin as [[-> [= -> ->]]|[Hne Hin]].
      * rewrite String.eqb_refl, filter_none; [reflexivity|].
        intros r Hr. apply String.eqb_neq. intros Heq.
        apply Hnone. rewrite <- Heq. now apply Hcov.
      * apply not_eq_sym, String.eqb_neq in Hne. rewrite Hne, app_nil_r. eauto.
    + intros r Hr. rewrite keys_set, E. apply in_or_app.
      apply in_app_or in Hr as [Hr|[<-|[]]]; [left; auto | right; now left].
Qed.

Lemma membersByKey_groupRowsGhost (rows : list BigQueryCrashRow.t) :
  membersByKey rows (Spec.groupRowsGhost rows).
Proof.
  induction rows as [|row rows IH] using rev_ind.
  - split; [constructor|]. split; intros; contradiction.
  - unfold Spec.groupRowsGhost in *. rewrite fold_left_app. simpl.
    now apply membersByKey_step.
Qed.

Lemma append_hyphen_inj (s1 s2 r1 r2 : string) :
  Spec.hyphenFree s1 = true -> Spec.hyphenFree s2 = true ->
  s1 +:+ "-" +:+ r1 = s2 +:+ "-" +:+ r2 -> s1 = s2 /\ r1 = r2.
Proof.
  revert s2. induction s1 as [|c s1 IH]; intros [|d s2]; simpl; intros H1 H2 Heq.
  - inversion Heq. auto.
  - inversion Heq; subst. discriminate.
  - inversion Heq; subst. discriminate.
  - apply andb_true_iff in H1 as [_ H1], H2 as [_ H2].
    inversion Heq as [[Hc Hs]]. destruct (IH _ H1 H2 Hs) as [-> ->]. auto.
Qed.

Lemma groupKey_triple (r1 r2 : BigQueryCrashRow.t) :
  Spec.triple r1 = Spec.triple r2 -> groupKey r1 = groupKey r2.
Proof. unfold Spec.triple, groupKey. intros [= -> -> ->]. reflexivity. Qed.

Lemma groupKey_inj (r1 r2 : BigQueryCrashRow.t) :
  Spec.hyphenFree (BigQueryCrashRow.exception_type r1) = true ->
  Spec.hyphenFree (BigQueryCrashRow.exception_message r1) = true ->
  Spec.hyphenFree (BigQueryCrashRow.exception_type r2) = true ->
  Spec.hyphenFree (BigQueryCrashRow.exception_message r2) = true ->
  groupKey r1 = groupKey r2 -> Spec.triple r1 = Spec.triple r2.
Proof.
  unfold groupKey, Spec.triple. intros Ht1 Hm1 Ht2 Hm2 Heq.
  apply append_hyphen_inj in Heq as [-> Heq]; [|assumption..].
  apply append_hyphen_inj in Heq as [-> ->]; [|assumption..]. reflexivity.
Qed.

(** C4, counterexample. Two rows whose triples differ, ("IOException",
    "timeout-read", "2.0") and ("IOException", "timeout", "read-2.0"),
    have the same key "IOException-timeout-read-2.0": they are
    accumulated into one group, and the result is a single summary with
    two occurrences. *)
Lemma hyphen_merges_distinct_triples :
  let r1 := rowOf "IOException" "timeout-read" "2.0" "u1" in
  let r2 := rowOf "IOException" "timeout" "read-2.0" "u2" in
  Spec.triple r1 <> Spec.triple r2
  /\ Spec.sameGroup (Spec.groupRowsGhost [r1; r2]) r1 r2
  /\ map CrashSummary.occurrences (processCrashRows (CrashProcessor.new None) [r1; r2])
     = [2].
Proof.
  split; [discriminate|]. split; [|reflexivity].
  eexists _, _, _. split; [left; reflexivity|]. split; [left|right; left]; reflexivity.
Qed.

(** C4, amended. Two rows of the input are accumulated into the same
    group if and only if their key strings, type-message-version joined
    by hyphens, are equal. Rows with equal triples are always in the same
    group; rows with different triples are in different groups whenever
    the exception types and messages of both hold no hyphen. The ghost
    map the statement reads the members from erases to the [crashMap] of
    the code. *)
Theorem rows_grouped_by_key (rows : list BigQueryCrashRow.t)
    (r1 r2 : BigQueryCrashRow.t) :
  In r1 rows -> In r2 rows ->
  let crashMap := Spec.groupRowsGhost rows in
  Spec.erase crashMap = groupRows rows
  /\ (Spec.sameGroup crashMap r1 r2 <-> groupKey r1 = groupKey r2)
  /\ (Spec.triple r1 = Spec.triple r2 -> Spec.sameGroup crashMap r1 r2)
  /\ (Spec.hyphenFree (BigQueryCrashRow.exception_type r1) = true ->
      Spec.hyphenFree (BigQueryCrashRow.exception_message r1) = true ->
      Spec.hyphenFree (BigQueryCrashRow.exception_type r2) = true ->
      Spec.hyphenFree (BigQueryCrashRow.exception_message r2) = true ->
      (Spec.sameGroup crashMap r1 r2 <-> Spec.triple r1 = Spec.triple r2)).
Proof.
  intros Hr1 Hr2 crashMap.
  destruct (membersByKey_groupRowsGhost rows) as (Hnd & Hmem & Hcov).
  fold crashMap in Hnd, Hmem, Hcov.
  assert (Hiff : Spec.sameGroup crashMap r1 r2 <-> groupKey r1 = groupKey r2).
  { split.
    - intros (key & group & members & Hin & H1 & H2).
      rewrite (Hmem _ _ _ Hin) in H1, H2.
      apply List.filter_In in H1 as [_ H1], H2 as [_ H2].
      apply String.eqb_eq in H1, H2. congruence.
    - intros Heq. pose proof (Hcov _ Hr1) as Hk.
      apply in_map_iff in Hk as ([key [group members]] & Hkey & Hin).
      simpl in Hkey. subst key. exists (groupKey r1), group, members.
      split; [exact Hin|]. rewrite (Hmem _ _ _ Hin).
      split; apply List.filter_In; split; auto; apply String.eqb_eq; auto. }
  split; [apply erase_groupRowsGhost|]. split; [exact Hiff|]. split.
  - intros Ht. apply Hiff. now apply groupKey_triple.
  - intros Ht1 Hm1 Ht2 Hm2. rewrite Hiff. split.
    + now apply groupKey_inj.
    + apply groupKey_triple.
Qed.

(** C4, witness: two rows of one triple and two users. *)
Lemma rows_grouped_by_key_witness :
  let r1 := rowOf "IOException" "timeout" "2.0" "u1" in
  let r2 := rowOf "IOException" "timeout" "2.0" "u2" in
  Spec.sameGroup (Spec.groupRowsGhost [r1; r2]) r1 r2.
Proof.
  intros r1 r2.
  destruct (rows_grouped_by_key [r1; r2] r1 r2) as (_ & _ & Hsame & _).
  - left. reflexivity.
  - right. left. reflexivity.
  - apply Hsame. reflexivity.
Defined.

Lemma sumN_app (l1 l2 : list N) : sumN (l1 ++ l2) = (sumN l1 + sumN l2)%N.
Proof. induction l1 as [|x l1 IH]; simpl; [reflexivity|]. rewrite IH. lia. Qed.

Lemma sumN_Permutation (l1 l2 : list N) : Permutation l1 l2 -> sumN l1 = sumN l2.
Proof. induction 1; simpl; lia. Qed.

Lemma sumN_firstn (n : nat) (l : list N) : (sumN (firstn n l) <= sumN l)%N.
Proof. rewrite <- (firstn_skipn n l) at 2. rewrite sumN_app. lia. Qed.

Lemma grandTotal_snoc (rows : list StatRow.t) (stat : StatRow.t) :
  Spec.grandTotal (rows ++ [stat])
  = (Spec.grandTotal rows + default 0 (StatRow.crash_count stat))%N.
Proof.
  unfold Spec.grandTotal. induction rows as [|r rows IH]; simpl; [lia|].
  rewrite IH. lia.
Qed.

Lemma labelTotal_snoc (label : string) (rows : list StatRow.t) (stat : StatRow.t) :
  Spec.labelTotal label (rows ++ [stat])
  = (Spec.labelTotal label rows
     + if String.eqb (Spec.deviceLabel stat) label
       then default 0 (StatRow.crash_count stat) else 0)%N.
Proof.
  unfold Spec.labelTotal. rewrite List.filter_app. simpl.
  destruct (String.eqb (Spec.deviceLabel stat) label).
  - apply grandTotal_snoc.
  - rewrite app_nil_r. lia.
Qed.

Lemma sum_values_set (key : string) (v : N) (m : JSMap.t N) :
  (sumN (JSMap.values (JSMap.set key v m)) + default 0 (JSMap.get key m)
   = sumN (JSMap.values m) + v)%N.
Proof.
  unfold JSMap.values. induction m as [|[k c] m IH]; simpl; [lia|].
  destruct (String.eqb k key); simpl; lia.
Qed.

Lemma labelTotal_absent (label : string) (rows : list StatRow.t) :
  (forall stat, In stat rows -> Spec.deviceLabel stat <> label) ->
  Spec.labelTotal label rows = 0%N.
Proof.
  intros H. unfold Spec.labelTotal.
  rewrite filter_none; [reflexivity|].
  intros stat Hin. apply String.eqb_neq. auto.
Qed.

Lemma deviceTotals_step (rows : list StatRow.t) (state : JSMap.t N * N)
    (stat : StatRow.t) :
  deviceTotals rows state -> deviceTotals (rows ++ [stat]) (countDevice state stat).
Proof.
  destruct state as [deviceMap totalCrashes].
  intros (Htot & Hsum & Hnd & Hlab & Hcov). simpl in *.
  unfold countDevice. fold (Spec.deviceLabel stat).
  set (device := Spec.deviceLabel stat).
  set (count := default 0%N (StatRow.crash_count stat)).
  assert (Hget : default 0%N (JSMap.get device deviceMap) = Spec.labelTotal device rows).
  { destruct (JSMap.get device deviceMap) as [c|] eqn:E; simpl.
    - apply Hlab. now apply get_In.
    - symmetry. apply labelTotal_absent. intros s Hs Heq.
      apply get_None in E. apply E. rewrite <- Heq. now apply Hcov. }
  repeat split; simpl.
  - rewrite grandTotal_snoc. fold count. lia.
  - pose proof (sum_values_set device
                  (default 0%N (JSMap.get device deviceMap) + count)%N deviceMap).
    lia.
  - now apply NoDup_keys_set.
  - intros label c Hin. apply In_set in Hin; [|exact Hnd].
    rewrite labelTotal_snoc. fold device count.
    destruct Hin as [[-> ->]|[Hne Hin]].
    + rewrite String.eqb_refl, Hget. reflexivity.
    + apply not_eq_sym, String.eqb_neq in Hne. rewrite Hne, N.add_0_r. auto.
  - intros s Hs. rewrite keys_set.
    apply in_app_or in Hs as [Hs|[<-|[]]].
    + destruct (JSMap.get device deviceMap); [|apply in_or_app; left]; auto.
    + destruct (JSMap.get device deviceMap) eqn:E.
      * apply get_In in E. apply (in_map fst) in E. exact E.
      * apply in_or_app. right. now left.
Qed.

Lemma deviceTotals_fold (rows : list StatRow.t) :
  deviceTotals rows (fold_left countDevice rows ([], 0%N)).
Proof.
  induction rows as [|stat rows IH] using rev_ind.
  - repeat split; simpl; try constructor; intros; contradiction.
  - rewrite fold_left_app. simpl. now apply deviceTotals_step.
Qed.

(** Every label of [deviceMap] is the label of a row. *)
Lemma deviceLabels_fold (rows : list StatRow.t) (label : string) :
  In label (JSMap.keys (fst (fold_left countDevice rows ([], 0%N)))) ->
  exists stat, In stat rows /\ Spec.deviceLabel stat = label.
Proof.
  induction rows as [|stat rows IH] using rev_ind; [intros []|].
  rewrite fold_left_app. simpl fold_left.
  destruct (fold_left countDevice rows ([], 0%N)) as [deviceMap totalCrashes].
  unfold countDevice. fold (Spec.deviceLabel stat). cbn [fst] in *.
  rewrite keys_set. intros Hin.
  assert (Hor : In label (JSMap.keys deviceMap) \/ label = Spec.deviceLabel stat).
  { destruct (JSMap.get (Spec.deviceLabel stat) deviceMap); [now left|].
    apply in_app_or in Hin as [Hin|[<-|[]]]; auto. }
  destruct Hor as [Hold| ->].
  - destruct (IH Hold) as (stat' & Hstat & Hlabel).
    exists stat'. split; [apply in_or_app; now left | exact Hlabel].
  - exists stat. split; [apply in_or_app; right; now left | reflexivity].
Qed.

(** ** Binary64 rounding

    The operations of [SpecFloat], which the primitive floats obey, round
    a mantissa by shifting it to its canonical exponent. The lemmas below
    bound the result of a rounding, a product and a quotient by the real
    number rounded, and show that the conversion of an integer below 2^53
    is exact. *)

Section Rounding.
Local Abbreviation pow2 := Number.pow2.

Lemma digits2_pos_bounds (p : positive) :
  2 ^ (Zpos (digits2_pos p) - 1) <= Zpos p < 2 ^ Zpos (digits2_pos p).
Proof.
  induction p as [p IH|p IH|]; simpl digits2_pos.
  - rewrite Pos2Z.inj_succ.
    replace (Z.succ (Zpos (digits2_pos p)) - 1)
      with (Z.succ (Zpos (digits2_pos p) - 1)) by lia.
    rewrite !Z.pow_succ_r by lia. lia.
  - rewrite Pos2Z.inj_succ.
    replace (Z.succ (Zpos (digits2_pos p)) - 1)
      with (Z.succ (Zpos (digits2_pos p) - 1)) by lia.
    rewrite !Z.pow_succ_r by lia. lia.
  - simpl. lia.
Qed.

Lemma shr_1_m (mrs : shr_record) :
  0 <= shr_m mrs -> shr_m (shr_1 mrs) = shr_m mrs / 2.
Proof.
  destruct mrs as [m r s]. simpl. intros Hm.
  destruct m as [|[p|p|]|p]; simpl shr_m; try lia.
  - reflexivity.
  - apply Z.div_unique with (r := 1); lia.
  - apply Z.div_unique with (r := 0); lia.
  - reflexivity.
Qed.

Lemma iter_pos_shr_1 (p : positive) (mrs : shr_record) :
  0 <= shr_m mrs ->
  shr_m (SpecFloat.iter_pos shr_1 p mrs) = shr_m mrs / 2 ^ Zpos p.
Proof.
  revert mrs. induction p as [p IH|p IH|]; intros mrs Hm; simpl SpecFloat.iter_pos.
  - assert (H1 : 0 <= shr_m (shr_1 mrs)).
    { rewrite shr_1_m by exact Hm. apply Z.div_pos; lia. }
    assert (H2 : 0 <= shr_m (SpecFloat.iter_pos shr_1 p (shr_1 mrs))).
    { rewrite IH by exact H1. apply Z.div_pos; [exact H1|]. apply Z.pow_pos_nonneg; lia. }
    rewrite IH by exact H2. rewrite IH by exact H1. rewrite shr_1_m by exact Hm.
    assert (Hp : 0 < 2 ^ Zpos p) by (apply Z.pow_pos_nonneg; lia).
    rewrite !Z.div_div by lia.
    f_equal.
    replace (Zpos p~1) with (1 + Zpos p + Zpos p) by lia.
    rewrite !Z.pow_add_r by lia. lia.
  - assert (H2 : 0 <= shr_m (SpecFloat.iter_pos shr_1 p mrs)).
    { rewrite IH by exact Hm. apply Z.div_pos; [exact Hm|]. apply Z.pow_pos_nonneg; lia. }
    rewrite IH by exact H2. rewrite IH by exact Hm.
    assert (Hp : 0 < 2 ^ Zpos p) by (apply Z.pow_pos_nonneg; lia).
    rewrite !Z.div_div by lia.
    f_equal.
    replace (Zpos p~0) with (Zpos p + Zpos p) by lia.
    rewrite !Z.pow_add_r by lia. lia.
  - rewrite shr_1_m by exact Hm. reflexivity.
Qed.

Lemma shr_fexp_spec (m e : Z) (l : location) :
  0 <= m ->
  let k := Z.max (fexp prec emax (Zdigits2 m + e) - e) 0 in
  shr_m (fst (shr_fexp prec emax m e l)) = m / 2 ^ k
  /\ snd (shr_fexp prec emax m e l) = e + k.
Proof.
  intros Hm k. unfold shr_fexp, shr.
  assert (Hrec : shr_m (shr_record_of_loc m l) = m) by (destruct l as [|[]]; reflexivity).
  subst k. destruct (fexp prec emax (Zdigits2 m + e) - e) as [|p|p] eqn:E.
  - simpl. rewrite Z.div_1_r. split; [exact Hrec | lia].
  - cbn [fst snd]. rewrite iter_pos_shr_1 by (rewrite Hrec; exact Hm).
    rewrite Hrec. rewrite Z.max_l by lia. split; reflexivity.
  - cbn [fst snd]. rewrite Z.max_r by lia. simpl. rewrite Z.div_1_r.
    split; [exact Hrec | lia].
Qed.

Lemma round_nearest_even_bounds (m : Z) (l : location) :
  m <= round_nearest_even m l <= m + 1.
Proof. destruct l as [|[]]; simpl; try destruct (Z.even m); lia. Qed.

(** The shape of a rounded result: the mantissa shifted, moved up by at
    most one, and shifted again. *)
Lemma binary_round_aux_shape (s : bool) (m e : Z) (l : location) :
  0 <= m ->
  exists m2 : Z,
    let k1 := Z.max (fexp prec emax (Zdigits2 m + e) - e) 0 in
    let e1 := e + k1 in
    let k2 := Z.max (fexp prec emax (Zdigits2 m2 + e1) - e1) 0 in
    let e3 := e1 + k2 in
    m / 2 ^ k1 <= m2 <= m / 2 ^ k1 + 1
    /\ binary_round_aux prec emax s m e l
       = match m2 / 2 ^ k2 with
         | Z0 => S754_zero s
         | Zpos p => if e3 <=? emax - prec then S754_finite s p e3 else S754_infinity s
         | Zneg _ => S754_nan
         end.
Proof.
  intros Hm. unfold binary_round_aux.
  pose proof (shr_fexp_spec m e l Hm) as H1. cbv zeta in H1.
  destruct (shr_fexp prec emax m e l) as [mrs1 e1]. cbn [fst snd] in H1.
  destruct H1 as [Hm1 He1].
  set (m2 := round_nearest_even (shr_m mrs1) (loc_of_shr_record mrs1)).
  pose proof (round_nearest_even_bounds (shr_m mrs1) (loc_of_shr_record mrs1)) as Hb.
  fold m2 in Hb.
  assert (H0 : 0 <= shr_m mrs1).
  { rewrite Hm1. apply Z.div_pos; [exact Hm|]. apply Z.pow_pos_nonneg; lia. }
  assert (Hm2 : 0 <= m2) by lia.
  pose proof (shr_fexp_spec m2 e1 loc_Exact Hm2) as H2. cbv zeta in H2.
  destruct (shr_fexp prec emax m2 e1 loc_Exact) as [mrs2 e2]. cbn [fst snd] in H2.
  destruct H2 as [Hm3 He3].
  exists m2. cbv zeta. rewrite <- He1, <- Hm1. split; [exact Hb|].
  rewrite Hm3, He3. reflexivity.
Qed.


Lemma pow2_pos (e : Z) : (0 < pow2 e)%Q.
Proof. apply Qpower_0_lt. reflexivity. Qed.

Lemma pow2_add (a b : Z) : (pow2 (a + b) == pow2 a * pow2 b)%Q.
Proof. apply Qpower_plus. discriminate. Qed.

Lemma pow2_le (a b : Z) : a <= b -> (pow2 a <= pow2 b)%Q.
Proof. intros H. apply Qpower_le_compat_l; [exact H | discriminate]. Qed.

Lemma pow2_lt_inv (a b : Z) : (pow2 a < pow2 b)%Q -> a < b.
Proof. intros H. apply (Qpower_lt_compat_l_inv 2); [exact H | reflexivity]. Qed.

Lemma pow2_Z (k : Z) : 0 <= k -> (inject_Z (2 ^ k) == pow2 k)%Q.
Proof. intros H. apply (Zpower_Qpower 2 k H). Qed.

Lemma Zdigits2_lower (m : Z) : 0 < m -> 2 ^ (Zdigits2 m - 1) <= m.
Proof. destruct m as [|p|p]; try lia. intros _. apply digits2_pos_bounds. Qed.

Lemma Zdigits2_upper (m : Z) : 0 <= m -> m < 2 ^ Zdigits2 m.
Proof.
  destruct m as [|p|p]; try lia; intros _; [reflexivity|]. apply digits2_pos_bounds.
Qed.

Lemma Zdigits2_nonneg (m : Z) : 0 <= Zdigits2 m.
Proof. destruct m; simpl; lia. Qed.

(** A mantissa below [2^B] at exponent [e] has at most [B - e] digits. *)
Lemma digits_le (m e B : Z) :
  0 <= m -> e <= B -> (inject_Z m * pow2 e < pow2 B)%Q -> Zdigits2 m + e <= B.
Proof.
  intros Hm He Hlt. destruct (Z.eq_dec m 0) as [->|Hne]; [simpl; lia|].
  assert (Hlow : 2 ^ (Zdigits2 m - 1) <= m) by (apply Zdigits2_lower; lia).
  assert (Hd : 0 <= Zdigits2 m - 1).
  { destruct m as [|p|p]; try lia. simpl. lia. }
  rewrite Zle_Qle, (pow2_Z _ Hd) in Hlow.
  assert (H : (pow2 (Zdigits2 m - 1 + e) < pow2 B)%Q).
  { rewrite pow2_add. eapply Qle_lt_trans; [|exact Hlt].
    apply Qmult_le_compat_r; [exact Hlow|]. apply Qlt_le_weak, pow2_pos. }
  apply pow2_lt_inv in H. lia.
Qed.

Lemma fexp_le (z B E : Z) :
  z <= B + 1 -> B - 52 <= E -> -1074 <= E -> fexp prec emax z <= E.
Proof. unfold fexp, emin, prec, emax. lia. Qed.

(** Shifting the mantissa keeps the interval of the Number.real. *)
Lemma shift_interval (m e k : Z) (x : Q) :
  0 <= m -> 0 <= k ->
  (inject_Z m * pow2 e <= x)%Q -> (x < inject_Z (m + 1) * pow2 e)%Q ->
  (inject_Z (m / 2 ^ k) * pow2 (e + k) <= x)%Q
  /\ (x < inject_Z (m / 2 ^ k + 1) * pow2 (e + k))%Q.
Proof.
  intros Hm Hk Hlo Hhi.
  assert (Hp : 0 < 2 ^ k) by (apply Z.pow_pos_nonneg; lia).
  pose proof (Z.div_mod m (2 ^ k) ltac:(lia)) as Hdm.
  pose proof (Z.mod_pos_bound m (2 ^ k) Hp) as Hmod.
  set (q := m / 2 ^ k) in *.
  assert (H1 : q * 2 ^ k <= m) by lia.
  assert (H2 : m + 1 <= (q + 1) * 2 ^ k) by lia.
  rewrite Zle_Qle, inject_Z_mult, (pow2_Z _ Hk) in H1, H2.
  pose proof (pow2_pos e) as He.
  replace (e + k) with (k + e) by lia.
  split.
  - eapply Qle_trans; [|exact Hlo].
    rewrite (pow2_add k e).
    rewrite Qmult_assoc. apply Qmult_le_compat_r; [exact H1 | now apply Qlt_le_weak].
  - eapply Qlt_le_trans; [exact Hhi|].
    rewrite (pow2_add k e).
    rewrite Qmult_assoc. apply Qmult_le_compat_r; [exact H2 | now apply Qlt_le_weak].
Qed.


Lemma binary_round_aux_approx (s : bool) (m e : Z) (l : location) (x : Q) (B E : Z) :
  0 <= m ->
  (inject_Z m * pow2 e <= x)%Q -> (x < inject_Z (m + 1) * pow2 e)%Q ->
  (x < pow2 B)%Q -> e <= E -> B - 52 <= E -> -1074 <= E -> E <= B -> E <= 971 ->
  Spec.rounds_to (binary_round_aux prec emax s m e l) s x E.
Proof.
  intros Hm Hlo Hhi HB He HBE Hmin HEB Hmax.
  destruct (binary_round_aux_shape s m e l Hm) as (m2 & Hb & ->). cbv zeta in Hb.
  cbv zeta.
  set (k1 := Z.max (fexp prec emax (Zdigits2 m + e) - e) 0) in *.
  set (e1 := e + k1).
  set (k2 := Z.max (fexp prec emax (Zdigits2 m2 + e1) - e1) 0).
  set (e3 := e1 + k2).
  set (m1 := m / 2 ^ k1) in *.
  assert (Hk1 : 0 <= k1) by apply Z.le_max_r.
  assert (Hk2 : 0 <= k2) by apply Z.le_max_r.
  destruct (shift_interval m e k1 x Hm Hk1 Hlo Hhi) as [H1lo H1hi].
  fold m1 e1 in H1lo, H1hi.
  assert (Hm1 : 0 <= m1).
  { subst m1. apply Z.div_pos; [exact Hm|]. apply Z.pow_pos_nonneg; lia. }
  assert (Hm2 : 0 <= m2) by lia.
  assert (He1 : e1 <= E).
  { assert (Hd : Zdigits2 m + e <= B).
    { apply digits_le; [exact Hm | lia |]. eapply Qle_lt_trans; [exact Hlo | exact HB]. }
    pose proof (fexp_le (Zdigits2 m + e) B E ltac:(lia) HBE Hmin). subst e1 k1. lia. }
  pose proof (pow2_pos e1) as HP1.
  pose proof (pow2_le e1 B ltac:(lia)) as HP1B.
  assert (HB1 : (pow2 (B + 1) == pow2 B * 2)%Q) by (rewrite pow2_add; reflexivity).
  assert (Hb1 : (inject_Z m1 <= inject_Z m2)%Q) by (rewrite <- Zle_Qle; lia).
  assert (Hb2 : (inject_Z m2 <= inject_Z m1 + 1)%Q).
  { change 1%Q with (inject_Z 1). rewrite <- inject_Z_plus, <- Zle_Qle. lia. }
  rewrite inject_Z_plus in H1hi. change (inject_Z 1) with 1%Q in H1hi.
  assert (Hprod1 : (0 <= (inject_Z m2 - inject_Z m1) * pow2 e1)%Q).
  { apply Qmult_le_0_compat; lra. }
  assert (Hprod2 : (0 <= (inject_Z m1 + 1 - inject_Z m2) * pow2 e1)%Q).
  { apply Qmult_le_0_compat; lra. }
  assert (He3 : e3 <= E).
  { assert (Hd : Zdigits2 m2 + e1 <= B + 1).
    { apply digits_le; [exact Hm2 | lia |]. rewrite HB1. lra. }
    pose proof (fexp_le (Zdigits2 m2 + e1) B E Hd HBE Hmin). subst e3 k2. lia. }
  assert (Hp : 0 < 2 ^ k2) by (apply Z.pow_pos_nonneg; lia).
  pose proof (Z.div_mod m2 (2 ^ k2) ltac:(lia)) as Hdm.
  pose proof (Z.mod_pos_bound m2 (2 ^ k2) Hp) as Hmod.
  set (m3 := m2 / 2 ^ k2) in *.
  assert (H3a : m3 * 2 ^ k2 <= m2) by lia.
  assert (H3b : m2 + 1 <= (m3 + 1) * 2 ^ k2) by lia.
  assert (Hm3 : 0 <= m3).
  { subst m3. apply Z.div_pos; [exact Hm2 | exact Hp]. }
  rewrite Zle_Qle, inject_Z_mult, (pow2_Z _ Hk2) in H3a, H3b.
  rewrite !inject_Z_plus in H3b. change (inject_Z 1) with 1%Q in H3b.
  assert (HP3 : (pow2 e3 == pow2 e1 * pow2 k2)%Q) by apply pow2_add.
  assert (Hprod3 : (0 <= (inject_Z m2 - inject_Z m3 * pow2 k2) * pow2 e1)%Q).
  { apply Qmult_le_0_compat; lra. }
  assert (Hprod4 : (0 <= ((inject_Z m3 + 1) * pow2 k2 - (inject_Z m2 + 1)) * pow2 e1)%Q).
  { apply Qmult_le_0_compat; lra. }
  pose proof (pow2_le e1 E He1) as HPE1. pose proof (pow2_le e3 E He3) as HPE3.
  assert (Happrox : (Qabs (inject_Z m3 * pow2 e3 - x) <= 2 * pow2 E)%Q).
  { apply Qabs_Qle_condition. rewrite HP3.
    set (a := inject_Z m1) in *. set (b := inject_Z m2) in *.
    set (c := inject_Z m3) in *. set (p1 := pow2 e1) in *.
    set (k := pow2 k2) in *. set (pe := pow2 E) in *. set (p3 := pow2 e3) in *.
    split; lra. }
  destruct m3 as [|p|p]; [| |lia].
  - simpl. split; [reflexivity|].
    apply Qabs_Qle_condition in Happrox. change (inject_Z 0) with 0%Q in Happrox. lra.
  - assert (Hle : (e3 <=? emax - prec) = true).
    { apply Z.leb_le. unfold emax, prec. lia. }
    rewrite Hle. simpl. repeat split; auto.
Qed.


Lemma SFmul_approx (sx : bool) (mx : positive) (ex : Z) (sy : bool) (my : positive)
    (ey : Z) (x : Q) (B E : Z) :
  (x == inject_Z (Zpos mx) * pow2 ex * (inject_Z (Zpos my) * pow2 ey))%Q ->
  (x < pow2 B)%Q -> ex + ey <= E -> B - 52 <= E -> -1074 <= E -> E <= B -> E <= 971 ->
  Spec.rounds_to (SFmul prec emax (S754_finite sx mx ex) (S754_finite sy my ey))
    (xorb sx sy) x E.
Proof.
  intros Hx HB He HBE Hmin HEB Hmax. unfold SFmul.
  assert (Hv : (inject_Z (Zpos (mx * my)) * pow2 (ex + ey) == x)%Q).
  { rewrite Hx, Pos2Z.inj_mul, inject_Z_mult, pow2_add. ring. }
  pose proof (pow2_pos (ex + ey)) as Hp.
  apply binary_round_aux_approx with (B := B); try assumption; try lia.
  - rewrite Hv. apply Qle_refl.
  - rewrite inject_Z_plus. change (inject_Z 1) with 1%Q. lra.
Qed.

Lemma SFdiv_approx (sx : bool) (mx : positive) (ex : Z) (sy : bool) (my : positive)
    (ey : Z) (x : Q) (B E : Z) :
  (x * (inject_Z (Zpos my) * pow2 ey) == inject_Z (Zpos mx) * pow2 ex)%Q ->
  (x < pow2 B)%Q -> B - 52 <= E -> -1074 <= E -> E <= B -> E <= 971 ->
  Spec.rounds_to (SFdiv prec emax (S754_finite sx mx ex) (S754_finite sy my ey))
    (xorb sx sy) x E.
Proof.
  intros Hx HB HBE Hmin HEB Hmax. unfold SFdiv, SFdiv_core_binary. cbv zeta.
  set (d1 := Zdigits2 (Zpos mx)). set (d2 := Zdigits2 (Zpos my)).
  set (e' := Z.min (fexp prec emax (d1 + ex - (d2 + ey))) (ex - ey)).
  set (s := ex - ey - e').
  assert (Hs : 0 <= s) by (subst s e'; lia).
  set (m' := match s with
             | Z0 => Zpos mx
             | Zpos _ => Z.shiftl (Zpos mx) s
             | Zneg _ => 0
             end).
  assert (Hm' : m' = Zpos mx * 2 ^ s).
  { subst m'. destruct s as [|p|p] eqn:Es; [lia | | lia].
    rewrite Z.shiftl_mul_pow2 by lia. reflexivity. }
  assert (Hpos : 0 < 2 ^ s) by (apply Z.pow_pos_nonneg; lia).
  pose proof (Z.div_mod m' (Zpos my) ltac:(lia)) as Hdm.
  pose proof (Z.mod_pos_bound m' (Zpos my) ltac:(lia)) as Hmod.
  assert (Hq : Z.div_eucl m' (Zpos my) = (m' / Zpos my, m' mod Zpos my)).
  { unfold Z.div, Z.modulo. destruct (Z.div_eucl m' (Zpos my)). reflexivity. }
  rewrite Hq. set (q := m' / Zpos my) in *.
  pose proof (pow2_pos ex) as Hpex. pose proof (pow2_pos ey) as Hpey.
  pose proof (pow2_pos e') as Hpe'. pose proof (pow2_pos B) as HpB.
  assert (Hy : (0 < inject_Z (Zpos my))%Q).
  { change 0%Q with (inject_Z 0). rewrite <- Zlt_Qlt. lia. }
  assert (Hmx : (0 < inject_Z (Zpos mx))%Q).
  { change 0%Q with (inject_Z 0). rewrite <- Zlt_Qlt. lia. }
  assert (Hq0 : 0 <= q).
  { subst q. apply Z.div_pos; lia. }
  (* x * my = m' * 2^e' *)
  assert (Hxy : (x * inject_Z (Zpos my) == inject_Z m' * pow2 e')%Q).
  { apply (Qmult_inj_r _ _ (pow2 ey)); [lra|].
    rewrite <- Qmult_assoc, Hx, Hm', inject_Z_mult, (pow2_Z _ Hs).
    replace ex with (s + e' + ey) at 1 by (subst s; lia).
    rewrite !pow2_add. ring. }
  assert (H1 : q * Zpos my <= m') by lia.
  assert (H2 : m' + 1 <= (q + 1) * Zpos my) by lia.
  rewrite Zle_Qle, inject_Z_mult in H1, H2.
  rewrite !inject_Z_plus in H2. change (inject_Z 1) with 1%Q in H2.
  assert (Hp1 : (0 <= (inject_Z m' - inject_Z q * inject_Z (Zpos my)) * pow2 e')%Q).
  { apply Qmult_le_0_compat; lra. }
  assert (Hp2 : (0 < ((inject_Z q + 1) * inject_Z (Zpos my) - inject_Z m') * pow2 e')%Q).
  { apply Qmult_lt_0_compat; lra. }
  assert (He' : e' <= E).
  { assert (Hd : d1 + ex - (d2 + ey) <= B).
    { pose proof (Zdigits2_lower (Zpos mx) ltac:(lia)) as Hl.
      pose proof (Zdigits2_upper (Zpos my) ltac:(lia)) as Hu.
      fold d1 in Hl. fold d2 in Hu.
      assert (Hd1 : 0 <= d1 - 1) by (subst d1; simpl; lia).
      assert (Hd2 : 0 <= d2) by (subst d2; simpl; lia).
      apply Z.lt_le_incl in Hu.
      rewrite Zle_Qle, (pow2_Z _ Hd1) in Hl. rewrite Zle_Qle, (pow2_Z _ Hd2) in Hu.
      assert (H : (pow2 (d1 - 1 + ex) < pow2 (B + d2 + ey))%Q).
      { rewrite !pow2_add.
        assert (Ha : (pow2 (d1 - 1) * pow2 ex <= inject_Z (Zpos mx) * pow2 ex)%Q).
        { apply Qmult_le_compat_r; lra. }
        assert (Hb : (inject_Z (Zpos my) * pow2 ey <= pow2 d2 * pow2 ey)%Q).
        { apply Qmult_le_compat_r; lra. }
        assert (Hc : (0 < (pow2 B - x) * (inject_Z (Zpos my) * pow2 ey))%Q).
        { apply Qmult_lt_0_compat; [lra|]. apply Qmult_lt_0_compat; lra. }
        assert (Hd' : (0 <= pow2 B * (pow2 d2 * pow2 ey - inject_Z (Zpos my) * pow2 ey))%Q).
        { apply Qmult_le_0_compat; lra. }
        set (vx := (inject_Z (Zpos mx) * pow2 ex)%Q) in *.
        set (vy := (inject_Z (Zpos my) * pow2 ey)%Q) in *.
        lra. }
      apply pow2_lt_inv in H. lia. }
    pose proof (fexp_le (d1 + ex - (d2 + ey)) B E ltac:(lia) HBE Hmin). subst e'. lia. }
  apply binary_round_aux_approx with (B := B); try assumption.
  - apply (Qmult_le_r _ _ (inject_Z (Zpos my))); [exact Hy|]. rewrite Hxy. lra.
  - apply (Qmult_lt_r _ _ (inject_Z (Zpos my))); [exact Hy|]. rewrite Hxy.
    rewrite inject_Z_plus. change (inject_Z 1) with 1%Q. lra.
Qed.


Lemma digits2_pos_iter_xO (p k : positive) :
  digits2_pos (Pos.iter xO p k) = (digits2_pos p + k)%positive.
Proof.
  induction k as [|k IH] using Pos.peano_ind.
  - simpl. lia.
  - rewrite Pos.iter_succ. simpl. rewrite IH. lia.
Qed.

Lemma Zpos_iter_xO (p k : positive) : Zpos (Pos.iter xO p k) = Zpos p * 2 ^ Zpos k.
Proof.
  induction k as [|k IH] using Pos.peano_ind.
  - simpl. lia.
  - rewrite Pos.iter_succ, Pos2Z.inj_xO, IH, Pos2Z.inj_succ, Z.pow_succ_r by lia. lia.
Qed.

(** A mantissa that stands at its canonical exponent is not rounded. *)
Lemma canonical_round (s : bool) (m : positive) (e : Z) :
  fexp prec emax (Zpos (digits2_pos m) + e) = e -> e <= 971 ->
  binary_round_aux prec emax s (Zpos m) e loc_Exact = S754_finite s m e.
Proof.
  intros Hc He. unfold binary_round_aux, shr_fexp. simpl Zdigits2.
  rewrite Hc, Z.sub_diag. simpl. rewrite Hc, Z.sub_diag. simpl.
  assert (Hle : (e <=? emax - prec) = true) by (apply Z.leb_le; unfold emax, prec; lia).
  now rewrite Hle.
Qed.

(** [Number(z)] for a positive integer below 2^53: a mantissa of 53 bits
    at the exponent that makes it [z]. *)
Lemma Prim2SF_of_Z_normal (z : Z) :
  0 < z < 2 ^ 53 ->
  exists m e,
    Prim2SF (Number.of_Z z) = S754_finite false m e
    /\ (inject_Z (Zpos m) * pow2 e == inject_Z z)%Q
    /\ Zpos (digits2_pos m) = 53
    /\ -52 <= e <= 0
    /\ 2 ^ (e + 52) <= z < 2 ^ (e + 53).
Proof.
  intros [Hpos Hlt]. destruct z as [|p|p]; try lia.
  unfold Number.of_Z, binary_normalize, binary_round.
  pose proof (digits2_pos_bounds p) as [Hlow Hupp].
  set (d := Zpos (digits2_pos p)) in *.
  assert (Hd : 1 <= d <= 53).
  { split; [subst d; lia|].
    destruct (Z_lt_le_dec 53 d) as [Hgt|]; [|assumption].
    assert (2 ^ 53 <= 2 ^ (d - 1)) by (apply Z.pow_le_mono_r; lia). lia. }
  assert (Hf : fexp prec emax (d + 0) = d - 53).
  { unfold fexp, emin, prec, emax. lia. }
  rewrite Hf. unfold shl_align.
  destruct (d - 53 - 0) as [|k|k] eqn:Ek.
  - assert (Hc : fexp prec emax (Zpos (digits2_pos p) + 0) = 0) by (fold d; lia).
    rewrite (canonical_round false p 0 Hc ltac:(lia)).
    exists p, 0. split; [|split; [|split; [|split]]].
    + apply Prim2SF_SF2Prim. simpl. unfold bounded, canonical_mantissa.
      rewrite Hc. reflexivity.
    + change (pow2 0) with 1%Q. ring.
    + fold d. lia.
    + lia.
    + replace (0 + 52) with (d - 1) by lia. replace (0 + 53) with d by lia. lia.
  - lia.
  - assert (Hk : Zpos k = 53 - d) by lia.
    assert (Hdig : Zpos (digits2_pos (Pos.iter xO p k)) = 53).
    { rewrite digits2_pos_iter_xO, Pos2Z.inj_add. fold d. lia. }
    assert (Hc : fexp prec emax (Zpos (digits2_pos (Pos.iter xO p k)) + (d - 53))
                 = d - 53).
    { rewrite Hdig. unfold fexp, emin, prec, emax. lia. }
    rewrite (canonical_round false _ _ Hc ltac:(lia)).
    exists (Pos.iter xO p k), (d - 53). split; [|split; [|split; [|split]]].
    + apply Prim2SF_SF2Prim. simpl. unfold bounded, canonical_mantissa.
      rewrite Hc, Z.eqb_refl. simpl. apply Z.leb_le. unfold emax, prec. lia.
    + rewrite Zpos_iter_xO, inject_Z_mult, (pow2_Z (Zpos k)) by lia.
      rewrite <- Qmult_assoc, <- pow2_add.
      replace (Zpos k + (d - 53)) with 0 by lia. change (pow2 0) with 1%Q. ring.
    + exact Hdig.
    + lia.
    + replace (d - 53 + 52) with (d - 1) by lia. replace (d - 53 + 53) with d by lia.
      lia.
Qed.

(** [Number(z)] is exact for a positive integer below 2^53. *)
Lemma Prim2SF_of_Z (z : Z) :
  0 < z < 2 ^ 53 ->
  exists m e,
    Prim2SF (Number.of_Z z) = S754_finite false m e
    /\ (inject_Z (Zpos m) * pow2 e == inject_Z z)%Q.
Proof.
  intros H. destruct (Prim2SF_of_Z_normal z H) as (m & e & Hp & Hv & _). eauto.
Qed.

Lemma rounds_to_near (r : spec_float) (x err : Q) (E : Z) :
  Spec.rounds_to r false x E -> (0 <= x)%Q -> (2 * pow2 E <= err)%Q ->
  Spec.near r x err.
Proof.
  destruct r as [s|s| |s m e]; cbn [Spec.rounds_to Spec.near]; try tauto.
  - intros [-> Hx] H0 He. split; [reflexivity|].
    apply Qabs_Qle_condition. cbn [Number.SFreal]. split; lra.
  - intros (-> & _ & Hx) H0 He. split; [reflexivity|].
    cbn [Number.SFreal cond_Zopp]. lra.
Qed.

Lemma quotient_rounds (c T : Z) :
  0 <= c <= T -> 0 < T < 2 ^ 53 ->
  Spec.rounds_to (Prim2SF (Number.of_Z c / Number.of_Z T)) false
    (inject_Z c / inject_Z T) (-51).
Proof.
  intros [Hc HcT] [HT0 HT].
  assert (HTq : (0 < inject_Z T)%Q).
  { change 0%Q with (inject_Z 0). rewrite <- Zlt_Qlt. lia. }
  destruct (Prim2SF_of_Z T ltac:(lia)) as (mT & eT & HpT & HvT).
  rewrite div_spec, HpT. unfold SF64div.
  destruct (Z.eq_dec c 0) as [->|Hne].
  - change (Prim2SF (Number.of_Z 0)) with (S754_zero false).
    cbn [SFdiv Spec.rounds_to xorb].
    split; [reflexivity|]. unfold Qdiv. rewrite Qmult_0_l.
    apply Qlt_le_weak. apply Qmult_lt_0_compat; [reflexivity | apply pow2_pos].
  - destruct (Prim2SF_of_Z c ltac:(lia)) as (mc & ec & Hpc & Hvc).
    rewrite Hpc.
    assert (Hle : (inject_Z c <= inject_Z T)%Q) by (rewrite <- Zle_Qle; lia).
    apply (SFdiv_approx false mc ec false mT eT _ 1 (-51)); try lia.
    + rewrite HvT, Hvc. field. lra.
    + apply Qlt_shift_div_r; [exact HTq|]. change (pow2 1) with 2%Q. lra.
Qed.

Lemma Prim2SF_10000 : Prim2SF 10000 = S754_finite false 5497558138880000 (-39).
Proof. reflexivity. Qed.

Lemma Prim2SF_100 : Prim2SF 100 = S754_finite false 7036874417766400 (-46).
Proof. reflexivity. Qed.

Lemma scaled_near (q : float) (x : Q) :
  Spec.rounds_to (Prim2SF q) false x (-51) -> (0 <= x <= 1)%Q ->
  Spec.near (Prim2SF (q * 10000)) (x * inject_Z 10000) (1 # 10000000000).
Proof.
  intros Hq [Hx0 Hx1]. rewrite mul_spec, Prim2SF_10000. unfold SF64mul.
  assert (Hp51 : (pow2 (-51) == 1 # 2251799813685248)%Q) by reflexivity.
  assert (Hp38 : (pow2 (-38) == 1 # 274877906944)%Q) by reflexivity.
  change (inject_Z 10000) with 10000%Q.
  destruct (Prim2SF q) as [s|s| |s m e]; cbn [Spec.rounds_to] in Hq; try tauto.
  - destruct Hq as [-> Hq]. cbn [SFmul Spec.near xorb Number.SFreal].
    split; [reflexivity|].
    apply Qabs_Qle_condition. split; lra.
  - destruct Hq as (-> & He & Hq). apply Qabs_Qle_condition in Hq.
    set (v := (inject_Z (Zpos m) * pow2 e)%Q) in *.
    assert (Hk : (inject_Z 5497558138880000 * pow2 (-39) == 10000)%Q) by reflexivity.
    assert (Hr : Spec.rounds_to
                   (SFmul prec emax (S754_finite false m e)
                      (S754_finite false 5497558138880000 (-39)))
                   false (v * 10000) (-38)).
    { apply (SFmul_approx false m e false 5497558138880000 (-39) _ 14 (-38)); try lia.
      - subst v. rewrite Hk. reflexivity.
      - change (pow2 14) with 16384%Q. lra. }
    destruct (SFmul prec emax _ _) as [s'|s'| |s' m' e']; cbn [Spec.rounds_to] in Hr;
      try tauto.
    + destruct Hr as [-> Hr]. split; [reflexivity|].
      apply Qabs_Qle_condition. cbn [Number.SFreal]. split; lra.
    + destruct Hr as (-> & _ & Hr). apply Qabs_Qle_condition in Hr.
      split; [reflexivity|]. apply Qabs_Qle_condition. cbn [Number.SFreal cond_Zopp].
      split; lra.
Qed.

Lemma round_near (p : float) (y err : Q) :
  Spec.near (Prim2SF p) y err ->
  exists h : Z,
    Number.round p = Number.of_Z h /\ 0 <= h
    /\ (Qabs (inject_Z h - y) <= (1 # 2) + err)%Q.
Proof.
  unfold Number.round. intros Hp.
  destruct (Prim2SF p) as [s|s| |s m e] eqn:Ep; cbn [Spec.near] in Hp; try tauto.
  - destruct Hp as [-> Hp]. exists 0. split; [|split; [lia|]].
    + apply Prim2SF_inj. rewrite Ep. reflexivity.
    + apply Qabs_Qle_condition in Hp. apply Qabs_Qle_condition.
      cbn [Number.SFreal] in Hp. change (inject_Z 0) with 0%Q. split; lra.
  - destruct Hp as [-> Hp]. apply Qabs_Qle_condition in Hp.
    set (v := Number.SFreal (S754_finite false m e)) in *.
    assert (Hv : (0 <= v)%Q).
    { subst v. cbn [Number.SFreal cond_Zopp]. apply Qmult_le_0_compat.
      - change 0%Q with (inject_Z 0). rewrite <- Zle_Qle. lia.
      - apply Qlt_le_weak, pow2_pos. }
    set (z := Qfloor (v + (1 # 2))).
    pose proof (Qfloor_le (v + (1 # 2))) as Hlo.
    pose proof (Qlt_floor (v + (1 # 2))) as Hhi.
    fold z in Hlo, Hhi. rewrite inject_Z_plus in Hhi. change (inject_Z 1) with 1%Q in Hhi.
    assert (Hz : 0 <= z).
    { subst z. change 0 with (Qfloor 0). apply Qfloor_resp_le. lra. }
    exists z. split; [|split; [exact Hz|]].
    + destruct (Z.eqb_spec z 0) as [->|_]; reflexivity.
    + apply Qabs_Qle_condition. split; lra.
Qed.

Lemma hundredths_near (h : Z) :
  0 <= h <= 10001 ->
  Spec.near (Prim2SF (Number.of_Z h / 100)) (inject_Z h / inject_Z 100)
    (1 # 1000000000000).
Proof.
  intros [H0 H1]. rewrite div_spec, Prim2SF_100. unfold SF64div.
  change (inject_Z 100) with 100%Q.
  destruct (Z.eq_dec h 0) as [->|Hne].
  - change (Prim2SF (Number.of_Z 0)) with (S754_zero false).
    cbn [SFdiv Spec.near xorb Number.SFreal].
    split; [reflexivity|]. apply Qle_bool_imp_le. reflexivity.
  - destruct (Prim2SF_of_Z h ltac:(lia)) as (mh & eh & Hph & Hvh).
    rewrite Hph.
    assert (Hq0 : (0 < inject_Z h)%Q).
    { change 0%Q with (inject_Z 0). rewrite <- Zlt_Qlt. lia. }
    assert (Hq1 : (inject_Z h <= 10001)%Q).
    { change 10001%Q with (inject_Z 10001). rewrite <- Zle_Qle. lia. }
    assert (Hk : (inject_Z 7036874417766400 * pow2 (-46) == 100)%Q) by reflexivity.
    apply rounds_to_near with (E := -45).
    + apply (SFdiv_approx false mh eh false 7036874417766400 (-46) _ 7 (-45)); try lia.
      * rewrite Hk, Hvh. field.
      * apply Qlt_shift_div_r; [reflexivity|]. change (pow2 7) with 128%Q. lra.
    + apply Qle_shift_div_l; [reflexivity|]. lra.
    + apply Qle_bool_imp_le. reflexivity.
Qed.

Lemma near_finite (x : float) (y err : Q) :
  Spec.near (Prim2SF x) y err -> Number.isFinite x = true.
Proof. unfold Number.isFinite. destruct (Prim2SF x); cbn [Spec.near]; tauto. Qed.

Lemma near_real (x : float) (y err : Q) :
  Spec.near (Prim2SF x) y err -> (Qabs (Number.real x - y) <= err)%Q.
Proof. unfold Number.real. destruct (Prim2SF x); cbn [Spec.near]; tauto. Qed.

(** The percentage the code computes is the percentage to two decimals. *)
Lemma percentageOf_isPercentage (part total : N) :
  (part <= total)%N -> (0 < total)%N -> (total < 2 ^ 53)%N ->
  Spec.isPercentage (percentageOf part total) part total.
Proof.
  intros Hle Hpos Hlt. unfold percentageOf, Spec.isPercentage.
  assert (E : (0 <? total)%N = true) by now apply N.ltb_lt.
  rewrite E.
  set (c := Z.of_N part). set (T := Z.of_N total).
  assert (HT : 0 < T < 2 ^ 53).
  { subst T. split; [lia|]. change (2 ^ 53) with (Z.of_N (2 ^ 53)%N). lia. }
  assert (Hc : 0 <= c <= T) by (subst c T; lia).
  set (x := (inject_Z c / inject_Z T)%Q).
  assert (HTq : (0 < inject_Z T)%Q).
  { change 0%Q with (inject_Z 0). rewrite <- Zlt_Qlt. lia. }
  assert (Hx : (0 <= x <= 1)%Q).
  { subst x. split.
    - apply Qle_shift_div_l; [exact HTq|]. rewrite Qmult_0_l.
      change 0%Q with (inject_Z 0). rewrite <- Zle_Qle. lia.
    - apply Qle_shift_div_r; [exact HTq|]. rewrite Qmult_1_l. rewrite <- Zle_Qle. lia. }
  pose proof (scaled_near _ x (quotient_rounds c T Hc HT) Hx) as Hp.
  destruct (round_near _ _ _ Hp) as (h & -> & Hh0 & Hh).
  change (inject_Z 10000) with 10000%Q in *.
  apply Qabs_Qle_condition in Hh.
  assert (Hh1 : h <= 10001).
  { apply Z.lt_succ_r. rewrite Zlt_Qlt. change (inject_Z (Z.succ 10001)) with 10002%Q. lra. }
  pose proof (hundredths_near h ltac:(lia)) as Hn.
  exists h. split; [reflexivity|]. split; [exact (near_finite _ _ _ Hn)|]. split.
  - apply Qabs_Qle_condition.
    assert (Hxe : (10000 * inject_Z c / inject_Z T == x * 10000)%Q).
    { subst x. field. lra. }
    rewrite Hxe. split; lra.
  - exact (near_real _ _ _ Hn).
Qed.

End Rounding.

(** The real value of a percentage: the exact share, half a hundredth of
    rounding, and the binary64 roundings. *)
Lemma percentage_le (p : float) (part total : N) :
  (0 < total)%N -> Spec.isPercentage p part total ->
  (Number.real p
   <= inject_Z (Z.of_N part) / inject_Z (Z.of_N total) * inject_Z 100
      + ((5 # 1000) + (1 # 10000000000)))%Q.
Proof.
  intros Hpos (h & _ & _ & Hh & Hv).
  apply Qabs_Qle_condition in Hh. apply Qabs_Qle_condition in Hv.
  assert (HT : (0 < inject_Z (Z.of_N total))%Q).
  { change 0%Q with (inject_Z 0). rewrite <- Zlt_Qlt. lia. }
  set (x := (inject_Z (Z.of_N part) / inject_Z (Z.of_N total))%Q) in *.
  assert (Hx : (inject_Z 10000 * inject_Z (Z.of_N part) / inject_Z (Z.of_N total)
                == x * 10000)%Q).
  { subst x. change (inject_Z 10000) with 10000%Q. field. lra. }
  rewrite Hx in Hh.
  set (y := (inject_Z h / inject_Z 100)%Q) in *.
  assert (Hy : (y * 100 == inject_Z h)%Q).
  { subst y. change (inject_Z 100) with 100%Q. field. }
  change (inject_Z 100) with 100%Q. lra.
Qed.

Lemma sum_percentage_le (total : N) (devices : list DeviceStat.t) :
  Forall (fun d =>
            (Number.real (DeviceStat.percentage d)
             <= inject_Z (Z.of_N (DeviceStat.crash_count d)) / inject_Z (Z.of_N total)
                * inject_Z 100
                + ((5 # 1000) + (1 # 10000000000)))%Q) devices ->
  (Spec.sumQ (map (fun d => Number.real (DeviceStat.percentage d)) devices)
   <= inject_Z (Z.of_N (sumN (map DeviceStat.crash_count devices)))
      / inject_Z (Z.of_N total) * inject_Z 100
      + ((5 # 1000) + (1 # 10000000000)) * inject_Z (Z.of_nat (length devices)))%Q.
Proof.
  induction 1 as [|d devices Hd _ IH].
  - simpl. unfold Qdiv.
    set (t := Qinv (inject_Z (Z.of_N total))).
    change (inject_Z 0) with 0%Q. change (inject_Z 100) with 100%Q.
    change (inject_Z (Z.of_nat 0)) with 0%Q.
    assert (E : (0 * t * 100 == 0)%Q) by ring. rewrite E. lra.
  - change (Spec.sumQ (map (fun d => Number.real (DeviceStat.percentage d)) (d :: devices)))
      with (Number.real (DeviceStat.percentage d)
            + Spec.sumQ (map (fun d => Number.real (DeviceStat.percentage d)) devices))%Q.
    change (sumN (map DeviceStat.crash_count (d :: devices)))
      with (DeviceStat.crash_count d + sumN (map DeviceStat.crash_count devices))%N.
    change (length (d :: devices)) with (S (length devices)).
    rewrite N2Z.inj_add, Nat2Z.inj_succ, inject_Z_plus.
    unfold Z.succ. rewrite inject_Z_plus.
    unfold Qdiv in *. change (inject_Z 1) with 1%Q. change (inject_Z 100) with 100%Q in *.
    set (t := Qinv (inject_Z (Z.of_N total))) in *.
    set (x := inject_Z (Z.of_N (DeviceStat.crash_count d))) in *.
    set (y := inject_Z (Z.of_N (sumN (map DeviceStat.crash_count devices)))) in *.
    set (n := inject_Z (Z.of_nat (length devices))) in *.
    set (p := Number.real (DeviceStat.percentage d)) in *.
    set (s := Spec.sumQ _) in *.
    assert (E : ((x + y) * t * 100 == x * t * 100 + y * t * 100)%Q) by ring.
    rewrite E. lra.
Qed.

Lemma share_le_one (part total : N) :
  (part <= total)%N ->
  (inject_Z (Z.of_N part) / inject_Z (Z.of_N total) * inject_Z 100 <= 100)%Q.
Proof.
  intros Hle. destruct (N.eq_dec total 0%N) as [->|Hpos].
  - assert (part = 0%N) as -> by lia. apply Qle_bool_imp_le. reflexivity.
  - assert (H : (inject_Z (Z.of_N part) / inject_Z (Z.of_N total) <= 1)%Q).
    { apply Qle_shift_div_r.
      - change 0%Q with (inject_Z 0). rewrite <- Zlt_Qlt. lia.
      - rewrite Qmult_1_l. rewrite <- Zle_Qle. lia. }
    change (inject_Z 100) with 100%Q. lra.
Qed.

Lemma labelTotal_le_grandTotal (label : string) (rows : list StatRow.t) :
  (Spec.labelTotal label rows <= Spec.grandTotal rows)%N.
Proof.
  unfold Spec.labelTotal, Spec.grandTotal.
  induction rows as [|stat rows IH]; simpl; [lia|].
  destruct (String.eqb (Spec.deviceLabel stat) label); simpl; lia.
Qed.

Lemma compareDeviceStats_total (x y : DeviceStat.t) :
  0 < compareDeviceStats x y -> compareDeviceStats y x <= 0.
Proof. unfold compareDeviceStats. lia. Qed.

Lemma compareDeviceStats_trans (x y z : DeviceStat.t) :
  compareDeviceStats x y <= 0 -> compareDeviceStats y z <= 0 ->
  compareDeviceStats x z <= 0.
Proof. unfold compareDeviceStats. lia. Qed.

(** C7. For a statistics table whose grand total is below 2^53, the range
    in which a binary64 counter is exact, [aggregateDeviceStats] returns
    at most 10 entries. They are the first 10 of one entry for each
    distinct label, sorted by descending count: with the entries cut off
    their labels are the labels of the rows, each once, in that order
    (so no entry has a label that no row has). Every entry, returned or
    cut off, carries the summed count of the rows of its label and the
    percentage of that count in the grand total of all rows, rounded to
    two decimals as [Spec.isPercentage] states it (0 when the grand total
    is 0). The real values of the percentages returned sum to at most 100
    plus half a hundredth (and 10^-10) for each entry, the slack of the
    rounding, hence to at most 100.051. *)
Theorem aggregateDeviceStats_breakdown (crashStats : list StatRow.t) :
  (Spec.grandTotal crashStats < 2 ^ 53)%N ->
  let devices := aggregateDeviceStats crashStats in
  let total := Spec.grandTotal crashStats in
  (length devices <= 10)%nat
  /\ (exists truncated,
        (truncated = [] \/ length devices = 10%nat)
        /\ NoDup (map DeviceStat.device (devices ++ truncated))
        /\ (forall label,
              In label (map DeviceStat.device (devices ++ truncated))
              <-> exists stat, In stat crashStats /\ Spec.deviceLabel stat = label)
        /\ StronglySorted
             (fun a b => (DeviceStat.crash_count b <= DeviceStat.crash_count a)%N)
             (devices ++ truncated)
        /\ Forall (fun d =>
             DeviceStat.crash_count d
             = Spec.labelTotal (DeviceStat.device d) crashStats
             /\ (total = 0%N -> DeviceStat.percentage d = 0%float)
             /\ ((0 < total)%N ->
                 Spec.isPercentage (DeviceStat.percentage d)
                   (DeviceStat.crash_count d) total))
             (devices ++ truncated))
  /\ (Spec.sumQ (map (fun d => Number.real (DeviceStat.percentage d)) devices)
      <= 100 + ((5 # 1000) + (1 # 10000000000))
               * inject_Z (Z.of_nat (length devices)))%Q
  /\ (Spec.sumQ (map (fun d => Number.real (DeviceStat.percentage d)) devices)
      <= 100 + (51 # 1000))%Q.
Proof.
  intros Hexact devices total. subst devices. unfold aggregateDeviceStats.
  pose proof (deviceTotals_fold crashStats) as Hfold.
  pose proof (deviceLabels_fold crashStats) as Hsrc.
  destruct (fold_left countDevice crashStats ([], 0%N)) as [deviceMap totalCrashes].
  destruct Hfold as (Htot & Hsum & Hnd & Hlab & Hcov).
  simpl in Htot, Hsum, Hnd, Hlab, Hcov, Hsrc. cbv beta iota.
  fold total in Htot, Hexact. subst totalCrashes.
  change (fun '(device, crash_count) =>
            {| DeviceStat.device := device;
               DeviceStat.crash_count := crash_count;
               DeviceStat.percentage := percentageOf crash_count total |})
    with (statOf total).
  unfold JSMap.entries, JSArray.slice0.
  set (all := map (statOf total) deviceMap).
  set (sorted := JSArray.sort compareDeviceStats all).
  assert (Hperm : Permutation sorted all) by apply sort_Permutation.
  assert (Hall : Forall (fun d =>
             DeviceStat.crash_count d
             = Spec.labelTotal (DeviceStat.device d) crashStats
             /\ (total = 0%N -> DeviceStat.percentage d = 0%float)
             /\ ((0 < total)%N ->
                 Spec.isPercentage (DeviceStat.percentage d)
                   (DeviceStat.crash_count d) total))
             sorted).
  { eapply Permutation_Forall; [symmetry; exact Hperm|].
    subst all. apply Forall_map. apply List.Forall_forall.
    intros [label count] Hin. cbn [statOf DeviceStat.crash_count DeviceStat.device
                                     DeviceStat.percentage].
    assert (Hcount : count = Spec.labelTotal label crashStats) by now apply Hlab.
    split; [exact Hcount|]. split.
    - intros Hz. unfold percentageOf. rewrite Hz. reflexivity.
    - intros Hpos. apply percentageOf_isPercentage; [|exact Hpos|exact Hexact].
      rewrite Hcount. apply labelTotal_le_grandTotal. }
  assert (Hdev : map DeviceStat.device all = JSMap.keys deviceMap).
  { subst all. rewrite map_map. apply map_ext. now intros [label count]. }
  assert (Hcnt : map DeviceStat.crash_count all = JSMap.values deviceMap).
  { subst all. rewrite map_map. apply map_ext. now intros [label count]. }
  assert (Hbound : (Spec.sumQ (map (fun d => Number.real (DeviceStat.percentage d))
                                 (firstn 10 sorted))
                    <= 100 + ((5 # 1000) + (1 # 10000000000))
                             * inject_Z (Z.of_nat (length (firstn 10 sorted))))%Q).
  { destruct (N.eq_dec total 0%N) as [Hz|Hnz].
    - assert (Hzero : forall l : list DeviceStat.t,
                 Forall (fun d => DeviceStat.percentage d = 0%float) l ->
                 (Spec.sumQ (map (fun d => Number.real (DeviceStat.percentage d)) l)
                  == 0)%Q).
      { induction 1 as [|d l Hd _ IH]; [reflexivity|].
        simpl. rewrite Hd, IH. reflexivity. }
      rewrite Hzero.
      + assert (Hn : (0 <= inject_Z (Z.of_nat (length (firstn 10 sorted))))%Q).
        { change 0%Q with (inject_Z 0). rewrite <- Zle_Qle. lia. }
        set (n := inject_Z _) in *. lra.
      + rewrite <- (firstn_skipn 10 sorted) in Hall.
        apply Forall_app in Hall. destruct Hall as [Htop _].
        eapply List.Forall_impl; [|exact Htop]. intros d (_ & Hd & _). auto.
    - eapply Qle_trans; [apply (sum_percentage_le total)|].
      + rewrite <- (firstn_skipn 10 sorted) in Hall.
        apply Forall_app in Hall. destruct Hall as [Htop _].
        eapply List.Forall_impl; [|exact Htop]. intros d (_ & _ & Hd).
        apply percentage_le; [lia|]. apply Hd. lia.
      + apply Qplus_le_l. apply share_le_one.
        rewrite <- firstn_map.
        eapply N.le_trans; [apply sumN_firstn|].
        rewrite (sumN_Permutation _ (map DeviceStat.crash_count all))
          by now apply Permutation_map.
        rewrite Hcnt, Hsum. reflexivity. }
  split; [apply firstn_le_length|]. split; [|split].
  - exists (skipn 10 sorted). rewrite firstn_skipn. repeat split.
    + destruct (le_lt_dec (length sorted) 10) as [Hle|Hlt].
      * left. now apply skipn_all2.
      * right. rewrite length_firstn. lia.
    + assert (Hpm : Permutation (map DeviceStat.device sorted)
                      (map DeviceStat.device all)) by now apply Permutation_map.
      rewrite Hpm, Hdev. exact Hnd.
    + intros Hin. apply Hsrc. rewrite <- Hdev.
      eapply Permutation_in; [apply Permutation_map; exact Hperm | exact Hin].
    + intros (stat & Hin & <-). eapply Permutation_in;
        [symmetry; apply Permutation_map; exact Hperm|].
      rewrite Hdev. now apply Hcov.
    + eapply StronglySorted_impl; [|apply sort_sorted].
      * intros a b. unfold compareDeviceStats. simpl. lia.
      * apply compareDeviceStats_total.
      * apply compareDeviceStats_trans.
    + exact Hall.
  - exact Hbound.
  - eapply Qle_trans; [exact Hbound|].
    pose proof (firstn_le_length 10 sorted) as Hlen.
    assert (H10 : (inject_Z (Z.of_nat (length (firstn 10 sorted))) <= 10)%Q).
    { change 10%Q with (inject_Z 10). rewrite <- Zle_Qle. lia. }
    set (n := inject_Z _) in *. lra.
Qed.

(** C7, witness: three rows, two labels, a grand total of 800; the
    percentages returned are 92.88 and 7.12. *)
Lemma aggregateDeviceStats_breakdown_witness :
  let crashStats :=
    [StatRow.mk (Some "Pixel 7") (Some 50%N);
     StatRow.mk (Some "Galaxy S23") (Some 743%N);
     StatRow.mk (Some "Pixel 7") (Some 7%N)] in
  (length (aggregateDeviceStats crashStats) <= 10)%nat
  /\ (Spec.sumQ (map (fun d => Number.real (DeviceStat.percentage d))
                   (aggregateDeviceStats crashStats))
      <= 100 + (51 # 1000))%Q.
Proof.
  intros crashStats.
  destruct (aggregateDeviceStats_breakdown crashStats) as (Hlen & _ & _ & Hsum).
  - reflexivity.
  - split; [exact Hlen | exact Hsum].
Defined.

Section StringFacts.
Implicit Types (s sub a b : string).

Lemma prefix_empty s : String.prefix "" s = true.
Proof. destruct s; reflexivity. Qed.

Lemma prefix_append sub s b :
  String.prefix sub s = true -> String.prefix sub (s +:+ b) = true.
Proof.
  revert s. induction sub as [|c sub IH]; intros s; [intros _; apply prefix_empty|].
  destruct s as [|d s]; [discriminate|].
  change (String d s +:+ b) with (String d (s +:+ b)). simpl.
  destruct (ascii_dec c d); auto.
Qed.

Lemma append_empty_r s : s +:+ "" = s.
Proof.
  induction s as [|c s IH]; [reflexivity|].
  change (String c (s +:+ "") = String c s). now rewrite IH.
Qed.

Lemma prefix_refl_append sub b : String.prefix sub (sub +:+ b) = true.
Proof.
  induction sub as [|c sub IH]; [apply prefix_empty|].
  change (String c sub +:+ b) with (String c (sub +:+ b)). simpl.
  destruct (ascii_dec c c); [exact IH | contradiction].
Qed.

Lemma includes_prefix s sub :
  String.prefix sub s = true -> JSString.includes s sub = true.
Proof. intros H. destruct s; cbn [JSString.includes]; now rewrite H. Qed.

Lemma includes_head sub b : JSString.includes (sub +:+ b) sub = true.
Proof. apply includes_prefix, prefix_refl_append. Qed.

Lemma includes_append_l a s sub :
  JSString.includes s sub = true -> JSString.includes (a +:+ s) sub = true.
Proof.
  intros H. induction a as [|c a IH]; [exact H|].
  change (String c a +:+ s) with (String c (a +:+ s)). simpl.
  rewrite IH. apply orb_true_r.
Qed.

Lemma includes_append_r s b sub :
  JSString.includes s sub = true -> JSString.includes (s +:+ b) sub = true.
Proof.
  induction s as [|c s IH]; cbn [JSString.includes]; intros H.
  - rewrite orb_false_r in H. apply includes_prefix.
    now apply (prefix_append sub "" b).
  - apply orb_true_iff in H as [H|H].
    + apply includes_prefix. now apply prefix_append.
    + change (String c s +:+ b) with (String c (s +:+ b)).
      cbn [JSString.includes]. rewrite (IH H). apply orb_true_r.
Qed.

Lemma includes_join sep (parts : list string) s :
  In s parts -> JSString.includes (JSString.join sep parts) s = true.
Proof.
  induction parts as [|p parts IH]; [contradiction|].
  intros [->|Hin].
  - destruct parts as [|q parts]; simpl JSString.join.
    + pose proof (includes_head s "") as H.
      now rewrite append_empty_r in H.
    + apply includes_head.
  - destruct parts as [|q parts]; [contradiction|].
    change (JSString.join sep (p :: q :: parts))
      with (p +:+ sep +:+ JSString.join sep (q :: parts)).
    apply includes_append_l, includes_append_l. now apply IH.
Qed.

End StringFacts.

Lemma firstAdvice_first (entries : list (string * string)) (exceptionType value : string) :
  firstAdvice entries exceptionType = Some value ->
  exists skipped key rest,
    entries = (skipped ++ (key, value) :: rest)%list
    /\ JSString.includes exceptionType key = true
    /\ Forall (fun entry => JSString.includes exceptionType (fst entry) = false) skipped.
Proof.
  induction entries as [|[k v] entries IH]; simpl; [discriminate|].
  destruct (JSString.includes exceptionType k) eqn:E.
  - intros [= ->]. exists [], k, entries. repeat split; auto.
  - intros H. destruct (IH H) as (skipped & key & rest & -> & Hkey & Hskip).
    exists ((k, v) :: skipped), key, rest. repeat split; auto.
Qed.

Lemma existsb_firstAdvice (entries : list (string * string)) (exceptionType : string) :
  existsb (fun type => JSString.includes exceptionType type) (map fst entries)
  = bool_decide (is_Some (firstAdvice entries exceptionType)).
Proof.
  induction entries as [|[k v] entries IH]; simpl; [reflexivity|].
  destruct (JSString.includes exceptionType k); simpl; [reflexivity | exact IH].
Qed.

Lemma isCommonException_firstAdvice (exceptionType : string) :
  isCommonException exceptionType
  = bool_decide (is_Some (firstAdvice advice exceptionType)).
Proof. apply (existsb_firstAdvice advice). Qed.

Lemma isCommonException_false (exceptionType : string) :
  (forall key, In key commonExceptions ->
     JSString.includes exceptionType key = false) ->
  isCommonException exceptionType = false.
Proof.
  intros H. unfold isCommonException.
  apply not_true_is_false. intros Hex. apply existsb_exists in Hex as (key & Hin & Hk).
  rewrite (H key Hin) in Hk. discriminate.
Qed.

Lemma isCommonException_true (exceptionType key : string) :
  In key commonExceptions -> JSString.includes exceptionType key = true ->
  isCommonException exceptionType = true.
Proof. intros Hin Hk. apply existsb_exists. eauto. Qed.

Lemma sentences_plain (exceptionType : string) (stackFrames : list StackFrame.t)
    (crashMessage appVersion : string) (s : string) :
  isCommonException exceptionType = false ->
  In s (fixSuggestionSentences exceptionType stackFrames crashMessage appVersion) ->
  plainSentence s.
Proof.
  intros Hc. unfold fixSuggestionSentences, JSArray.push. rewrite Hc.
  destruct (head stackFrames) as [frame|];
    repeat match goal with
      | |- context [if ?b then _ else _] => destruct b
      end;
    rewrite ?in_app_iff; simpl; intros H;
    repeat match goal with
      | H : _ \/ _ |- _ => destruct H as [H|H]
      | H : False |- _ => destruct H
      end; subst s; simpl; auto.
Qed.

Lemma advice_in_sentences (exceptionType : string) (stackFrames : list StackFrame.t)
    (crashMessage appVersion : string) :
  isCommonException exceptionType = true ->
  In (getCommonExceptionAdvice exceptionType)
     (fixSuggestionSentences exceptionType stackFrames crashMessage appVersion).
Proof.
  intros Hc. unfold fixSuggestionSentences, JSArray.push. rewrite Hc.
  destruct (JSString.truthy appVersion); rewrite ?in_app_iff; simpl; tauto.
Qed.

(** C6, counterexample. For "java.io.IOException", which holds none of
    the seven substrings, the text has no advice sentence: the generic
    advice is not part of it. *)
Lemma no_generic_advice_for_unknown_exception :
  isCommonException "java.io.IOException" = false
  /\ generateFixSuggestionContext "java.io.IOException" [] "disk full" "2.1"
     = "The crash occurs in unknown class. when a java.io.IOException is thrown. "
       +:+ "with the message: " +:+ JSString.dquote +:+ "disk full" +:+ JSString.dquote
       +:+ ". This occurs in app version 2.1."
  /\ JSString.includes
       (generateFixSuggestionContext "java.io.IOException" [] "disk full" "2.1")
       genericAdvice = false.
Proof. repeat split; reflexivity. Qed.

(** C6, amended. When the exception type contains one of the seven
    substrings, the sentences, and so the text, contain the advice of the
    first key of the table that the type contains. When it contains none
    of them, no advice sentence is pushed: neither the generic advice nor
    an advice of the table is among the sentences. *)
Theorem fixSuggestion_advice (exceptionType : string)
    (stackFrames : list StackFrame.t) (crashMessage appVersion : string) :
  let sentences :=
    fixSuggestionSentences exceptionType stackFrames crashMessage appVersion in
  let text :=
    generateFixSuggestionContext exceptionType stackFrames crashMessage appVersion in
  (forall key, In key commonExceptions ->
     JSString.includes exceptionType key = true ->
     exists skipped first value rest,
       advice = (skipped ++ (first, value) :: rest)%list
       /\ JSString.includes exceptionType first = true
       /\ Forall (fun entry => JSString.includes exceptionType (fst entry) = false)
            skipped
       /\ In value sentences
       /\ JSString.includes text value = true)
  /\ ((forall key, In key commonExceptions ->
         JSString.includes exceptionType key = false) ->
      ~ In genericAdvice sentences
      /\ forall key value, In (key, value) advice -> ~ In value sentences).
Proof.
  intros sentences text. split.
  - intros key Hkey Hinc.
    pose proof (isCommonException_true _ _ Hkey Hinc) as Hc.
    pose proof Hc as Hsome. rewrite isCommonException_firstAdvice in Hsome.
    apply bool_decide_eq_true in Hsome as [value Hvalue].
    destruct (firstAdvice_first _ _ _ Hvalue) as (skipped & first & rest & Hadv & Hfirst & Hskip).
    exists skipped, first, value, rest.
    assert (Hin : In value sentences).
    { pose proof (advice_in_sentences exceptionType stackFrames crashMessage
                    appVersion Hc) as H.
      unfold getCommonExceptionAdvice in H. now rewrite Hvalue in H. }
    repeat split; auto.
    subst text. unfold generateFixSuggestionContext.
    apply includes_append_r, includes_join. exact Hin.
  - intros Hnone. apply isCommonException_false in Hnone.
    split.
    + intros Hin. apply (sentences_plain _ _ _ _ _ Hnone) in Hin.
      simpl in Hin. intuition discriminate.
    + intros key value Hadv Hin.
      apply (sentences_plain _ _ _ _ _ Hnone) in Hin.
      unfold advice in Hadv. simpl in Hadv.
      repeat match goal with
        | H : _ \/ _ |- _ => destruct H as [H|H]
        | H : (_, _) = (_, _) |- _ => injection H as <- <-
        | H : False |- _ => destruct H
        end; simpl in Hin; intuition discriminate.
Qed.

(** C5, the code at the failing input. One day whose crash-free rate is
    0: [row.crash_free_rate || 100] takes the 0 for a missing rate, so the
    day's trend entry and the overall percentage are 100, not 0. *)
Lemma zero_rate_is_reported_as_100 :
  let day := CrashFreeRow.mk "2024-05-01" (Some 7) (Some 0%float) in
  let report := processTrendAnalysis [] [day] [] "7d" in
  TrendAnalysis.crash_free_percentage report = 100%float
  /\ map CrashTrend.crash_free_rate (TrendAnalysis.trends report) = [100%float].
Proof. split; reflexivity. Qed.

(** Two days with the rates 0 and 50: the reported mean is 75, not 25. *)
Lemma zero_rate_raises_the_mean :
  let days := [CrashFreeRow.mk "2024-05-01" (Some 7) (Some 0%float);
               CrashFreeRow.mk "2024-05-02" (Some 3) (Some 50%float)] in
  TrendAnalysis.crash_free_percentage (processTrendAnalysis [] days [] "7d")
  = 75%float.
Proof. reflexivity. Qed.

(** [JSON.parse] and the stack-trace parser are arbitrary below. *)
Section DetailsFacts.
Variable JSON_parse : string -> Res JSON.
Variable parseStackTrace : string -> StackTrace.t.

Lemma extractCrashContext_returns (row : BigQueryCrashRow.t) :
  exists context, extractCrashContext JSON_parse row = Ok context.
Proof.
  unfold extractCrashContext.
  destruct (JSString.truthy (BigQueryCrashRow.breadcrumbs row));
    destruct (JSString.truthy (BigQueryCrashRow.custom_keys row));
    try destruct (JSON_parse (BigQueryCrashRow.breadcrumbs row));
    try destruct (JSON_parse (BigQueryCrashRow.custom_keys row));
    simpl; eauto.
Qed.

(** C9. [extractCrashContext] returns a context for every row and every
    behaviour of [JSON.parse], it never throws. When the breadcrumbs text
    is not empty and fails to parse, the breadcrumbs are the one-element
    list of the raw text; when the text is empty they are the empty list;
    when the custom keys fail to parse they are the empty object. *)
Theorem extractCrashContext_defensive (row : BigQueryCrashRow.t) :
  exists context,
    extractCrashContext JSON_parse row = Ok context
    /\ (forall e, BigQueryCrashRow.breadcrumbs row <> "" ->
          JSON_parse (BigQueryCrashRow.breadcrumbs row) = Throw e ->
          CrashContext.breadcrumbs context
          = JArr [JStr (BigQueryCrashRow.breadcrumbs row)])
    /\ (BigQueryCrashRow.breadcrumbs row = "" ->
          CrashContext.breadcrumbs context = JArr [])
    /\ (forall e, JSON_parse (BigQueryCrashRow.custom_keys row) = Throw e ->
          CrashContext.custom_keys context = JObj []).
Proof.
  unfold extractCrashContext, JSString.truthy.
  destruct (String.eqb_spec (BigQueryCrashRow.breadcrumbs row) "") as [Hb|Hb];
    destruct (String.eqb_spec (BigQueryCrashRow.custom_keys row) "") as [Hk|Hk];
    simpl;
    try destruct (JSON_parse (BigQueryCrashRow.breadcrumbs row)) as [b|eb] eqn:Eb;
    try destruct (JSON_parse (BigQueryCrashRow.custom_keys row)) as [k|ek] eqn:Ek;
    simpl; eexists; (split; [reflexivity|]); simpl;
    repeat split; intros; try congruence; try contradiction.
Qed.

(** C10. With the default baseline of 10000, [processCrashDetails]
    returns details whose summary has impact [low], for a fatal and for a
    non-fatal row alike: it classifies one affected user and one
    occurrence. *)
Theorem processCrashDetails_impact_low (row : BigQueryCrashRow.t) :
  exists details,
    processCrashDetails JSON_parse parseStackTrace (CrashProcessor.new None) row
    = Ok details
    /\ CrashSummary.impact (CrashDetails.crash_summary details) = low
    /\ CrashSummary.affected_users (CrashDetails.crash_summary details) = 1
    /\ CrashSummary.occurrences (CrashDetails.crash_summary details) = 1.
Proof.
  unfold processCrashDetails.
  destruct (extractCrashContext_returns row) as [context ->]. simpl.
  eexists. split; [reflexivity|]. simpl. repeat split.
  destruct (BigQueryCrashRow.is_fatal row); reflexivity.
Qed.
End DetailsFacts.

(** * Further properties of the code *)

Lemma userIds_snoc (members : list BigQueryCrashRow.t) (row : BigQueryCrashRow.t) :
  userIds (members ++ [row])
  = if JSString.truthy (BigQueryCrashRow.user_id row)
    then {[ BigQueryCrashRow.user_id row ]} ∪ userIds members
    else userIds members.
Proof.
  unfold userIds. rewrite map_app, List.filter_app. simpl.
  destruct (JSString.truthy (BigQueryCrashRow.user_id row)).
  - rewrite list_to_set_app_L. simpl.
    rewrite union_empty_r_L. apply (comm_L (∪)).
  - now rewrite app_nil_r.
Qed.

Lemma rowsOfKey_snoc (key : string) (rows : list BigQueryCrashRow.t)
    (row : BigQueryCrashRow.t) :
  rowsOfKey key (rows ++ [row])
  = (rowsOfKey key rows ++ if String.eqb (groupKey row) key then [row] else [])%list.
Proof. unfold rowsOfKey. now rewrite filter_snoc. Qed.

Lemma groupsOfRows_step (rows : list BigQueryCrashRow.t)
    (crashMap : JSMap.t Group.t) (row : BigQueryCrashRow.t) :
  groupsOfRows rows crashMap ->
  groupsOfRows (rows ++ [row]) (accumulate crashMap row).
Proof.
  intros (Hnd & Hgrp & Hcov). unfold accumulate.
  destruct (JSMap.get (groupKey row) crashMap) as [existing|] eqn:E.
  - split; [now apply NoDup_keys_set|]. split.
    + intros key group Hin. apply In_set in Hin; [|exact Hnd].
      rewrite rowsOfKey_snoc. destruct Hin as [[-> ->]|[Hne Hin]].
      * rewrite String.eqb_refl.
        destruct (Hgrp _ _ (get_In _ _ _ E)) as (first & rest & Hrows & Hrow & Hcount & Husers).
        exists first, (rest ++ [row])%list. rewrite Hrows. simpl.
        repeat split; auto.
        -- rewrite Hcount. simpl. rewrite length_app. simpl. lia.
        -- rewrite Husers. change (first :: rest ++ [row])%list
             with ((first :: rest) ++ [row])%list.
           now rewrite userIds_snoc.
      * apply not_eq_sym, String.eqb_neq in Hne. rewrite Hne, app_nil_r. eauto.
    + intros r Hr. rewrite keys_set, E. apply in_app_or in Hr as [Hr|[<-|[]]]; auto.
      apply get_In in E. apply (in_map fst) in E. exact E.
  - pose proof E as Hnone. apply get_None in Hnone.
    split; [now apply NoDup_keys_set|]. split.
    + intros key group Hin. apply In_set in Hin; [|exact Hnd].
      rewrite rowsOfKey_snoc. destruct Hin as [[-> ->]|[Hne Hin]].
      * rewrite String.eqb_refl. unfold rowsOfKey at 1.
        rewrite filter_none.
        -- exists row, []. simpl. repeat split; auto.
           unfold userIds. simpl.
           destruct (JSString.truthy (BigQueryCrashRow.user_id row)); simpl;
             [now rewrite union_empty_r_L | reflexivity].
        -- intros r Hr. apply String.eqb_neq. intros Heq.
           apply Hnone. rewrite <- Heq. now apply Hcov.
      * apply not_eq_sym, String.eqb_neq in Hne. rewrite Hne, app_nil_r. eauto.
    + intros r Hr. rewrite keys_set, E. apply in_or_app.
      apply in_app_or in Hr as [Hr|[<-|[]]]; [left; auto | right; now left].
Qed.

Lemma groupsOfRows_groupRows (rows : list BigQueryCrashRow.t) :
  groupsOfRows rows (groupRows rows).
Proof.
  induction rows as [|row rows IH] using rev_ind.
  - split; [constructor|]. split; intros; contradiction.
  - unfold groupRows in *. rewrite fold_left_app. simpl.
    now apply groupsOfRows_step.
Qed.

Lemma In_processCrashRows (this : CrashProcessor.t) (rows : list BigQueryCrashRow.t)
    (summary : CrashSummary.t) :
  In summary (processCrashRows this rows)
  <-> exists key group, In (key, group) (groupRows rows)
                        /\ summary = summarize this group.
Proof.
  unfold processCrashRows, sortByImpactAndFrequency.
  assert (Hperm := sort_Permutation compareImpactAndFrequency
                     (map (summarize this) (JSMap.values (groupRows rows)))).
  split.
  - intros Hin. eapply Permutation_in in Hin; [|exact Hperm].
    unfold JSMap.values in Hin. rewrite map_map in Hin.
    apply in_map_iff in Hin as ([key group] & Heq & Hin). eauto.
  - intros (key & group & Hin & ->).
    eapply Permutation_in; [symmetry; exact Hperm|].
    unfold JSMap.values. rewrite map_map.
    apply in_map_iff. exists (key, group). auto.
Qed.

(** X1. Every summary of [processCrashRows] stands for the rows of one
    key: its id, timestamp, app version, platform and fatal flag are
    those of the first such row, its occurrence count is the number of
    these rows, and its affected-user count is the number of their
    distinct user ids that are not empty. *)
Theorem processCrashRows_summary_of_group (this : CrashProcessor.t)
    (rows : list BigQueryCrashRow.t) (summary : CrashSummary.t) :
  In summary (processCrashRows this rows) ->
  exists first rest,
    rowsOfKey (groupKey first) rows = first :: rest
    /\ CrashSummary.id summary = BigQueryCrashRow.crash_id first
    /\ CrashSummary.timestamp summary = BigQueryCrashRow.timestamp first
    /\ CrashSummary.app_version summary = BigQueryCrashRow.app_version first
    /\ CrashSummary.platform summary = BigQueryCrashRow.platform first
    /\ CrashSummary.is_fatal summary = BigQueryCrashRow.is_fatal first
    /\ CrashSummary.occurrences summary = Z.of_nat (length (first :: rest))
    /\ CrashSummary.affected_users summary
       = Z.of_nat (size (userIds (first :: rest))).
Proof.
  intros Hin. apply In_processCrashRows in Hin as (key & group & Hin & ->).
  destruct (groupsOfRows_groupRows rows) as (_ & Hgrp & _).
  destruct (Hgrp _ _ Hin) as (first & rest & Hrows & Hrow & Hcount & Husers).
  exists first, rest.
  assert (Hkey : groupKey first = key).
  { assert (Hf : In first (rowsOfKey key rows)) by (rewrite Hrows; now left).
    apply List.filter_In in Hf as [_ Hf]. now apply String.eqb_eq in Hf. }
  rewrite Hkey. unfold summarize. simpl. rewrite Hrow, Hcount, Husers.
  repeat split; auto.
Qed.

(** X1, witness: three rows, two of one key. *)
Lemma processCrashRows_summary_of_group_witness :
  let rows :=
    [rowOf "E" "m" "1" "u1"; rowOf "F" "m" "1" "u2"; rowOf "E" "m" "1" ""] in
  let summary :=
    summarize (CrashProcessor.new None)
      (Group.mk (rowOf "E" "m" "1" "u1") 2 {[ "u1" ]}) in
  exists first rest,
    rowsOfKey (groupKey first) rows = first :: rest
    /\ CrashSummary.occurrences summary = Z.of_nat (length (first :: rest)).
Proof.
  intros rows summary.
  destruct (processCrashRows_summary_of_group (CrashProcessor.new None)
              rows summary)
    as (first & rest & Hrows & _ & _ & _ & _ & _ & Hocc & _).
  - subst rows summary. vm_compute. left. reflexivity.
  - eauto.
Defined.

Lemma sumZ_app (l1 l2 : list Z) : sumZ (l1 ++ l2) = sumZ l1 + sumZ l2.
Proof. induction l1 as [|x l1 IH]; simpl; [reflexivity|]. rewrite IH. lia. Qed.

Lemma sumZ_Permutation (l1 l2 : list Z) : Permutation l1 l2 -> sumZ l1 = sumZ l2.
Proof. induction 1; simpl; lia. Qed.

Lemma sum_measure_set {V : Type} (f : V -> Z) (key : string) (v : V) (m : JSMap.t V) :
  sumZ (map f (JSMap.values (JSMap.set key v m)))
  + match JSMap.get key m with Some old => f old | None => 0 end
  = sumZ (map f (JSMap.values m)) + f v.
Proof.
  unfold JSMap.values. induction m as [|[k c] m IH]; simpl; [lia|].
  destruct (String.eqb k key); simpl; lia.
Qed.

Lemma count_groupRows (rows : list BigQueryCrashRow.t) :
  sumZ (map Group.count (JSMap.values (groupRows rows))) = Z.of_nat (length rows).
Proof.
  induction rows as [|row rows IH] using rev_ind; [reflexivity|].
  unfold groupRows in *. rewrite fold_left_app, length_app. simpl.
  set (crashMap := fold_left accumulate rows []) in *.
  unfold accumulate.
  destruct (JSMap.get (groupKey row) crashMap) as [existing|] eqn:E.
  - match goal with
    | |- context [JSMap.set ?k ?v crashMap] =>
        pose proof (sum_measure_set Group.count k v crashMap) as H
    end.
    rewrite E in H. simpl in H. lia.
  - match goal with
    | |- context [JSMap.set ?k ?v crashMap] =>
        pose proof (sum_measure_set Group.count k v crashMap) as H
    end.
    rewrite E in H. simpl in H. lia.
Qed.

(** X2. [processCrashRows] counts every row once: the occurrence counts
    of the summaries add up to the number of rows, and each summary has
    at least one occurrence and no negative user count. *)
Theorem processCrashRows_counts_every_row (this : CrashProcessor.t)
    (rows : list BigQueryCrashRow.t) :
  sumZ (map CrashSummary.occurrences (processCrashRows this rows))
  = Z.of_nat (length rows)
  /\ Forall (fun summary =>
               1 <= CrashSummary.occurrences summary
               /\ 0 <= CrashSummary.affected_users summary)
       (processCrashRows this rows).
Proof.
  split.
  - unfold processCrashRows, sortByImpactAndFrequency.
    rewrite (sumZ_Permutation _
               (map CrashSummary.occurrences
                  (map (summarize this) (JSMap.values (groupRows rows)))))
      by (apply Permutation_map, sort_Permutation).
    rewrite map_map. simpl. apply count_groupRows.
  - apply List.Forall_forall. intros summary Hin.
    apply In_processCrashRows in Hin as (key & group & Hin & ->).
    destruct (groupsOfRows_groupRows rows) as (_ & Hgrp & _).
    destruct (Hgrp _ _ Hin) as (first & rest & _ & _ & Hcount & _).
    unfold summarize. simpl. rewrite Hcount. simpl length. lia.
Qed.

(** X3. [processCrashRows] returns one summary for each distinct key of
    the rows, hence never more summaries than rows. *)
Theorem processCrashRows_one_summary_per_key (this : CrashProcessor.t)
    (rows : list BigQueryCrashRow.t) :
  length (processCrashRows this rows)
  = size (list_to_set (map groupKey rows) : gset string)
  /\ (length (processCrashRows this rows) <= length rows)%nat.
Proof.
  assert (Hlen : length (processCrashRows this rows)
                 = length (JSMap.keys (groupRows rows))).
  { unfold processCrashRows, sortByImpactAndFrequency.
    rewrite (Permutation_length (sort_Permutation _ _)).
    unfold JSMap.values, JSMap.keys. now rewrite !length_map. }
  destruct (groupsOfRows_groupRows rows) as (Hnd & Hgrp & Hcov).
  assert (Hset : (list_to_set (map groupKey rows) : gset string)
                 = list_to_set (JSMap.keys (groupRows rows))).
  { apply set_eq. intros key. rewrite !elem_of_list_to_set, !list_elem_of_In. split.
    - intros Hin. apply in_map_iff in Hin as (r & <- & Hr). now apply Hcov.
    - intros Hin. apply in_map_iff in Hin as ([k group] & Hk & Hin).
      simpl in Hk. subst k.
      destruct (Hgrp _ _ Hin) as (first & rest & Hrows & _).
      assert (Hf : In first (rowsOfKey key rows)) by (rewrite Hrows; now left).
      apply List.filter_In in Hf as [Hf Hkey]. apply String.eqb_eq in Hkey.
      apply in_map_iff. eauto. }
  assert (Hsize : length (processCrashRows this rows)
                  = size (list_to_set (map groupKey rows) : gset string)).
  { rewrite Hlen, Hset. symmetry. now apply size_list_to_set. }
  split; [exact Hsize|].
  assert (Hone : forall groups : list (string * Group.t),
             (forall key group, In (key, group) groups -> 1 <= Group.count group) ->
             Z.of_nat (length groups)
             <= sumZ (map Group.count (JSMap.values groups))).
  { induction groups as [|[k g] groups IH]; intros Hall; simpl; [lia|].
    pose proof (Hall k g (or_introl eq_refl)).
    assert (Z.of_nat (length groups)
            <= sumZ (map Group.count (JSMap.values groups))).
    { apply IH. intros key group Hin. apply (Hall key group). now right. }
    unfold JSMap.values in *. lia. }
  specialize (Hone (groupRows rows)).
  rewrite count_groupRows in Hone.
  unfold JSMap.keys in Hlen. rewrite length_map in Hlen. rewrite Hlen.
  apply Nat2Z.inj_le. apply Hone.
  intros key group Hin.
  destruct (Hgrp _ _ Hin) as (first & rest & _ & _ & Hcount & _).
  rewrite Hcount. simpl length. lia.
Qed.

Section SortMore.
Context {A : Type} (compare : A -> A -> Z).

Lemma insert_first (x : A) (l : list A) :
  Forall (fun y => compare x y <= 0) l -> JSArray.insert compare x l = x :: l.
Proof.
  intros H. destruct H as [|y l Hy Hl]; simpl; [reflexivity|].
  apply Z.leb_le in Hy. now rewrite Hy.
Qed.

Lemma sort_sorted_id (l : list A) :
  StronglySorted (fun a b => compare a b <= 0) l -> JSArray.sort compare l = l.
Proof.
  induction 1 as [|x l Hs IH Hx]; [reflexivity|].
  change (JSArray.sort compare (x :: l))
    with (JSArray.insert compare x (JSArray.sort compare l)).
  rewrite IH. now apply insert_first.
Qed.

Hypothesis compare_trans :
  forall x y z, compare x y <= 0 -> compare y z <= 0 -> compare x z <= 0.

Lemma insert_filter_sorted (P : A -> bool) (x : A) (l : list A) :
  StronglySorted (fun a b => compare a b <= 0) l ->
  List.filter P (JSArray.insert compare x l)
  = if P x then JSArray.insert compare x (List.filter P l) else List.filter P l.
Proof.
  induction 1 as [|y l Hs IH Hy]; simpl.
  - now destruct (P x).
  - destruct (compare x y <=? 0) eqn:Hc; simpl.
    + destruct (P x) eqn:Hx; [|reflexivity].
      symmetry. apply (insert_first x (List.filter P (y :: l))).
      apply Z.leb_le in Hc. apply List.Forall_forall. intros z Hz.
      apply List.filter_In in Hz as [[<-|Hz] _]; [exact Hc|].
      eapply compare_trans; [exact Hc|].
      apply (proj1 (List.Forall_forall _ _) Hy z Hz).
    + rewrite IH. destruct (P x), (P y); simpl; try reflexivity.
      now rewrite Hc.
Qed.

Hypothesis compare_total : forall x y, 0 < compare x y -> compare y x <= 0.

Lemma sort_filter_commute (P : A -> bool) (l : list A) :
  List.filter P (JSArray.sort compare l) = JSArray.sort compare (List.filter P l).
Proof.
  induction l as [|x l IH]; [reflexivity|].
  change (JSArray.sort compare (x :: l))
    with (JSArray.insert compare x (JSArray.sort compare l)).
  rewrite insert_filter_sorted by now apply sort_sorted.
  simpl. destruct (P x); [|exact IH].
  change (JSArray.sort compare (x :: List.filter P l))
    with (JSArray.insert compare x (JSArray.sort compare (List.filter P l))).
  now rewrite IH.
Qed.

End SortMore.

Lemma compareImpactAndFrequency_total (x y : CrashSummary.t) :
  0 < compareImpactAndFrequency x y -> compareImpactAndFrequency y x <= 0.
Proof.
  unfold compareImpactAndFrequency.
  destruct (CrashSummary.impact x), (CrashSummary.impact y); simpl; lia.
Qed.

Lemma compareImpactAndFrequency_trans (x y z : CrashSummary.t) :
  compareImpactAndFrequency x y <= 0 -> compareImpactAndFrequency y z <= 0 ->
  compareImpactAndFrequency x z <= 0.
Proof.
  unfold compareImpactAndFrequency.
  destruct (CrashSummary.impact x), (CrashSummary.impact y),
    (CrashSummary.impact z); simpl; lia.
Qed.

Lemma ranked_compare (crashes : list CrashSummary.t) :
  StronglySorted Spec.ranksBefore crashes ->
  StronglySorted (fun a b => compareImpactAndFrequency a b <= 0) crashes.
Proof.
  apply StronglySorted_impl. intros a b. apply compare_le_ranksBefore.
Qed.

(** X4. [sortByImpactAndFrequency] returns a list that is already ranked
    as it is. *)
Theorem sortByImpactAndFrequency_keeps_ranked (crashes : list CrashSummary.t) :
  StronglySorted Spec.ranksBefore crashes ->
  sortByImpactAndFrequency crashes = crashes.
Proof.
  intros H. unfold sortByImpactAndFrequency.
  apply sort_sorted_id. now apply ranked_compare.
Qed.

(** X4, witness: a ranked list of three summaries. *)
Lemma sortByImpactAndFrequency_keeps_ranked_witness :
  sortByImpactAndFrequency [summaryOf high 3; summaryOf medium 9; summaryOf medium 2]
  = [summaryOf high 3; summaryOf medium 9; summaryOf medium 2].
Proof.
  apply sortByImpactAndFrequency_keeps_ranked.
  repeat first [apply SSorted_nil | apply SSorted_cons
                | apply List.Forall_nil | apply List.Forall_cons];
    unfold Spec.ranksBefore; simpl;
    first [left; exact I | right; split; [reflexivity | lia]].
Defined.

Lemma ranked_blocks (crashes : list CrashSummary.t) :
  StronglySorted Spec.ranksBefore crashes ->
  crashes = (filterByImpact crashes high ++ filterByImpact crashes medium
             ++ filterByImpact crashes low)%list.
Proof.
  unfold filterByImpact.
  induction 1 as [|x l Hs IH Hx]; [reflexivity|].
  assert (Hnone : forall level,
            Spec.outranks level (CrashSummary.impact x) ->
            List.filter (fun crash => bool_decide (CrashSummary.impact crash = level)) l
            = []).
  { intros level Hlevel. apply filter_none. intros y Hy.
    apply bool_decide_eq_false. intros Heq.
    pose proof (proj1 (List.Forall_forall _ _) Hx y Hy) as Hr.
    unfold Spec.ranksBefore in Hr. rewrite Heq in Hr.
    destruct level, (CrashSummary.impact x); simpl in *;
      destruct Hr as [Hr|[Hr _]]; try contradiction; discriminate. }
  simpl. destruct (CrashSummary.impact x) eqn:Ex; simpl.
  - now rewrite <- IH.
  - rewrite (Hnone high I) in *. simpl in *. now rewrite <- IH.
  - rewrite (Hnone high I), (Hnone medium I) in *. simpl in *. now rewrite <- IH.
Qed.

(** X5. The ranked list is its [high] summaries, then its [medium]
    ones, then its [low] ones; filtering by impact after ranking gives
    what ranking after filtering gives; ranking twice is ranking once. *)
Theorem ranking_and_filterByImpact (crashes : list CrashSummary.t) :
  let ranked := sortByImpactAndFrequency crashes in
  ranked = (filterByImpact ranked high ++ filterByImpact ranked medium
            ++ filterByImpact ranked low)%list
  /\ (forall level,
        filterByImpact ranked level
        = sortByImpactAndFrequency (filterByImpact crashes level))
  /\ sortByImpactAndFrequency ranked = ranked.
Proof.
  intros ranked. subst ranked. unfold sortByImpactAndFrequency.
  assert (Hs : StronglySorted (fun a b => compareImpactAndFrequency a b <= 0)
                 (JSArray.sort compareImpactAndFrequency crashes)).
  { apply sort_sorted.
    - apply compareImpactAndFrequency_total.
    - apply compareImpactAndFrequency_trans. }
  repeat split.
  - apply ranked_blocks.
    eapply StronglySorted_impl; [|exact Hs]. intros a b. apply compare_le_ranksBefore.
  - intros level. unfold filterByImpact. apply sort_filter_commute.
    + apply compareImpactAndFrequency_trans.
    + apply compareImpactAndFrequency_total.
  - now apply sort_sorted_id.
Qed.

Lemma length_append (a b : string) :
  String.length (a +:+ b) = (String.length a + String.length b)%nat.
Proof.
  induction a as [|c a IH]; [reflexivity|].
  change (String c a +:+ b) with (String c (a +:+ b)). simpl. now rewrite IH.
Qed.

Lemma length_substring_0 (n : nat) (s : string) :
  (String.length (String.substring 0 n s) <= n)%nat.
Proof.
  revert s. induction n as [|n IH]; intros [|c s]; simpl; try lia.
  specialize (IH s). lia.
Qed.

Lemma split_nonempty (sep : ascii) (s : string) : JSString.split sep s <> [].
Proof.
  destruct s as [|c s]; simpl; [discriminate|].
  destruct (Ascii.eqb c sep); [discriminate|].
  destruct (JSString.split sep s); discriminate.
Qed.

Lemma pop_split (sep : ascii) (s : string) :
  exists segment,
    JSString.pop (JSString.split sep s) = Some segment
    /\ unitFree sep segment = true
    /\ ((JSString.split sep s = [segment] /\ s = segment)
        \/ (exists qualifier p rest,
              s = qualifier +:+ String sep segment
              /\ JSString.split sep s = p :: rest
              /\ last rest = Some segment)).
Proof.
  unfold JSString.pop. induction s as [|c s IH].
  - exists "". simpl. auto.
  - destruct IH as (segment & Hlast & Hfree & Hshape). simpl.
    destruct (Ascii.eqb c sep) eqn:Ec.
    + apply Ascii.eqb_eq in Ec. subst c. exists segment.
      assert (Hl : last ("" :: JSString.split sep s) = Some segment).
      { destruct (JSString.split sep s); [discriminate | exact Hlast]. }
      repeat split; auto. right.
      destruct Hshape as [[Hsplit ->]|(qualifier & p & rest & -> & Hsplit & Hrest)].
      * exists "", "", (JSString.split sep segment). auto.
      * exists (String sep qualifier), "", (JSString.split sep (qualifier +:+ String sep segment)).
        auto.
    + destruct Hshape as [[Hsplit ->]|(qualifier & p & rest & -> & Hsplit & Hrest)].
      * rewrite Hsplit. exists (String c segment). simpl. rewrite Ec, Hfree. auto.
      * rewrite Hsplit. exists segment. repeat split; auto.
        -- destruct rest; [discriminate | exact Hrest].
        -- right. exists (String c qualifier), (String c p), rest. auto.
Qed.

(** X6. The title [generateCrashTitle] builds starts with the short
    type. The exception type ends with a part that holds no dot: the whole
    type, or what follows its last dot. The short type is that part when
    it is not empty, and the whole type otherwise. Without a message the
    short type is the whole title; with one, ": " and the message follow,
    cut to 47 code units and "..." when it has more than 50, so that this
    part never exceeds 50. *)
Theorem generateCrashTitle_shape (exceptionType message : string) :
  exists segment shortType,
    unitFree "." segment = true
    /\ (exceptionType = segment
        \/ exists qualifier, exceptionType = qualifier +:+ "." +:+ segment)
    /\ shortType = (if String.eqb segment "" then exceptionType else segment)
    /\ (message = "" -> generateCrashTitle exceptionType message = shortType)
    /\ (message <> "" ->
        exists shortMessage,
          generateCrashTitle exceptionType message
          = shortType +:+ ": " +:+ shortMessage
          /\ (0 < String.length shortMessage <= 50)%nat
          /\ ((String.length message <= 50)%nat -> shortMessage = message)
          /\ ((50 < String.length message)%nat ->
              shortMessage = String.substring 0 47 message +:+ "...")).
Proof.
  unfold generateCrashTitle.
  destruct (pop_split "." exceptionType) as (segment & -> & Hfree & Hshape).
  exists segment, (JSString.orOpt (Some segment) exceptionType).
  split; [exact Hfree|]. split; [|split; [|split]].
  - destruct Hshape as [[_ ->]|(qualifier & p & rest & -> & _)]; [now left|].
    right. exists qualifier. reflexivity.
  - unfold JSString.orOpt, JSString.or, JSString.truthy.
    destruct (String.eqb segment ""); reflexivity.
  - intros ->. reflexivity.
  - intros Hne. unfold JSString.truthy.
    destruct (String.eqb_spec message "") as [->|_]; [contradiction|]. simpl.
    destruct (Nat.ltb_spec 50 (String.length message)) as [Hlong|Hshort].
    + exists (String.substring 0 47 message +:+ "...").
      assert (Hlen : (3 <= String.length (String.substring 0 47 message +:+ "...")
                      <= 50)%nat).
      { rewrite length_append. pose proof (length_substring_0 47 message). simpl. lia. }
      destruct (String.eqb_spec (String.substring 0 47 message +:+ "...") "") as [E|_].
      { rewrite E in Hlen. simpl in Hlen. lia. }
      simpl. repeat split; try lia; auto.
    + exists message.
      destruct (String.eqb_spec message "") as [->|_]; [contradiction|]. simpl.
      repeat split; auto; try lia.
      destruct message; [contradiction | simpl; lia].
Qed.

(** The short type of three exception types: a qualified one, one
    without a dot, and one that ends with a dot. *)
Example generateCrashTitle_short_types :
  generateCrashTitle "com.example.FooException" "" = "FooException"
  /\ generateCrashTitle "FooException" "" = "FooException"
  /\ generateCrashTitle "com.example." "" = "com.example.".
Proof. repeat split; reflexivity. Qed.

Lemma orOpt_nonempty (o : option string) (d : string) :
  d <> "" -> JSString.orOpt o d <> "".
Proof.
  intros Hd. unfold JSString.orOpt, JSString.or, JSString.truthy.
  destruct o as [s|]; [|exact Hd].
  destruct (String.eqb_spec s ""); simpl; auto.
Qed.

Lemma countDevice_labels (state : JSMap.t N * N) (stat : StatRow.t) :
  Forall (fun entry => fst entry <> "") (fst state) ->
  Forall (fun entry => fst entry <> "") (fst (countDevice state stat)).
Proof.
  destruct state as [deviceMap totalCrashes]. simpl. intros H.
  apply (Forall_set (fun entry => fst entry <> "")); [exact H|].
  simpl. apply orOpt_nonempty. discriminate.
Qed.

Lemma percentage_range (p : float) (part total : N) :
  (part <= total)%N -> (0 < total)%N -> Spec.isPercentage p part total ->
  (0 <= Number.real p <= 100)%Q.
Proof.
  intros Hle Hpos (h & Hp & _ & Hh & Hv).
  apply Qabs_Qle_condition in Hh. apply Qabs_Qle_condition in Hv.
  assert (HT : (0 < inject_Z (Z.of_N total))%Q).
  { change 0%Q with (inject_Z 0). rewrite <- Zlt_Qlt. lia. }
  set (x := (inject_Z (Z.of_N part) / inject_Z (Z.of_N total))%Q) in *.
  assert (Hx : (inject_Z 10000 * inject_Z (Z.of_N part) / inject_Z (Z.of_N total)
                == x * 10000)%Q).
  { subst x. change (inject_Z 10000) with 10000%Q. field. lra. }
  rewrite Hx in Hh.
  assert (Hx01 : (0 <= x <= 1)%Q).
  { subst x. split.
    - apply Qle_shift_div_l; [exact HT|]. rewrite Qmult_0_l.
      change 0%Q with (inject_Z 0). rewrite <- Zle_Qle. lia.
    - apply Qle_shift_div_r; [exact HT|]. rewrite Qmult_1_l. rewrite <- Zle_Qle. lia. }
  assert (Hh0 : 0 <= h).
  { apply Z.lt_pred_le. rewrite Zlt_Qlt. change (inject_Z (Z.pred 0)) with (-1)%Q. lra. }
  assert (Hh1 : h <= 10000).
  { apply Z.lt_succ_r. rewrite Zlt_Qlt. change (inject_Z (Z.succ 10000)) with 10001%Q. lra. }
  destruct (Z.eq_dec h 0) as [->|Hn0].
  { subst p. split; apply Qle_bool_imp_le; reflexivity. }
  destruct (Z.eq_dec h 10000) as [->|Hn1].
  { subst p. split; apply Qle_bool_imp_le; vm_compute; reflexivity. }
  assert (Hq0 : (1 <= inject_Z h)%Q).
  { change 1%Q with (inject_Z 1). rewrite <- Zle_Qle. lia. }
  assert (Hq1 : (inject_Z h <= 9999)%Q).
  { change 9999%Q with (inject_Z 9999). rewrite <- Zle_Qle. lia. }
  set (y := (inject_Z h / inject_Z 100)%Q) in *.
  assert (Hy : (y * 100 == inject_Z h)%Q).
  { subst y. change (inject_Z 100) with 100%Q. field. }
  split; lra.
Qed.

(** X9. For a statistics table whose grand total is below 2^53, every
    entry of [aggregateDeviceStats] has a label that is not empty, a
    count no larger than the grand total, and a percentage that is a
    finite binary64 value between 0 and 100, and 0 when the grand total
    is 0. *)
Theorem aggregateDeviceStats_entries (crashStats : list StatRow.t) :
  (Spec.grandTotal crashStats < 2 ^ 53)%N ->
  Forall (fun d =>
            DeviceStat.device d <> ""
            /\ (DeviceStat.crash_count d <= Spec.grandTotal crashStats)%N
            /\ Number.isFinite (DeviceStat.percentage d) = true
            /\ (0 <= Number.real (DeviceStat.percentage d) <= 100)%Q
            /\ (Spec.grandTotal crashStats = 0%N ->
                DeviceStat.percentage d = 0%float))
    (aggregateDeviceStats crashStats).
Proof.
  intros Hexact. unfold aggregateDeviceStats.
  pose proof (deviceTotals_fold crashStats) as Hfold.
  assert (Hlabels : Forall (fun entry => fst entry <> "")
                      (fst (fold_left countDevice crashStats ([], 0%N)))).
  { apply (fold_left_invariant countDevice
             (fun state => Forall (fun entry => fst entry <> "") (fst state)));
      [constructor|]. intros s r. apply countDevice_labels. }
  destruct (fold_left countDevice crashStats ([], 0%N)) as [deviceMap totalCrashes].
  destruct Hfold as (Htot & _ & _ & Hlab & _).
  simpl in Htot, Hlab, Hlabels. subst totalCrashes.
  unfold JSArray.slice0, JSMap.entries.
  set (all := map _ deviceMap).
  set (entry_ok := fun d : DeviceStat.t =>
            DeviceStat.device d <> ""
            /\ (DeviceStat.crash_count d <= Spec.grandTotal crashStats)%N
            /\ Number.isFinite (DeviceStat.percentage d) = true
            /\ (0 <= Number.real (DeviceStat.percentage d) <= 100)%Q
            /\ (Spec.grandTotal crashStats = 0%N ->
                DeviceStat.percentage d = 0%float)).
  assert (Hall : Forall entry_ok all).
  { subst all. apply Forall_map. apply List.Forall_forall.
    intros [label count] Hin. unfold entry_ok.
    cbn [DeviceStat.device DeviceStat.crash_count DeviceStat.percentage].
    assert (Hle : (count <= Spec.grandTotal crashStats)%N).
    { rewrite (Hlab _ _ Hin). apply labelTotal_le_grandTotal. }
    split; [apply (proj1 (List.Forall_forall _ _) Hlabels _ Hin)|].
    split; [exact Hle|].
    destruct (N.eq_dec (Spec.grandTotal crashStats) 0%N) as [Hz|Hnz].
    - unfold percentageOf. rewrite Hz.
      split; [reflexivity|]. split; [|reflexivity].
      split; apply Qle_bool_imp_le; reflexivity.
    - assert (Hpos : (0 < Spec.grandTotal crashStats)%N) by lia.
      pose proof (percentageOf_isPercentage count _ Hle Hpos Hexact) as Hp.
      split; [|split; [|intros; contradiction]].
      + destruct Hp as (h & _ & Hfin & _). exact Hfin.
      + exact (percentage_range _ _ _ Hle Hpos Hp). }
  assert (Hsorted : Forall entry_ok (JSArray.sort compareDeviceStats all)).
  { eapply Permutation_Forall; [symmetry; apply sort_Permutation | exact Hall]. }
  rewrite <- (firstn_skipn 10 (JSArray.sort compareDeviceStats all)) in Hsorted.
  apply Forall_app in Hsorted. tauto.
Qed.

(** X9, witness: two labels and a row without a label, 12 crashes. *)
Lemma aggregateDeviceStats_entries_witness :
  Forall (fun d => (0 <= Number.real (DeviceStat.percentage d) <= 100)%Q)
    (aggregateDeviceStats
       [StatRow.mk (Some "Pixel 7") (Some 7%N);
        StatRow.mk None (Some 2%N);
        StatRow.mk (Some "Galaxy S23") (Some 3%N)]).
Proof.
  eapply List.Forall_impl;
    [|apply (aggregateDeviceStats_entries
               [StatRow.mk (Some "Pixel 7") (Some 7%N);
                StatRow.mk None (Some 2%N);
                StatRow.mk (Some "Galaxy S23") (Some 3%N)]); reflexivity].
  intros d H. apply H.
Defined.

(** X10. The trend report built from the summaries of
    [processCrashRows], as the trend handler builds it, lists at most 10
    top crashes: the summaries in ranked order, cut after the tenth. *)
Theorem trend_report_top_crashes (this : CrashProcessor.t)
    (crashStats : list StatRow.t) (crashFreeCounts : list CrashFreeRow.t)
    (rows : list BigQueryCrashRow.t) (timeRange : string) :
  let report :=
    processTrendAnalysis crashStats crashFreeCounts (processCrashRows this rows)
      timeRange in
  (length (TrendAnalysis.top_crashes report) <= 10)%nat
  /\ exists cut,
       processCrashRows this rows = (TrendAnalysis.top_crashes report ++ cut)%list
       /\ StronglySorted Spec.ranksBefore (TrendAnalysis.top_crashes report ++ cut)
       /\ (cut = [] \/ length (TrendAnalysis.top_crashes report) = 10%nat).
Proof.
  intros report. subst report. unfold processTrendAnalysis.
  cbn [TrendAnalysis.top_crashes]. unfold JSArray.slice0.
  split; [apply firstn_le_length|].
  exists (skipn 10 (processCrashRows this rows)).
  rewrite firstn_skipn. repeat split.
  - unfold processCrashRows, sortByImpactAndFrequency.
    eapply StronglySorted_impl; [intros a b; apply compare_le_ranksBefore|].
    apply sort_sorted.
    + apply compareImpactAndFrequency_total.
    + apply compareImpactAndFrequency_trans.
  - destruct (le_lt_dec (length (processCrashRows this rows)) 10) as [Hle|Hlt].
    + left. now apply skipn_all2.
    + right. rewrite length_firstn. lia.
Qed.

Section FloatFacts.
Local Open Scope float_scope.

Lemma Prim2SF_10 : Prim2SF 10 = S754_finite false 5629499534213120 (-49).
Proof. reflexivity. Qed.

Lemma Prim2SF_minus_10 : Prim2SF (-10) = S754_finite true 5629499534213120 (-49).
Proof. reflexivity. Qed.

(** [x - x] is +0 for a finite [x]. *)
Lemma sub_self (x : float) (s : bool) (m : positive) (e : Z) :
  Prim2SF x = S754_finite s m e -> Prim2SF (x - x) = S754_zero false.
Proof.
  intros H. rewrite sub_spec, H. unfold SF64sub, SFsub.
  rewrite Z.min_id, Z.sub_diag. reflexivity.
Qed.

(** The quotient of a number that is zero or negative by a positive
    finite one is not positive. *)
Lemma nonpositive_quotient (x n : float) (m : positive) (e : Z) :
  (x <=? 0) = true -> Prim2SF n = S754_finite false m e ->
  Number.gt (x / n) 0 = false.
Proof.
  unfold Number.gt. rewrite leb_spec, ltb_spec, div_spec, Prim2SF_0. intros Hx ->.
  unfold SF64div, SFdiv.
  destruct (Prim2SF x) as [s|[]| |[] mx ex]; try discriminate Hx; try reflexivity.
  destruct (SFdiv_core_binary prec emax _ _ _ _) as [[mz ez] lz].
  pose proof (round_aux_sign (xorb true false) mz ez lz) as Hs.
  destruct (binary_round_aux prec emax _ mz ez lz) as [s|s| |s m' e'];
    try reflexivity; simpl in Hs; subst s; reflexivity.
Qed.

(** The label that the three tests of [identifyTrends] give a rate, for
    a threshold [c * 2^ec]. *)
Lemma rate_label_spec (r : spec_float) (c : positive) (ec : Z) :
  if SFltb (SFabs r) (S754_finite false c ec)
  then SFltb (S754_finite true c ec) r = true
       /\ SFltb r (S754_finite false c ec) = true
  else if SFltb (S754_zero false) r then SFleb (S754_finite false c ec) r = true
       else SFleb r (S754_finite true c ec) = true \/ negb (SFeqb r r) = true.
Proof.
  unfold SFltb, SFleb, SFeqb, SFabs, SFcompare.
  destruct r as [s|[]| |[] m e]; auto.
  - rewrite (Z.compare_antisym e ec).
    replace (Pos.compare_cont Eq c m) with (CompOpp (Pos.compare_cont Eq m c))
      by apply (Pos.compare_cont_antisym m c Eq).
    destruct (e ?= ec)%Z; cbn [CompOpp]; auto.
    destruct (Pos.compare_cont Eq m c); cbn [CompOpp]; auto.
  - rewrite (Z.compare_antisym e ec).
    replace (Pos.compare_cont Eq c m) with (CompOpp (Pos.compare_cont Eq m c))
      by apply (Pos.compare_cont_antisym m c Eq).
    destruct (e ?= ec)%Z; cbn [CompOpp]; auto.
    destruct (Pos.compare_cont Eq m c); cbn [CompOpp]; auto.
Qed.

Lemma rate_label (rate : float) :
  if abs rate <? 10
  then (-10 <? rate) = true /\ (rate <? 10) = true
  else if Number.gt rate 0 then (10 <=? rate) = true
       else (rate <=? -10) = true \/ is_nan rate = true.
Proof.
  unfold Number.gt, is_nan.
  rewrite !ltb_spec, !leb_spec, FloatAxioms.eqb_spec, abs_spec, Prim2SF_0, Prim2SF_10,
    Prim2SF_minus_10.
  apply rate_label_spec.
Qed.

(** A rate measured against itself is 0, unless it is [+Infinity]. *)
Lemma self_change (r : float) :
  r <> infinity ->
  (if Number.gt r 0 then (r - r) / r * 100 else 0) = 0.
Proof.
  intros Hinf. unfold Number.gt.
  destruct (0 <? r) eqn:E; [|reflexivity].
  rewrite ltb_spec, Prim2SF_0 in E. unfold SFltb, SFcompare in E.
  destruct (Prim2SF r) as [s|[]| |[] m e] eqn:Er; try discriminate E.
  - exfalso. apply Hinf. apply Prim2SF_inj. rewrite Er. reflexivity.
  - apply Prim2SF_inj.
    rewrite mul_spec, div_spec, (sub_self r false m e Er), Er. reflexivity.
Qed.

End FloatFacts.

(** X11. [calculateCrashFreeRate] returns 100 without users, for a total
    of 0 or -0, whatever the number of crashed users: it does not divide
    by zero. With a total that is finite and not zero, of which every user
    crashed, it returns a zero. *)
Theorem calculateCrashFreeRate_ends (totalUsers : float) :
  ((totalUsers =? 0)%float = true ->
   forall crashedUsers : float,
     calculateCrashFreeRate totalUsers crashedUsers = 100%float)
  /\ (Number.isFinite totalUsers = true -> (totalUsers =? 0)%float = false ->
      (calculateCrashFreeRate totalUsers totalUsers =? 0)%float = true).
Proof.
  unfold calculateCrashFreeRate. split.
  - intros ->. reflexivity.
  - intros Hfin Hne. rewrite Hne.
    unfold Number.isFinite in Hfin.
    rewrite FloatAxioms.eqb_spec, Prim2SF_0 in Hne.
    rewrite FloatAxioms.eqb_spec, mul_spec, div_spec, Prim2SF_0.
    destruct (Prim2SF totalUsers) as [s|s| |s m e] eqn:Et; try discriminate.
    rewrite (sub_self totalUsers s m e Et).
    destruct s; reflexivity.
Qed.

(** The rate in binary64: one crashed user of 2^54 is lost in the
    subtraction, and the rate is 100; 40 crashed users of 40 give 0. *)
Example calculateCrashFreeRate_examples :
  calculateCrashFreeRate (Number.of_Z (2 ^ 54)) 1 = 100%float
  /\ calculateCrashFreeRate 40 40 = 0%float
  /\ calculateCrashFreeRate 0 7 = 100%float.
Proof. repeat split; reflexivity. Qed.

Lemma slice_suffix {A : Type} (start : Z) (stop : option Z) (older l : list A) :
  start < 0 -> - start <= Z.of_nat (length l) ->
  match stop with
  | Some e => e < 0 /\ - e <= Z.of_nat (length l)
  | None => True
  end ->
  JSArray.slice start stop (older ++ l) = JSArray.slice start stop l.
Proof.
  intros Hneg Hlen Hstop. unfold JSArray.slice. rewrite length_app, Nat2Z.inj_add.
  set (p := Z.of_nat (length older)). set (n := Z.of_nat (length l)) in *.
  assert (Hs : (start <? 0) = true) by now apply Z.ltb_lt.
  rewrite Hs.
  assert (Hp : 0 <= p) by (subst p; lia).
  replace (Z.max (p + n + start) 0) with (p + (n + start)) by lia.
  replace (Z.max (n + start) 0) with (n + start) by lia.
  assert (Hskip : skipn (Z.to_nat (p + (n + start))) (older ++ l)
                  = skipn (Z.to_nat (n + start)) l).
  { rewrite skipn_app.
    rewrite skipn_all2 by (subst p; lia). simpl. f_equal. subst p. lia. }
  rewrite Hskip. f_equal. f_equal.
  destruct stop as [e|]; [|lia].
  destruct Hstop as [He Hle]. apply Z.ltb_lt in He. rewrite He. lia.
Qed.

Lemma slice_older_short {A : Type} (l : list A) :
  (length l <= 3)%nat -> JSArray.slice (-6) (Some (-3)) l = [].
Proof.
  intros H. unfold JSArray.slice.
  change (-6 <? 0) with true. change (-3 <? 0) with true. cbv iota.
  replace (Z.to_nat _) with 0%nat by lia. reflexivity.
Qed.

Lemma slice_recent_short {A : Type} (l : list A) :
  (length l <= 3)%nat -> JSArray.slice (-3) None l = l.
Proof.
  intros H. unfold JSArray.slice. change (-3 <? 0) with true. cbv iota.
  replace (Z.max (Z.of_nat (length l) + -3) 0) with 0 by lia.
  simpl skipn. apply firstn_all2. lia.
Qed.

Lemma slice_older_length {A : Type} (l : list A) :
  (length (JSArray.slice (-6)%Z (Some (-3)%Z) l) <= 3)%nat.
Proof.
  unfold JSArray.slice. change (-6 <? 0) with true. change (-3 <? 0) with true.
  cbv iota. rewrite length_firstn. lia.
Qed.

(** X12. The label of [identifyTrends] agrees with its change rate, in
    binary64: [increasing] from 10 up, [stable] strictly between -10 and
    10, and [decreasing] from -10 down or when the rate is [NaN], which
    fails every test. *)
Theorem identifyTrends_label (crashCounts : list CrashCount.t) :
  let change := identifyTrends crashCounts in
  let rate := TrendChange.changeRate change in
  match TrendChange.trend change with
  | increasing => (10 <=? rate)%float = true
  | stable => (-10 <? rate)%float = true /\ (rate <? 10)%float = true
  | decreasing => (rate <=? -10)%float = true \/ PrimFloat.is_nan rate = true
  end.
Proof.
  unfold identifyTrends.
  destruct (length crashCounts <? 2)%nat; cbv zeta.
  - simpl. split; reflexivity.
  - set (changeRate := if Number.gt _ 0 then _ else 0%float).
    pose proof (rate_label changeRate) as H.
    destruct (PrimFloat.abs changeRate <? 10)%float; [exact H|].
    destruct (Number.gt changeRate 0); exact H.
Qed.

(** The rate of the series 3, 3, 4, 3, 4, 4 is just below 10 in binary64
    (9.99...91), so the series is [stable]; three counts of 2^1023
    overflow to an average of [+Infinity], a rate that is [NaN], and
    [decreasing]. *)
Example identifyTrends_examples :
  TrendChange.trend (identifyTrends (map countOf [3; 3; 4; 3; 4; 4])) = stable
  /\ TrendChange.trend
       (identifyTrends (map countOf [2 ^ 1023; 2 ^ 1023; 2 ^ 1023]))
     = decreasing
  /\ TrendChange.trend (identifyTrends (map countOf [10; 10; 10; 20; 20; 20]))
     = increasing.
Proof. repeat split; vm_compute; reflexivity. Qed.

(** X13. [identifyTrends] needs a positive older window. With three
    entries or fewer the recent average is measured against itself, and
    unless it overflows to [+Infinity] the result is [stable] with change
    rate 0; when the older window (the three entries before the last
    three) is not empty and its counts do not add up to more than 0, the
    result is [stable] with change rate 0, whatever the recent counts. *)
Theorem identifyTrends_without_baseline (crashCounts : list CrashCount.t) :
  ((length crashCounts <= 3)%nat
   /\ (sumCounts crashCounts / Number.of_Z (Z.of_nat (length crashCounts)))%float
      <> infinity)
  \/ (JSArray.slice (-6)%Z (Some (-3)%Z) crashCounts <> []
      /\ (sumCounts (JSArray.slice (-6)%Z (Some (-3)%Z) crashCounts) <=? 0)%float
         = true) ->
  identifyTrends crashCounts
  = {| TrendChange.trend := stable; TrendChange.changeRate := 0%float |}.
Proof.
  intros H. unfold identifyTrends.
  destruct (length crashCounts <? 2)%nat; cbv zeta; [reflexivity|].
  set (recent := JSArray.slice (-3) None crashCounts).
  set (older := JSArray.slice (-6) (Some (-3)) crashCounts) in *.
  set (recentAvg := (sumCounts recent / Number.of_Z (Z.of_nat (length recent)))%float).
  set (olderAvg := if (0 <? length older)%nat then _ else recentAvg).
  set (changeRate := if Number.gt olderAvg 0 then _ else 0%float).
  assert (Hzero : changeRate = 0%float).
  { subst changeRate. destruct H as [[Hshort Hfin]|[Hsome Hsum]].
    - assert (Ho : older = []) by (subst older; now apply slice_older_short).
      assert (Hr : recent = crashCounts) by (subst recent; now apply slice_recent_short).
      subst olderAvg. rewrite Ho. simpl Nat.ltb. cbv iota.
      apply self_change. subst recentAvg. rewrite Hr. exact Hfin.
    - subst olderAvg.
      assert (Hlen : (0 < length older <= 3)%nat).
      { split; [|subst older; apply slice_older_length].
        destruct older; [contradiction | simpl; lia]. }
      destruct (Nat.ltb_spec 0 (length older)) as [_|Hno]; [|lia].
      destruct (Prim2SF_of_Z (Z.of_nat (length older))) as (m & e & Hn & _).
      { split; [lia|]. apply Z.le_lt_trans with 3; [lia | reflexivity]. }
      now rewrite (nonpositive_quotient _ _ m e Hsum Hn). }
  rewrite Hzero. reflexivity.
Qed.

(** X13, witness: an older window of zeros. *)
Lemma identifyTrends_without_baseline_witness :
  identifyTrends (map countOf [0; 0; 0; 40; 90; 70])
  = {| TrendChange.trend := stable; TrendChange.changeRate := 0%float |}.
Proof.
  apply identifyTrends_without_baseline. right. split.
  - discriminate.
  - reflexivity.
Defined.

(** X14. [identifyTrends] reads the last six entries only: entries
    before them do not change the result. *)
Theorem identifyTrends_last_six (earlier crashCounts : list CrashCount.t) :
  (6 <= length crashCounts)%nat ->
  identifyTrends (earlier ++ crashCounts) = identifyTrends crashCounts.
Proof.
  intros Hlen. unfold identifyTrends.
  rewrite !slice_suffix by (simpl; lia).
  rewrite length_app.
  destruct (Nat.ltb_spec (length earlier + length crashCounts) 2) as [H|_]; [lia|].
  destruct (Nat.ltb_spec (length crashCounts) 2) as [H|_]; [lia|].
  reflexivity.
Qed.

(** X14, witness: nine entries against their last six. *)
Lemma identifyTrends_last_six_witness :
  identifyTrends (map countOf [900; 1; 9; 10; 10; 10; 20; 20; 20])
  = identifyTrends (map countOf [10; 10; 10; 20; 20; 20]).
Proof.
  apply (identifyTrends_last_six (map countOf [900; 1; 9])
           (map countOf [10; 10; 10; 20; 20; 20])).
  simpl. lia.
Defined.

Lemma toString_digit (d : N) : (d < 10)%N -> String.length (Number.toString d) = 1%nat.
Proof.
  intros H.
  assert (Hd : d = 0%N \/ d = 1%N \/ d = 2%N \/ d = 3%N \/ d = 4%N \/ d = 5%N
               \/ d = 6%N \/ d = 7%N \/ d = 8%N \/ d = 9%N) by lia.
  repeat destruct Hd as [->|Hd]; try subst d; reflexivity.
Qed.

Lemma append_assoc_l (a b c : string) : (a +:+ b) +:+ c = a +:+ (b +:+ c).
Proof.
  induction a as [|x a IH]; [reflexivity|].
  change ((String x a +:+ b) +:+ c) with (String x ((a +:+ b) +:+ c)).
  change (String x a +:+ (b +:+ c)) with (String x (a +:+ (b +:+ c))).
  now rewrite IH.
Qed.

Section Exact.
Local Abbreviation pow2 := Number.pow2.

Lemma SFdiv_core_pow2 (m : positive) (e e2 : Z) :
  Zpos (digits2_pos m) = 53 -> -1021 <= e - e2 <= 1023 ->
  SFdiv_core_binary prec emax (Zpos m) e 4503599627370496 e2
  = (Zpos m~0, e - e2 - 53, loc_Exact).
Proof.
  intros Hd Hr. unfold SFdiv_core_binary. cbv zeta. cbn [Zdigits2].
  rewrite Hd. change (Zpos (digits2_pos 4503599627370496)) with 53.
  replace (53 + e - (53 + e2)) with (e - e2) by lia.
  assert (He' : Z.min (fexp prec emax (e - e2)) (e - e2) = e - e2 - 53).
  { unfold fexp, emin, prec, emax. lia. }
  rewrite He'. replace (e - e2 - (e - e2 - 53)) with 53 by lia. cbv iota.
  rewrite Z.shiftl_mul_pow2 by lia.
  assert (Hq : Z.div_eucl (Zpos m * 2 ^ 53) 4503599627370496 = (Zpos m~0, 0)).
  { assert (H : Z.div_eucl (Zpos m * 2 ^ 53) 4503599627370496
                = ((Zpos m * 2 ^ 53) / 4503599627370496,
                   (Zpos m * 2 ^ 53) mod 4503599627370496)).
    { unfold Z.div, Z.modulo.
      destruct (Z.div_eucl (Zpos m * 2 ^ 53) 4503599627370496). reflexivity. }
    rewrite H. f_equal.
    - symmetry. apply Z.div_unique with (r := 0); lia.
    - symmetry. apply Z.mod_unique with (q := Zpos m~0); lia. }
  rewrite Hq. reflexivity.
Qed.

(** An even mantissa of 54 bits is halved without rounding. *)
Lemma round_even_exact (m : positive) (e : Z) :
  Zpos (digits2_pos m) = 53 -> -1074 <= e + 1 <= 971 ->
  binary_round_aux prec emax false (Zpos m~0) e loc_Exact
  = S754_finite false m (e + 1).
Proof.
  intros Hd Hr. unfold binary_round_aux, shr_fexp. cbn [Zdigits2 digits2_pos].
  rewrite Pos2Z.inj_succ, Hd.
  assert (H1 : fexp prec emax (Z.succ 53 + e) - e = 1).
  { unfold fexp, emin, prec, emax. lia. }
  rewrite H1. cbn [shr shr_record_of_loc SpecFloat.iter_pos shr_1 shr_m
                   loc_of_shr_record round_nearest_even Zdigits2 orb].
  rewrite Hd.
  assert (H2 : fexp prec emax (53 + (e + 1)) - (e + 1) = 0).
  { unfold fexp, emin, prec, emax. lia. }
  rewrite H2. cbn [shr shr_record_of_loc shr_m].
  assert (Hle : (e + 1 <=? emax - prec) = true).
  { apply Z.leb_le. unfold emax, prec. lia. }
  now rewrite Hle.
Qed.

(** The quotient of a 53-bit mantissa by a power of two is exact. *)
Lemma SFdiv_pow2 (m : positive) (e e2 : Z) :
  Zpos (digits2_pos m) = 53 -> -1021 <= e - e2 <= 1023 ->
  SFdiv prec emax (S754_finite false m e) (S754_finite false 4503599627370496 e2)
  = S754_finite false m (e - e2 - 52).
Proof.
  intros Hd Hr. unfold SFdiv. rewrite (SFdiv_core_pow2 m e e2 Hd Hr).
  cbn [xorb]. rewrite (round_even_exact m (e - e2 - 53) Hd) by lia.
  f_equal. lia.
Qed.

(** A 53-bit mantissa at exponent [e] is at least 1 when [-52 <= e]. *)
Lemma one_leb_normal (m : positive) (e : Z) :
  Zpos (digits2_pos m) = 53 ->
  SFleb (S754_finite false 4503599627370496 (-52)) (S754_finite false m e)
  = (-52 <=? e).
Proof.
  intros Hd. unfold SFleb, SFcompare.
  destruct (Z.compare_spec (-52) e) as [<-|Hlt|Hgt].
  - pose proof (digits2_pos_bounds m) as [Hlow _]. rewrite Hd in Hlow.
    change (2 ^ (53 - 1)) with 4503599627370496 in Hlow.
    change (Pos.compare_cont Eq 4503599627370496 m)
      with (Z.compare 4503599627370496 (Zpos m)).
    destruct (Z.compare_spec 4503599627370496 (Zpos m)); [reflexivity|reflexivity|lia].
  - symmetry. apply Z.leb_le. lia.
  - symmetry. apply Z.leb_gt. lia.
Qed.


Lemma Prim2SF_1 : Prim2SF 1 = S754_finite false 4503599627370496 (-52).
Proof. reflexivity. Qed.

Lemma Prim2SF_MiB : Prim2SF (1024 * 1024) = S754_finite false 4503599627370496 (20 - 52).
Proof. reflexivity. Qed.

Lemma Prim2SF_GiB :
  Prim2SF (1024 * 1024 * 1024) = S754_finite false 4503599627370496 (30 - 52).
Proof. reflexivity. Qed.

(** [Number(z) / 2^k] is exact for a positive [z] below 2^53, and it is
    at least 1 exactly when [2^k <= z]. *)
Lemma quotient_pow2 (z : Z) (unit : float) (k : Z) :
  0 < z < 2 ^ 53 -> 0 <= k <= 60 ->
  Prim2SF unit = S754_finite false 4503599627370496 (k - 52) ->
  exists m e,
    Prim2SF (Number.of_Z z / unit) = S754_finite false m e
    /\ (inject_Z (Zpos m) * pow2 e == inject_Z z / inject_Z (2 ^ k))%Q
    /\ Number.ge (Number.of_Z z / unit) 1 = (2 ^ k <=? z).
Proof.
  intros Hz Hk Hunit.
  destruct (Prim2SF_of_Z_normal z Hz) as (m & e & Hp & Hv & Hd & He & Hb).
  assert (Hq : Prim2SF (Number.of_Z z / unit) = S754_finite false m (e - k)).
  { rewrite div_spec, Hp, Hunit. unfold SF64div.
    rewrite (SFdiv_pow2 m e (k - 52) Hd) by lia. f_equal. lia. }
  exists m, (e - k). split; [exact Hq|]. split.
  - replace (e - k) with (e + - k) by lia.
    rewrite pow2_add, Qmult_assoc, Hv.
    unfold Number.pow2. rewrite Qpower_opp. fold (pow2 k).
    rewrite <- (pow2_Z k) by lia. reflexivity.
  - unfold Number.ge. rewrite leb_spec, Hq, Prim2SF_1, (one_leb_normal m _ Hd).
    destruct (Z.leb_spec (2 ^ k) z) as [Hge|Hlt].
    + apply Z.leb_le.
      destruct (Z_lt_le_dec (e - k) (-52)) as [Hsmall|]; [|assumption].
      assert (2 ^ (e + 53) <= 2 ^ k) by (apply Z.pow_le_mono_r; lia). lia.
    + apply Z.leb_gt.
      destruct (Z_lt_le_dec (e - k) (-52)) as [|Hbig]; [assumption|].
      assert (2 ^ k <= 2 ^ (e + 52)) by (apply Z.pow_le_mono_r; lia). lia.
Qed.

(** [toFixed] of a positive value below 10^21: the nearest decimal, a tie
    going up. *)
Lemma toFixed_small (x : float) (m : positive) (e : Z) (w : Q) (digits : nat) :
  Prim2SF x = S754_finite false m e ->
  (inject_Z (Zpos m) * pow2 e == w)%Q -> (w < inject_Z (10 ^ 21))%Q ->
  Number.toFixed x digits
  = Number.fixedDigits (Qfloor (w * inject_Z (10 ^ Z.of_nat digits) + (1 # 2))) digits.
Proof.
  intros Hx Hv Hw. unfold Number.toFixed, Number.real. rewrite Hx.
  cbn [Number.SFreal cond_Zopp].
  set (v := (inject_Z (Zpos m) * pow2 e)%Q) in *.
  assert (Hpos : (0 <= v)%Q).
  { subst v. apply Qmult_le_0_compat.
    - change 0%Q with (inject_Z 0). rewrite <- Zle_Qle. lia.
    - apply Qlt_le_weak, pow2_pos. }
  assert (Habs : (Qabs v == w)%Q) by (rewrite Qabs_pos by exact Hpos; exact Hv).
  destruct (Qle_bool 0 v) eqn:E0.
  2:{ apply Qle_bool_iff in Hpos. congruence. }
  destruct (Qle_bool (inject_Z (10 ^ 21)) (Qabs v)) eqn:E1.
  { apply Qle_bool_iff in E1. rewrite Habs in E1. lra. }
  change ("" +:+ ?s) with s.
  f_equal. apply Qfloor_comp. rewrite Habs. reflexivity.
Qed.

End Exact.

(** X15. For a byte count below 2^53, [formatMemory] prints "Unknown" for
    0 bytes; below 1 GiB the nearest whole number of MiB, at most 1024,
    followed by "MB"; from 1 GiB on the nearest tenth of a GiB, with one
    digit after the point, followed by "GB". *)
Theorem formatMemory_rounds (bytes : Z) :
  0 <= bytes < 2 ^ 53 ->
  (bytes = 0 -> formatMemory bytes = "Unknown")
  /\ (0 < bytes < 1024 * 1024 * 1024 ->
      exists mb,
        formatMemory bytes = Number.toString (Z.to_N mb) +:+ "MB"
        /\ 0 <= mb <= 1024
        /\ 2 * Z.abs (mb * (1024 * 1024) - bytes) <= 1024 * 1024)
  /\ (1024 * 1024 * 1024 <= bytes ->
      exists whole tenth,
        formatMemory bytes
        = Number.toString (Z.to_N whole) +:+ "." +:+ Number.toString (Z.to_N tenth)
          +:+ "GB"
        /\ 1 <= whole /\ 0 <= tenth <= 9
        /\ 2 * Z.abs ((10 * whole + tenth) * (1024 * 1024 * 1024) - 10 * bytes)
           <= 1024 * 1024 * 1024).
Proof.
  intros [H0 H53]. unfold formatMemory. split; [|split].
  - intros ->. reflexivity.
  - intros [Hpos Hlt].
    destruct (Z.eqb_spec bytes 0) as [->|_]; [lia|]. cbv zeta.
    destruct (quotient_pow2 bytes (1024 * 1024 * 1024)%float 30 ltac:(lia) ltac:(lia) Prim2SF_GiB)
      as (_ & _ & _ & _ & ->).
    destruct (Z.leb_spec (2 ^ 30) bytes) as [Hge|_]; [lia|].
    destruct (quotient_pow2 bytes (1024 * 1024)%float 20 ltac:(lia) ltac:(lia) Prim2SF_MiB)
      as (m & e & Hp & Hv & _).
    assert (Hb : (0 < inject_Z bytes)%Q).
    { change 0%Q with (inject_Z 0). rewrite <- Zlt_Qlt. lia. }
    assert (Hb2 : (inject_Z bytes < 1073741824)%Q).
    { change 1073741824%Q with (inject_Z 1073741824). rewrite <- Zlt_Qlt. lia. }
    set (w := (inject_Z bytes / inject_Z (2 ^ 20))%Q) in *.
    assert (Hw : (w * 1048576 == inject_Z bytes)%Q).
    { subst w. change (inject_Z (2 ^ 20)) with 1048576%Q. field. }
    rewrite (toFixed_small _ m e w 0 Hp Hv).
    2:{ change (inject_Z (10 ^ 21)) with 1000000000000000000000%Q. lra. }
    change (inject_Z (10 ^ Z.of_nat 0)) with 1%Q.
    set (n := Qfloor (w * 1 + (1 # 2))).
    pose proof (Qfloor_le (w * 1 + (1 # 2))) as Hlo.
    pose proof (Qlt_floor (w * 1 + (1 # 2))) as Hhi.
    fold n in Hlo, Hhi. rewrite inject_Z_plus in Hhi. change (inject_Z 1) with 1%Q in Hhi.
    exists n. unfold Number.fixedDigits. change (10 ^ Z.of_nat 0) with 1.
    rewrite Z.div_1_r, append_empty_r. split; [reflexivity|].
    assert (Hn1 : 2 * (n * 1048576) <= 2 * bytes + 1048576).
    { rewrite Zle_Qle. rewrite !inject_Z_plus, !inject_Z_mult.
      change (inject_Z 2) with 2%Q. change (inject_Z 1048576) with 1048576%Q. lra. }
    assert (Hn2 : 2 * bytes + 1048576 < 2 * ((n + 1) * 1048576)).
    { rewrite Zlt_Qlt. rewrite !inject_Z_plus, !inject_Z_mult, inject_Z_plus.
      change (inject_Z 2) with 2%Q. change (inject_Z 1048576) with 1048576%Q.
      change (inject_Z 1) with 1%Q. lra. }
    lia.
  - intros Hge.
    destruct (Z.eqb_spec bytes 0) as [->|_]; [lia|]. cbv zeta.
    destruct (quotient_pow2 bytes (1024 * 1024 * 1024)%float 30 ltac:(lia) ltac:(lia) Prim2SF_GiB)
      as (m & e & Hp & Hv & ->).
    destruct (Z.leb_spec (2 ^ 30) bytes) as [_|Hlt]; [|lia].
    assert (Hb : (1073741824 <= inject_Z bytes)%Q).
    { change 1073741824%Q with (inject_Z 1073741824). rewrite <- Zle_Qle. lia. }
    assert (Hb2 : (inject_Z bytes < 9007199254740992)%Q).
    { change 9007199254740992%Q with (inject_Z (2 ^ 53)). rewrite <- Zlt_Qlt. lia. }
    set (w := (inject_Z bytes / inject_Z (2 ^ 30))%Q) in *.
    assert (Hw : (w * 1073741824 == inject_Z bytes)%Q).
    { subst w. change (inject_Z (2 ^ 30)) with 1073741824%Q. field. }
    rewrite (toFixed_small _ m e w 1 Hp Hv).
    2:{ change (inject_Z (10 ^ 21)) with 1000000000000000000000%Q. lra. }
    change (inject_Z (10 ^ Z.of_nat 1)) with 10%Q.
    set (n := Qfloor (w * 10 + (1 # 2))).
    pose proof (Qfloor_le (w * 10 + (1 # 2))) as Hlo.
    pose proof (Qlt_floor (w * 10 + (1 # 2))) as Hhi.
    fold n in Hlo, Hhi. rewrite inject_Z_plus in Hhi. change (inject_Z 1) with 1%Q in Hhi.
    assert (Hn1 : 2 * (n * 1073741824) <= 20 * bytes + 1073741824).
    { rewrite Zle_Qle. rewrite !inject_Z_plus, !inject_Z_mult.
      change (inject_Z 2) with 2%Q. change (inject_Z 20) with 20%Q.
      change (inject_Z 1073741824) with 1073741824%Q. lra. }
    assert (Hn2 : 20 * bytes + 1073741824 < 2 * ((n + 1) * 1073741824)).
    { rewrite Zlt_Qlt. rewrite !inject_Z_plus, !inject_Z_mult, inject_Z_plus.
      change (inject_Z 2) with 2%Q. change (inject_Z 20) with 20%Q.
      change (inject_Z 1073741824) with 1073741824%Q.
      change (inject_Z 1) with 1%Q. lra. }
    pose proof (Z.div_mod n 10) as Hn. pose proof (Z.mod_pos_bound n 10) as Hn10.
    exists (n / 10), (n mod 10).
    unfold Number.fixedDigits. change (10 ^ Z.of_nat 1) with 10.
    rewrite toString_digit by lia.
    change (Number.zeros (1 - 1)) with "".
    split; [|lia].
    change ("." +:+ "" +:+ Number.toString (Z.to_N (n mod 10)))
      with ("." +:+ Number.toString (Z.to_N (n mod 10))).
    now rewrite !append_assoc_l.
Qed.

(** X15, witness: 500 MiB; and 1.5 GiB, evaluated. *)
Lemma formatMemory_rounds_witness :
  formatMemory 1610612736 = "1.5GB"
  /\ exists mb,
       formatMemory 524288000 = Number.toString (Z.to_N mb) +:+ "MB"
       /\ 0 <= mb <= 1024
       /\ 2 * Z.abs (mb * (1024 * 1024) - 524288000) <= 1024 * 1024.
Proof.
  split; [reflexivity|].
  destruct (formatMemory_rounds 524288000) as (_ & Hmb & _).
  - split; [discriminate | reflexivity].
  - apply Hmb. split; reflexivity.
Defined.

Lemma or_nonempty (s d : string) : d <> "" -> JSString.or s d <> "".
Proof.
  intros Hd. unfold JSString.or, JSString.truthy.
  destruct (String.eqb_spec s ""); simpl; auto.
Qed.

Lemma append_nonempty_r (a b : string) : b <> "" -> a +:+ b <> "".
Proof.
  intros Hb H. apply (f_equal String.length) in H. rewrite length_append in H.
  destruct b; [contradiction|]. simpl in H. lia.
Qed.

Lemma formatMemory_nonempty (bytes : Z) : formatMemory bytes <> "".
Proof.
  unfold formatMemory. destruct (bytes =? 0); [discriminate|]. cbv zeta.
  destruct (Number.ge _ _); apply append_nonempty_r; discriminate.
Qed.

(** X16. [extractDeviceInfo] and [extractCrashContext] leave none of
    the fields they default empty: model, OS version, memory, storage, app
    version and session id are never the empty string; the device model is
    passed through when the row has one, and the context carries the same
    device and memory text as the device info, and the row's user id. *)
Theorem device_and_context_fields_filled (JSON_parse : string -> Res JSON)
    (row : BigQueryCrashRow.t) :
  let info := extractDeviceInfo row in
  (DeviceInfo.model info <> "" /\ DeviceInfo.os_version info <> ""
   /\ DeviceInfo.memory_available info <> ""
   /\ DeviceInfo.storage_available info <> "")
  /\ (BigQueryCrashRow.device_model row <> "" ->
      DeviceInfo.model info = BigQueryCrashRow.device_model row)
  /\ forall context,
       extractCrashContext JSON_parse row = Ok context ->
       CrashContext.app_version context <> ""
       /\ CrashContext.os_version context <> ""
       /\ CrashContext.device context = DeviceInfo.model info
       /\ CrashContext.memory_available context = DeviceInfo.memory_available info
       /\ CrashContext.session_id context <> ""
       /\ CrashContext.user_id context = BigQueryCrashRow.user_id row.
Proof.
  intros info. subst info. unfold extractDeviceInfo. simpl. split; [|split].
  - repeat split; try (apply or_nonempty; discriminate);
      apply formatMemory_nonempty.
  - intros Hne. unfold JSString.or, JSString.truthy.
    destruct (String.eqb_spec (BigQueryCrashRow.device_model row) ""); simpl;
      [contradiction | reflexivity].
  - intros context. unfold extractCrashContext.
    destruct (try_catch _ _) as [breadcrumbs|e]; simpl; [|discriminate].
    destruct (try_catch _ _) as [customKeys|e]; simpl; [|discriminate].
    intros [= <-]. simpl.
    repeat split; apply or_nonempty; discriminate.
Qed.

Lemma join_push (sep : string) (parts : list string) (s : string) :
  exists body, JSString.join sep (JSArray.push parts s) = body +:+ s.
Proof.
  unfold JSArray.push. induction parts as [|p parts IH].
  - exists "". reflexivity.
  - destruct IH as [body IH].
    destruct parts as [|q parts].
    + exists (p +:+ sep). simpl. now rewrite append_assoc_l.
    + exists (p +:+ sep +:+ body).
      change (JSString.join sep ((p :: q :: parts) ++ [s]))
        with (p +:+ sep +:+ JSString.join sep ((q :: parts) ++ [s])).
      rewrite IH. now rewrite !append_assoc_l.
Qed.

(** X17. The sentences of [generateFixSuggestionContext] start with the
    one on the class of the top frame ("unknown class" without frames),
    always hold "when a <type> is thrown", and number between 2 and 7;
    without frames the second sentence is the one on the type. The text
    holds the sentence on the type and, with an app version, ends with the
    sentence on the version and a full stop. *)
Theorem generateFixSuggestionContext_shape (exceptionType : string)
    (stackFrames : list StackFrame.t) (crashMessage appVersion : string) :
  let sentences :=
    fixSuggestionSentences exceptionType stackFrames crashMessage appVersion in
  let text :=
    generateFixSuggestionContext exceptionType stackFrames crashMessage appVersion in
  let thrown := "when a " +:+ exceptionType +:+ " is thrown" in
  (exists more,
     sentences
     = ("The crash occurs in "
        +:+ JSString.orOpt (StackFrame.class <$> head stackFrames) "unknown class")
       :: more)
  /\ In thrown sentences
  /\ JSString.includes text thrown = true
  /\ (2 <= length sentences <= 7)%nat
  /\ (stackFrames = [] ->
      exists more,
        sentences = "The crash occurs in unknown class" :: thrown :: more)
  /\ (appVersion <> "" ->
      exists body,
        text = body +:+ "This occurs in app version " +:+ appVersion +:+ ".").
Proof.
  intros sentences text thrown.
  assert (Hthrown : In thrown sentences).
  { subst sentences thrown. unfold fixSuggestionSentences, JSArray.push.
    destruct (head stackFrames) as [frame|];
      repeat match goal with
        | |- context [if ?b then _ else _] => destruct b
        end;
      rewrite ?in_app_iff; simpl; tauto. }
  split; [|split; [exact Hthrown|split; [|split; [|split]]]].
  - subst sentences. unfold fixSuggestionSentences, JSArray.push.
    destruct (head stackFrames) as [frame|];
      repeat match goal with
        | |- context [if ?b then _ else _] => destruct b
        end; simpl; eauto.
  - subst text. unfold generateFixSuggestionContext.
    apply includes_append_r, includes_join. exact Hthrown.
  - subst sentences. unfold fixSuggestionSentences, JSArray.push.
    destruct (head stackFrames) as [frame|];
      repeat match goal with
        | |- context [if ?b then _ else _] => destruct b
        end; simpl; lia.
  - intros ->. subst sentences thrown.
    unfold fixSuggestionSentences, JSArray.push. simpl.
    repeat match goal with
      | |- context [if ?b then _ else _] => destruct b
      end; simpl; eauto.
  - intros Hv. subst text sentences.
    unfold generateFixSuggestionContext, fixSuggestionSentences. cbv zeta.
    assert (Ht : JSString.truthy appVersion = true).
    { unfold JSString.truthy.
      destruct (String.eqb_spec appVersion "") as [->|_]; [contradiction|].
      reflexivity. }
    rewrite Ht.
    match goal with
    | |- context [JSString.join ". " (JSArray.push ?l ?v)] =>
        destruct (join_push ". " l v) as [body ->]
    end.
    exists body. now rewrite !append_assoc_l.
Qed.

Lemma prefix_comparable (p q s : string) :
  String.prefix p s = true -> String.prefix q s = true ->
  String.prefix p q = true \/ String.prefix q p = true.
Proof.
  revert p q. induction s as [|c s IH]; intros p q Hp Hq.
  - destruct p; [left; apply prefix_empty | discriminate].
  - destruct p as [|a p]; [left; apply prefix_empty|].
    destruct q as [|b q]; [right; apply prefix_empty|].
    simpl in Hp, Hq.
    destruct (ascii_dec a c) as [->|]; [|discriminate].
    destruct (ascii_dec b c) as [->|]; [|discriminate].
    simpl. destruct (ascii_dec c c); [|contradiction]. now apply IH.
Qed.

Lemma libraryPrefixes_incomparable (p q : string) :
  In p libraryPrefixes -> In q libraryPrefixes -> p <> q ->
  String.prefix (JSString.toLowerCase p) (JSString.toLowerCase q) = false.
Proof.
  unfold libraryPrefixes. simpl. intros Hp Hq Hne.
  repeat destruct Hp as [<-|Hp]; try contradiction;
    repeat destruct Hq as [<-|Hq]; try contradiction;
    first [reflexivity | now destruct Hne].
Qed.

Lemma firstLibrary_any (prefixes : list string) (className prefix : string) :
  (forall p q, In p prefixes -> In q prefixes -> p <> q ->
     String.prefix (JSString.toLowerCase p) (JSString.toLowerCase q) = false) ->
  In prefix prefixes ->
  JSString.startsWith (JSString.toLowerCase className)
    (JSString.toLowerCase prefix) = true ->
  firstLibrary prefixes className = Some (JSString.dropLast prefix).
Proof.
  unfold JSString.startsWith.
  induction prefixes as [|p prefixes IH]; intros Hinc Hin Hstart; [contradiction|].
  simpl. unfold JSString.startsWith.
  destruct (String.prefix (JSString.toLowerCase p) (JSString.toLowerCase className))
    eqn:Ep.
  - destruct (string_dec p prefix) as [->|Hne]; [reflexivity|].
    exfalso.
    assert (Hp : In p (p :: prefixes)) by now left.
    destruct (prefix_comparable _ _ _ Ep Hstart) as [H|H].
    + rewrite (Hinc p prefix Hp Hin Hne) in H. discriminate.
    + rewrite (Hinc prefix p Hin Hp (not_eq_sym Hne)) in H. discriminate.
  - destruct Hin as [->|Hin]; [congruence|].
    apply IH; auto. intros a b Ha Hb. apply Hinc; now right.
Qed.

Lemma firstLibrary_some (prefixes : list string) (className library : string) :
  firstLibrary prefixes className = Some library ->
  exists prefix,
    In prefix prefixes /\ library = JSString.dropLast prefix
    /\ JSString.startsWith (JSString.toLowerCase className)
         (JSString.toLowerCase prefix) = true.
Proof.
  induction prefixes as [|p prefixes IH]; simpl; [discriminate|].
  destruct (JSString.startsWith _ _) eqn:E.
  - intros [= <-]. exists p. auto.
  - intros H. destruct (IH H) as (prefix & Hin & Hlib & Hstart). eauto.
Qed.

(** X18. [detectLibrary] returns a library exactly when the class name,
    in lower case, starts with the library's name and a dot, for the eight
    names of the table: no two prefixes match one name, so the order of
    the table does not matter. *)
Theorem detectLibrary_iff (className library : string) :
  detectLibrary className = Some library
  <-> In library ["android"; "androidx"; "com.google"; "java"; "kotlin"; "swift";
                  "foundation"; "uikit"]
      /\ JSString.startsWith (JSString.toLowerCase className) (library +:+ ".")
         = true.
Proof.
  unfold detectLibrary. split.
  - intros H. apply firstLibrary_some in H as (prefix & Hin & -> & Hstart).
    unfold libraryPrefixes in Hin. simpl in Hin.
    repeat destruct Hin as [<-|Hin]; try contradiction;
      (split; [simpl; tauto | exact Hstart]).
  - intros [Hin Hstart]. simpl in Hin.
    repeat destruct Hin as [<-|Hin]; try contradiction;
      match type of Hstart with
      | JSString.startsWith _ (?lib +:+ ".") = true =>
          apply (firstLibrary_any libraryPrefixes className (lib +:+ "."));
            [apply libraryPrefixes_incomparable
            | unfold libraryPrefixes; simpl; tauto
            | exact Hstart]
      end.
Qed.

(** X19. For one row, [processCrashDetails] and [processCrashRows] build
    the same summary but for the user count: the details fix it at 1, the
    aggregation counts the distinct user ids that are not empty. When the
    row has a user id the two summaries are equal. Without one the
    aggregation has 0 affected users and the details 1, each classifies
    its own count (with one occurrence), and every other field agrees. *)
Theorem details_summary_and_single_row (JSON_parse : string -> Res JSON)
    (parseStackTrace : string -> StackTrace.t) (this : CrashProcessor.t)
    (row : BigQueryCrashRow.t) :
  exists details aggregated,
    processCrashDetails JSON_parse parseStackTrace this row = Ok details
    /\ processCrashRows this [row] = [aggregated]
    /\ let summary := CrashDetails.crash_summary details in
       (BigQueryCrashRow.user_id row <> "" -> aggregated = summary)
       /\ (BigQueryCrashRow.user_id row = "" ->
           CrashSummary.affected_users aggregated = 0
           /\ CrashSummary.affected_users summary = 1
           /\ CrashSummary.impact aggregated
              = calculateImpactLevel (impactAnalyzer this) 0%float 1%float
                  (BigQueryCrashRow.is_fatal row)
           /\ CrashSummary.impact summary
              = calculateImpactLevel (impactAnalyzer this) 1%float 1%float
                  (BigQueryCrashRow.is_fatal row))
       /\ CrashSummary.id aggregated = CrashSummary.id summary
       /\ CrashSummary.timestamp aggregated = CrashSummary.timestamp summary
       /\ CrashSummary.occurrences aggregated = CrashSummary.occurrences summary
       /\ CrashSummary.app_version aggregated = CrashSummary.app_version summary
       /\ CrashSummary.platform aggregated = CrashSummary.platform summary
       /\ CrashSummary.crash_message aggregated = CrashSummary.crash_message summary
       /\ CrashSummary.is_fatal aggregated = CrashSummary.is_fatal summary
       /\ CrashSummary.title aggregated = CrashSummary.title summary.
Proof.
  unfold processCrashDetails.
  destruct (extractCrashContext_returns JSON_parse row) as [context ->].
  cbn [bind]. eexists. eexists. split; [reflexivity|].
  unfold processCrashRows, groupRows, sortByImpactAndFrequency. simpl fold_left.
  unfold accumulate. simpl JSMap.get. cbv iota. simpl JSMap.set.
  unfold JSMap.values. simpl map. unfold JSArray.sort. simpl foldr.
  split; [reflexivity|]. cbv zeta.
  cbn [CrashDetails.crash_summary].
  unfold summarize, JSString.truthy.
  cbn [Group.row Group.count Group.users CrashSummary.affected_users
       CrashSummary.title CrashSummary.occurrences CrashSummary.impact
       CrashSummary.id CrashSummary.timestamp CrashSummary.app_version
       CrashSummary.platform CrashSummary.crash_message CrashSummary.is_fatal].
  destruct (String.eqb_spec (BigQueryCrashRow.user_id row) "") as [He|Hne]; simpl negb;
    cbv iota.
  - split; [intros; contradiction|].
    split; [intros _; repeat split; reflexivity|].
    repeat split; reflexivity.
  - split; [intros _; rewrite size_singleton; reflexivity|].
    split; [intros; contradiction|].
    repeat split; reflexivity.
Qed.

(** With a baseline of 50 users, a fatal row without a user id is [low]
    in the aggregation (0 users) and [medium] in the details (1 user, 2 %
    of the baseline). *)
Example details_and_aggregation_differ_in_impact :
  let this := CrashProcessor.new (Some 50%float) in
  let row := rowOf "IOException" "timeout" "2.0" "" in
  map CrashSummary.impact (processCrashRows this [row]) = [low]
  /\ calculateImpactLevel (impactAnalyzer this) 1%float 1%float true = medium.
Proof. split; reflexivity. Qed.

Lemma orb_weight (b1 b2 c1 c2 : bool) :
  (b1 = true -> c1 = true) -> (b2 = true -> c2 = true) ->
  impactWeight (if b1 then high else if b2 then medium else low)
  <= impactWeight (if c1 then high else if c2 then medium else low).
Proof.
  destruct b1, b2, c1, c2; simpl; intros H1 H2;
    try lia; try (specialize (H1 eq_refl); discriminate);
    try (specialize (H2 eq_refl); discriminate).
Qed.

(** X20. The percentage tests of [calculateImpactLevel] only raise the
    level: it is never below the level of the absolute thresholds, for
    every baseline, [NaN] and infinities included. For a fatal crash the
    occurrence count plays no part. *)
Theorem percentage_only_raises_level (this : ImpactAnalyzer.t)
    (affectedUsers occurrences : float) (isFatal : bool) :
  impactWeight (Spec.absoluteLevel affectedUsers occurrences isFatal)
  <= impactWeight (calculateImpactLevel this affectedUsers occurrences isFatal)
  /\ calculateImpactLevel this affectedUsers occurrences true
     = calculateImpactLevel this affectedUsers 0%float true.
Proof.
  split; [|reflexivity].
  unfold Spec.absoluteLevel, calculateImpactLevel. destruct isFatal.
  - apply orb_weight; intros H; rewrite H; reflexivity.
  - apply orb_weight; intros H; apply orb_true_iff in H as [H|H]; rewrite H;
      rewrite ?orb_true_r; reflexivity.
Qed.
